(** * LuminaSession: the realtime voice session of Lumina-Research

    A shallow embedding of [services/luminaLive.ts] (class [LuminaSession]):
    the PCM16 framer ([createBlob], [encode]), the PCM16 decoder
    ([decodeAudioData]), the playback scheduler ([playAudio]), the inbound
    demultiplexer ([handleMessage]) and teardown ([disconnect]).

    Conventions of the embedding.
    - A JavaScript number that holds a sample or a time is a rational [Q].
      Every finite Float32 sample is a dyadic rational, the product
      [data[i] * 32768] and the quotient [dataInt16[i] / 32768.0] are exact in
      binary floating point, so the sample paths are modelled without
      rounding.
    - A time on the output clock is a double, in seconds: the rational value
      of a finite IEEE 754 binary64 number.  The sum of two times is rounded
      to the nearest double, ties to even, by [double]; the maximum of two
      doubles is exact.  [AudioBuffer.duration] is the double nearest the
      number of frames over the sample rate.  A payload is a JavaScript
      string, of fewer than [2^53] characters, so a duration is below
      [2^38] seconds, and it takes an addend of [2^970] to bring a finite
      double to [Infinity]: the sums of the scheduler do not overflow, and
      [double] leaves overflow out.
    - A byte of a [Uint8Array] is a [Z] in [0, 256); an element of an
      [Int16Array] is a [Z] in [-32768, 32768).  Typed-array views use the
      byte order of the platform, which is little-endian on every platform
      a browser runs on.
    - A binary string (the argument of [btoa], the result of [atob]) is a
      [string]: one 8-bit character per byte.  A base64 payload is a
      [string] too: a character above U+00FF is not base64 and could only
      add one more payload that [atob] rejects.
    - A thrown exception is the [Throw] constructor of [result].
    - A promise is known by the number of the [connect()] call that
      created it.  The callbacks of a channel and the capture callback of a
      processor keep the promise of their own [connect()], whatever
      [this.session] refers to later.
    - The session talks to its collaborators (the status and screen
      callbacks, the channel, the audio devices): every such call is an
      [Effect], and a method returns the effects in the order it makes them
      together with the new fields of the session.
    - The event loop is single-threaded: a callback runs to its end, its
      microtasks included, before the next event is delivered.  The output
      clock is read once per inbound message and is an input of the
      model. *)

From Stdlib Require Import ZArith QArith Qround Qabs Qminmax Qpower Lia Lqa.
From Stdlib Require Import List Bool Ascii String DecimalString.
Import ListNotations.

Local Open Scope Z_scope.

(** ** Exceptions *)

Inductive Exn : Type :=
| InvalidCharacterError   (* atob on a string that is not base64 *)
| RangeError              (* Int16Array over a buffer of odd byte length *)
| NotSupportedError       (* createBuffer with a length of zero frames *)
| TypeError               (* destructuring or iterating undefined *)
| Rejection.              (* awaiting a rejected promise *)

Inductive result (A : Type) : Type :=
| Ok (a : A)
| Throw (e : Exn).

Arguments Ok {A} a.
Arguments Throw {A} e.

Definition bind {A B : Type} (r : result A) (k : A -> result B) : result B :=
  match r with
  | Ok a => k a
  | Throw e => Throw e
  end.

Notation "x <- r ;; k" := (bind r (fun x => k))
  (at level 61, r at next level, right associativity).

(** ** The platform's base64 functions: [btoa] and [atob] *)

Module Base64.

Definition alphabet : list ascii :=
  list_ascii_of_string
    "ABCDEFGHIJKLMNOPQRSTUVWXYZabcdefghijklmnopqrstuvwxyz0123456789+/".

Definition pad : ascii := "="%char.

(** The character of a 6-bit value. *)
Definition char_of (n : Z) : ascii := nth (Z.to_nat n) alphabet pad.

Fixpoint index_in (c : ascii) (l : list ascii) : option Z :=
  match l with
  | [] => None
  | x :: r => if Ascii.eqb c x then Some 0 else option_map Z.succ (index_in c r)
  end.

(** The 6-bit value of a character, when it is in the alphabet. *)
Definition index_of (c : ascii) : option Z := index_in c alphabet.

(** RFC 4648 encoding of a byte sequence: three bytes give four
    characters, a last group of one or two bytes is padded with [=]. *)
Fixpoint encode_bytes (bs : list Z) : list ascii :=
  match bs with
  | [] => []
  | [a] => [char_of (a / 4); char_of (a mod 4 * 16); pad; pad]
  | [a; b] =>
      [char_of (a / 4); char_of (a mod 4 * 16 + b / 16);
       char_of (b mod 16 * 4); pad]
  | a :: b :: c :: rest =>
      char_of (a / 4) :: char_of (a mod 4 * 16 + b / 16)
      :: char_of (b mod 16 * 4 + c / 64) :: char_of (c mod 64)
      :: encode_bytes rest
  end.

Definition charCodeAt (c : ascii) : Z := Z.of_N (N_of_ascii c).
Definition fromCharCode (b : Z) : ascii := ascii_of_N (Z.to_N b).

(** [btoa(binary)]: every character of the binary string is one byte. *)
Definition btoa (binary : string) : string :=
  string_of_list_ascii
    (encode_bytes (map charCodeAt (list_ascii_of_string binary))).

(** ASCII whitespace: TAB, LF, FF, CR and SPACE. *)
Definition is_whitespace (c : ascii) : bool :=
  let n := charCodeAt c in
  (n =? 9) || (n =? 10) || (n =? 12) || (n =? 13) || (n =? 32).

(** Step 2 of forgiving-base64 decode: when the length is a multiple of
    four, one or two trailing [=] are removed. *)
Definition strip_padding (l : list ascii) : list ascii :=
  if (Nat.modulo (List.length l) 4 =? 0)%nat then
    match rev l with
    | x :: y :: r =>
        if Ascii.eqb x pad then
          if Ascii.eqb y pad then rev r else rev (y :: r)
        else l
    | _ => l
    end
  else l.

Fixpoint sextets (l : list ascii) : option (list Z) :=
  match l with
  | [] => Some []
  | c :: r =>
      match index_of c, sextets r with
      | Some n, Some ns => Some (n :: ns)
      | _, _ => None
      end
  end.

(** Four 6-bit values give three bytes; a last group of two or three values
    gives one or two bytes, the bits left over are discarded. *)
Fixpoint decode_sextets (l : list Z) : list Z :=
  match l with
  | [] => []
  | [_] => []
  | [s0; s1] => [s0 * 4 + s1 / 16]
  | [s0; s1; s2] => [s0 * 4 + s1 / 16; s1 mod 16 * 16 + s2 / 4]
  | s0 :: s1 :: s2 :: s3 :: rest =>
      (s0 * 4 + s1 / 16) :: (s1 mod 16 * 16 + s2 / 4) :: (s2 mod 4 * 64 + s3)
      :: decode_sextets rest
  end.

(** [atob(data)], the forgiving-base64 decode of the HTML standard; it
    throws [InvalidCharacterError] on a string that is not base64. *)
Definition atob (data : string) : result string :=
  let d := filter (fun c => negb (is_whitespace c)) (list_ascii_of_string data) in
  let d := strip_padding d in
  if (Nat.modulo (List.length d) 4 =? 1)%nat then Throw InvalidCharacterError
  else
    match sextets d with
    | None => Throw InvalidCharacterError
    | Some ss => Ok (string_of_list_ascii (map fromCharCode (decode_sextets ss)))
    end.

End Base64.

Export Base64.

(** ** PCM16 framing and decoding *)

Record Blob : Type := {
  data : string;
  mimeType : string
}.

Record AudioBuffer : Type := {
  sampleRate : Z;
  channelData : list Q
}.

(** [AudioBuffer.duration]: the number of frames over the sample rate. *)
Definition duration (b : AudioBuffer) : Q :=
  inject_Z (Z.of_nat (List.length (channelData b))) / inject_Z (sampleRate b).

(** The integer part of a number, rounding toward zero. *)
Definition truncate (x : Q) : Z := Z.quot (Qnum x) (Z.pos (Qden x)).

(** ECMAScript [ToInt16], the conversion applied by a store into an
    [Int16Array]: truncate, reduce modulo 2^16, read as two's complement. *)
Definition ToInt16 (x : Q) : Z :=
  let int16bit := truncate x mod 65536 in
  if 32768 <=? int16bit then int16bit - 65536 else int16bit.

(** The two bytes of an [Int16Array] element in its buffer, low byte first. *)
Definition bytes_of_int16 (v : Z) : list Z :=
  let u := v mod 65536 in [u mod 256; u / 256].

(** [new Uint8Array(int16.buffer)] *)
Definition Uint8Array_of (int16 : list Z) : list Z :=
  flat_map bytes_of_int16 int16.

Definition int16_of_bytes (lo hi : Z) : Z :=
  let u := lo + 256 * hi in
  if 32768 <=? u then u - 65536 else u.

(** [new Int16Array(bytes.buffer)]: throws [RangeError] when the byte
    length is not a multiple of two. *)
Fixpoint Int16Array_of (bytes : list Z) : result (list Z) :=
  match bytes with
  | [] => Ok []
  | [_] => Throw RangeError
  | lo :: hi :: rest =>
      r <- Int16Array_of rest ;; Ok (int16_of_bytes lo hi :: r)
  end.

(** [ctx.createBuffer(1, length, sampleRate)]: a silent mono buffer; the
    Web Audio API throws [NotSupportedError] for a length of zero. *)
Definition createBuffer (length : nat) (rate : Z) : result AudioBuffer :=
  match length with
  | O => Throw NotSupportedError
  | _ => Ok {| sampleRate := rate; channelData := repeat 0%Q length |}
  end.

(** [encode(bytes)] (source lines 191-198) *)
Definition encode (bytes : list Z) : string :=
  let binary := string_of_list_ascii (map fromCharCode bytes) in
  btoa binary.

(** [createBlob(data)] (source lines 179-189) *)
Definition createBlob (samples : list Q) : Blob :=
  let int16 := map (fun s => ToInt16 (s * 32768)%Q) samples in
  {| data := encode (Uint8Array_of int16);
     mimeType := "audio/pcm;rate=16000" |}.

(** The float a decoded 16-bit sample becomes (source line 214). *)
Definition pcm (v : Z) : Q := (inject_Z v / 32768)%Q.

(** [decodeAudioData(base64, ctx)] (source lines 200-217) *)
Definition decodeAudioData (base64 : string) : result AudioBuffer :=
  binaryString <- atob base64 ;;
  let bytes := map charCodeAt (list_ascii_of_string binaryString) in
  dataInt16 <- Int16Array_of bytes ;;
  let frameCount := List.length dataInt16 in
  buffer <- createBuffer frameCount 24000 ;;
  Ok {| sampleRate := sampleRate buffer;
        channelData := map pcm dataInt16 |}.

(** The quantizer as the specification words it: round to nearest, then
    clamp to the int16 range. *)
Definition spec_round (x : Q) : Z := Qfloor (x + (1 # 2))%Q.
Definition spec_clamp (z : Z) : Z := Z.max (-32768) (Z.min 32767 z).
Definition spec_quantize (s : Q) : Z := spec_clamp (spec_round (s * 32768)%Q).

(** ** Double precision

    [double x] is the double nearest the number [x]: with [e] the exponent
    of [x], not below that of the smallest normal double, [x] is rounded to
    the nearest multiple of [2^(e - 52)], a tie going to the even
    multiple. *)

Definition pow2 (e : Z) : Q := (2 ^ e)%Q.

Definition round_half_even (x : Q) : Z :=
  let f := Qfloor x in
  match (x - inject_Z f ?= 1 # 2)%Q with
  | Lt => f
  | Gt => f + 1
  | Eq => if Z.even f then f else f + 1
  end.

(** The exponent of a positive number [a]: [2^e <= a < 2^(e + 1)]. *)
Definition exponent (a : Q) : Z :=
  let k := Z.log2 (Qnum a) - Z.log2 (Z.pos (Qden a)) in
  if Qle_bool (pow2 k) a then k else k - 1.

(** The distance between the doubles around [x]. *)
Definition ulp (x : Q) : Q := pow2 (Z.max (exponent (Qabs x)) (-1022) - 52).

Definition double (x : Q) : Q :=
  match Qnum x with
  | Z0 => 0%Q
  | _ => Qred (inject_Z (round_half_even (x / ulp x)) * ulp x)
  end.

(** ** The session object *)

Inductive Promise : Type := Pending | Fulfilled | Rejected.

Inductive Context : Type := InputContext | OutputContext.

(** An [AudioBufferSourceNode] handed to the output device: the identity of
    the node object, its buffer and the time given to [start]. *)
Record AudioBufferSourceNode : Type := {
  node : nat;
  buffer : AudioBuffer;
  startTime : Q
}.

Record Args : Type := {
  title : option string;
  content_markdown : option string
}.

Record FunctionCall : Type := {
  id : option string;
  name : option string;
  args : option Args
}.

(** A [LiveServerMessage], reduced to the two paths [handleMessage] reads:
    [serverContent?.modelTurn?.parts?.[0]?.inlineData?.data] and
    [toolCall], whose [functionCalls] is optional in the SDK's type. *)
Record LiveServerMessage : Type := {
  inlineData : option string;
  toolCall : option (option (list FunctionCall))
}.

(** What the session does to its collaborators, in the order it does it. *)
Inductive Effect : Type :=
| StatusChange (status : string)                  (* onStatusChange(status) *)
| ScreenUpdate (title content : option string)    (* onScreenUpdate({title, content}) *)
| SendRealtimeInput (media : Blob)                (* session.sendRealtimeInput *)
| SendToolResponse (id name : option string) (response : string)
| GraphConnect                                    (* source -> processor -> destination *)
| SourceDisconnect                                (* this.source.disconnect() *)
| ProcessorDisconnect                             (* this.inputProcessor.disconnect() *)
| TrackStop (track : nat)                         (* t.stop() *)
| ContextClose (c : Context)                      (* AudioContext.close() *)
| SourceStart (node : nat) (when : Q)             (* source.start(when) *)
| SourceStop (node : nat)                         (* source.stop() *)
| ConsoleError (msg : string).                    (* console.error(msg, e) *)

(** What the session sends on the channel, always from a callback of
    [sessionPromise.then]. *)
Inductive Outbound : Type :=
| RealtimeInput (media : Blob)
| ToolResponse (id name : option string) (response : string).

Definition send (m : Outbound) : Effect :=
  match m with
  | RealtimeInput media => SendRealtimeInput media
  | ToolResponse i n r => SendToolResponse i n r
  end.

(** What waits for a session promise to settle: the callback of a
    [sessionPromise.then] and the rest of a [disconnect] suspended at
    [await this.session]. *)
Inductive Reaction : Type :=
| Send (m : Outbound)
| ResumeDisconnect.

(** The fields of [LuminaSession] (source lines 17-27).  [session] holds
    the state of the promise it refers to; [inputProcessor] the promise the
    capture callback of the processor was created with; [stream] the tracks
    of the [MediaStream]; [sources] the [Set] in insertion order.  The other
    fields belong to the model of the platform, not to the class: [nextNode]
    is the identity the next created node gets, [reactions] the reactions
    registered on the promise [session] refers to, and [earlier] the
    promises of the earlier [connect()] calls, oldest first, each with the
    reactions registered on it. *)
Record LuminaSession : Type := {
  session : option Promise;
  inputContext : option Z;
  outputContext : option Z;
  inputProcessor : option nat;
  source : bool;
  stream : option (list nat);
  nextStartTime : Q;
  sources : list AudioBufferSourceNode;
  nextNode : nat;
  reactions : list Reaction;
  earlier : list (Promise * list Reaction)
}.

(** The object the constructor returns. *)
Definition new_session : LuminaSession :=
  {| session := None; inputContext := None; outputContext := None;
     inputProcessor := None; source := false; stream := None;
     nextStartTime := 0%Q; sources := []; nextNode := O; reactions := [];
     earlier := [] |}.

Definition set_playback (s : LuminaSession) (t : Q)
    (l : list AudioBufferSourceNode) (f : nat) : LuminaSession :=
  {| session := session s; inputContext := inputContext s;
     outputContext := outputContext s; inputProcessor := inputProcessor s;
     source := source s; stream := stream s;
     nextStartTime := t; sources := l; nextNode := f;
     reactions := reactions s; earlier := earlier s |}.

Definition set_session (s : LuminaSession) (p : option Promise)
    (rs : list Reaction) : LuminaSession :=
  {| session := p; inputContext := inputContext s;
     outputContext := outputContext s; inputProcessor := inputProcessor s;
     source := source s; stream := stream s;
     nextStartTime := nextStartTime s; sources := sources s;
     nextNode := nextNode s; reactions := rs; earlier := earlier s |}.

Definition set_earlier (s : LuminaSession)
    (ps : list (Promise * list Reaction)) : LuminaSession :=
  {| session := session s; inputContext := inputContext s;
     outputContext := outputContext s; inputProcessor := inputProcessor s;
     source := source s; stream := stream s;
     nextStartTime := nextStartTime s; sources := sources s;
     nextNode := nextNode s; reactions := reactions s; earlier := ps |}.

Definition set_devices (s : LuminaSession) (ic oc : option Z)
    (ip : option nat) (src : bool) (st : option (list nat)) : LuminaSession :=
  {| session := session s; inputContext := ic; outputContext := oc;
     inputProcessor := ip; source := src; stream := st;
     nextStartTime := nextStartTime s; sources := sources s;
     nextNode := nextNode s; reactions := reactions s;
     earlier := earlier s |}.

(** The number of the promise [this.session] refers to: the latest one. *)
Definition latest (s : LuminaSession) : nat := List.length (earlier s).

(** The state of a promise and the reactions registered on it. *)
Definition promise_state (sessionPromise : nat) (s : LuminaSession)
    : option Promise :=
  if Nat.eqb sessionPromise (latest s) then session s
  else option_map fst (nth_error (earlier s) sessionPromise).

Definition waiting (sessionPromise : nat) (s : LuminaSession)
    : list Reaction :=
  if Nat.eqb sessionPromise (latest s) then reactions s
  else match nth_error (earlier s) sessionPromise with
       | Some p => snd p
       | None => []
       end.

Fixpoint replace_nth {A : Type} (k : nat) (x : A) (l : list A) : list A :=
  match l, k with
  | [], _ => []
  | _ :: r, O => x :: r
  | a :: r, S k' => a :: replace_nth k' x r
  end.

Definition set_promise (sessionPromise : nat) (p : Promise)
    (rs : list Reaction) (s : LuminaSession) : LuminaSession :=
  if Nat.eqb sessionPromise (latest s) then set_session s (Some p) rs
  else set_earlier s (replace_nth sessionPromise (p, rs) (earlier s)).

(** How a call of a method ends: it returns, it throws (an [async] method
    then rejects), or it is suspended at an [await]. *)
Inductive Completion : Type :=
| Returned
| Thrown (e : Exn)
| Suspended.

Definition Run : Type := (list Effect * LuminaSession * Completion)%type.

(** [playAudio(base64)] at output clock time [now] (source lines 135-155).
    Everything after the context test is inside [try]: a throw of
    [decodeAudioData] goes to [console.error].  The watermark is advanced
    by a double addition of [audioBuffer.duration], itself a double. *)
Definition playAudio (base64 : string) (now : Q) (s : LuminaSession)
    : list Effect * LuminaSession :=
  match outputContext s with
  | None => ([], s)
  | Some _ =>
      let t := Qmax (nextStartTime s) now in
      match decodeAudioData base64 with
      | Throw e =>
          ([ConsoleError "Audio Decode Error"],
           set_playback s t (sources s) (nextNode s))
      | Ok audioBuffer =>
          let src :=
            {| node := nextNode s; buffer := audioBuffer; startTime := t |} in
          ([SourceStart (nextNode s) t],
           set_playback s (double (t + double (duration audioBuffer)))
             (sources s ++ [src]) (S (nextNode s)))
      end
  end.

(** The ['ended'] listener of a node: [this.sources.delete(source)]. *)
Definition ended (n : nat) (s : LuminaSession) : LuminaSession :=
  set_playback s (nextStartTime s)
    (filter (fun u => negb (Nat.eqb (node u) n)) (sources s)) (nextNode s).

(** [sessionPromise.then(f)]: [f] runs at once when the promise is
    fulfilled, waits when it is pending, and never runs when it is
    rejected. *)
Definition then_ (sessionPromise : nat) (messages : list Outbound)
    (s : LuminaSession) : list Effect * LuminaSession :=
  match promise_state sessionPromise s with
  | Some Fulfilled => (map send messages, s)
  | Some Pending =>
      ([], set_promise sessionPromise Pending
             (waiting sessionPromise s ++ map Send messages) s)
  | _ => ([], s)
  end.

Definition is_update_screen (fc : FunctionCall) : bool :=
  match name fc with
  | Some n => String.eqb n "update_screen"
  | None => false
  end.

(** The loop over [message.toolCall.functionCalls] (source lines 115-131):
    the calls made at once ([onScreenUpdate]), the tool responses handed to
    [sessionPromise.then], and how the loop ends.  Destructuring [fc.args]
    throws when it is undefined, which ends the loop. *)
Fixpoint tool_loop (fcs : list FunctionCall)
    : list Effect * list Outbound * Completion :=
  match fcs with
  | [] => ([], [], Returned)
  | fc :: rest =>
      if is_update_screen fc then
        match args fc with
        | None => ([], [], Thrown TypeError)
        | Some a =>
            let '(calls, responses, c) := tool_loop rest in
            (ScreenUpdate (title a) (content_markdown a) :: calls,
             ToolResponse (id fc) (name fc) "Screen updated successfully."
               :: responses,
             c)
        end
      else tool_loop rest
  end.

(** [handleMessage(message, sessionPromise)] at output clock time [now]
    (source lines 106-133).  [playAudio] is not awaited: it runs up to its
    own [await], the tool loop runs, and then the microtasks run in the order
    they were queued: the rest of [playAudio], then the reactions on the
    session promise. *)
Definition handleMessage (message : LiveServerMessage) (sessionPromise : nat)
    (now : Q) (s : LuminaSession) : Run :=
  let '(audio, s1) :=
    match inlineData message with
    | Some base64Audio =>
        if String.eqb base64Audio "" then ([], s)
        else
          match outputContext s with
          | Some _ => playAudio base64Audio now s
          | None => ([], s)
          end
    | None => ([], s)
    end in
  let '(calls, responses, c) :=
    match toolCall message with
    | None => ([], [], Returned)
    | Some None => ([], [], Thrown TypeError)
    | Some (Some fcs) => tool_loop fcs
    end in
  let '(sent, s2) := then_ sessionPromise responses s1 in
  (calls ++ audio ++ sent, s2, c).

(** The statements of [disconnect] after the [await] (source lines
    164-175).  No field is reset; the platform calls do not throw. *)
Definition teardown (s : LuminaSession) : list Effect * LuminaSession :=
  ((if source s then [SourceDisconnect] else [])
   ++ match inputProcessor s with Some _ => [ProcessorDisconnect] | None => [] end
   ++ match stream s with Some tracks => map TrackStop tracks | None => [] end
   ++ match inputContext s with Some _ => [ContextClose InputContext] | None => [] end
   ++ match outputContext s with Some _ => [ContextClose OutputContext] | None => [] end
   ++ map (fun u => SourceStop (node u)) (sources s)
   ++ [StatusChange "Disconnected"],
   set_playback s (nextStartTime s) [] (nextNode s)).

(** [disconnect()] (source lines 157-176): [await this.session] throws on
    a rejected promise and suspends on a pending one. *)
Definition disconnect (s : LuminaSession) : Run :=
  match session s with
  | Some Rejected => ([], s, Thrown Rejection)
  | Some Pending =>
      ([], set_session s (session s) (reactions s ++ [ResumeDisconnect]),
       Suspended)
  | Some Fulfilled | None =>
      let '(effects, s') := teardown s in (effects, s', Returned)
  end.

(** [connect()] (source lines 38-85).  [media] is what [getUserMedia]
    resolves with, [None] when it rejects: [connect] then throws before the
    channel is opened.  [this.session = sessionPromise] makes the field
    refer to the new promise; the one it referred to stays with the
    callbacks that hold it. *)
Definition connect (media : option (list nat)) (s : LuminaSession) : Run :=
  let s1 := set_devices s (Some 16000) (Some 24000)
              (inputProcessor s) (source s) (stream s) in
  match media with
  | None => ([StatusChange "Connecting..."], s1, Thrown Rejection)
  | Some tracks =>
      let s2 := set_devices s1 (inputContext s1) (outputContext s1)
                  (inputProcessor s1) (source s1) (Some tracks) in
      let kept := match session s2 with
                  | Some p => earlier s2 ++ [(p, reactions s2)]
                  | None => earlier s2
                  end in
      ([StatusChange "Connecting..."],
       set_session (set_earlier s2 kept) (Some Pending) [], Returned)
  end.

(** [startAudioInput(sessionPromise)] (source lines 87-104) *)
Definition startAudioInput (sessionPromise : nat) (s : LuminaSession)
    : list Effect * LuminaSession :=
  match inputContext s, stream s with
  | Some _, Some _ =>
      ([GraphConnect],
       set_devices s (inputContext s) (outputContext s) (Some sessionPromise)
         true (stream s))
  | _, _ => ([], s)
  end.

(** The [onopen] callback (source lines 49-52) *)
Definition onopen (sessionPromise : nat) (s : LuminaSession)
    : list Effect * LuminaSession :=
  let '(e, s1) := startAudioInput sessionPromise s in
  (StatusChange "Connected" :: e, s1).

(** The [onaudioprocess] callback (source lines 93-100) of the processor
    [this.inputProcessor] refers to. *)
Definition onaudioprocess (inputData : list Q) (s : LuminaSession)
    : list Effect * LuminaSession :=
  match inputProcessor s with
  | Some sessionPromise =>
      then_ sessionPromise [RealtimeInput (createBlob inputData)] s
  | None => ([], s)
  end.

(** The reactions run in the order they were registered when the session
    promise is fulfilled. *)
Fixpoint run_reactions (rs : list Reaction) (s : LuminaSession)
    : list Effect * LuminaSession :=
  match rs with
  | [] => ([], s)
  | Send m :: rest =>
      let '(es, s') := run_reactions rest s in (send m :: es, s')
  | ResumeDisconnect :: rest =>
      let '(e1, s1) := teardown s in
      let '(es, s') := run_reactions rest s1 in (e1 ++ es, s')
  end.

(** ** The session driven by its environment *)

(** A session promise settles. *)
Definition settle (sessionPromise : nat) (fulfilled : bool)
    (s : LuminaSession) : list Effect * LuminaSession :=
  match promise_state sessionPromise s with
  | Some Pending =>
      if fulfilled then
        run_reactions (waiting sessionPromise s)
          (set_promise sessionPromise Fulfilled [] s)
      else ([], set_promise sessionPromise Rejected [] s)
  | _ => ([], s)
  end.

(** What the platform calls back for the channel of one [connect()]: the
    callbacks of [live.connect], the settling of its promise, and the
    capture callback of the processor its [onopen] created. *)
Inductive Callback : Type :=
| OnOpen                                     (* callbacks.onopen *)
| OnSettled (fulfilled : bool)               (* the session promise settles *)
| OnMessage (message : LiveServerMessage) (now : Q)
| OnClose                                    (* callbacks.onclose *)
| OnError                                    (* callbacks.onerror *)
| OnAudioProcess (inputData : list Q).       (* onaudioprocess *)

(** A callback exists once its [connect()] has created the promise; the
    platform calls the capture callback only of a processor that [onopen]
    has created. *)
Definition callback (sessionPromise : nat) (c : Callback) (s : LuminaSession)
    : list Effect * LuminaSession :=
  match promise_state sessionPromise s with
  | None => ([], s)
  | Some _ =>
      match c with
      | OnOpen => onopen sessionPromise s
      | OnSettled fulfilled => settle sessionPromise fulfilled s
      | OnMessage message now =>
          fst (handleMessage message sessionPromise now s)
      | OnClose => ([StatusChange "Disconnected"], s)
      | OnError => ([ConsoleError "Live API Error:"; StatusChange "Error"], s)
      | OnAudioProcess inputData =>
          then_ sessionPromise [RealtimeInput (createBlob inputData)] s
      end
  end.

(** The events of a session.  [ChannelOpen] to [ChannelError] are the
    callbacks of the channel of the latest [connect()], [AudioProcess] the
    capture callback of the processor in [this.inputProcessor];
    [Channel k c] is a callback of the channel of the [k]-th [connect()],
    which stays open when [connect()] is called again. *)
Inductive Event : Type :=
| Connect (media : option (list nat))       (* the caller: connect() *)
| Disconnect                                (* the caller: disconnect() *)
| ChannelOpen                               (* callbacks.onopen *)
| SessionSettled (fulfilled : bool)         (* the session promise settles *)
| ChannelMessage (message : LiveServerMessage) (now : Q)
| ChannelClose                              (* callbacks.onclose *)
| ChannelError                              (* callbacks.onerror *)
| AudioProcess (inputData : list Q)         (* the capture callback *)
| NodeEnded (n : nat)                       (* 'ended' on a source node *)
| Channel (sessionPromise : nat) (c : Callback).

(** One event. *)
Definition step (ev : Event) (s : LuminaSession) : list Effect * LuminaSession :=
  match ev with
  | Connect media => fst (connect media s)
  | Disconnect => fst (disconnect s)
  | ChannelOpen => callback (latest s) OnOpen s
  | SessionSettled fulfilled => callback (latest s) (OnSettled fulfilled) s
  | ChannelMessage message now => callback (latest s) (OnMessage message now) s
  | ChannelClose => callback (latest s) OnClose s
  | ChannelError => callback (latest s) OnError s
  | AudioProcess inputData => onaudioprocess inputData s
  | NodeEnded n => ([], ended n s)
  | Channel sessionPromise c => callback sessionPromise c s
  end.

Fixpoint run (evs : list Event) (s : LuminaSession)
    : list Effect * LuminaSession :=
  match evs with
  | [] => ([], s)
  | ev :: rest =>
      let '(e1, s1) := step ev s in
      let '(e2, s2) := run rest s1 in
      (e1 ++ e2, s2)
  end.

(** The status strings handed to [onStatusChange] in a trace. *)
Fixpoint statuses (es : list Effect) : list string :=
  match es with
  | [] => []
  | StatusChange st :: r => st :: statuses r
  | _ :: r => statuses r
  end.

(** The tool responses sent in a trace, as pairs of id and name. *)
Fixpoint tool_responses (es : list Effect)
    : list (option string * option string) :=
  match es with
  | [] => []
  | SendToolResponse i n _ :: r => (i, n) :: tool_responses r
  | _ :: r => tool_responses r
  end.

(** The invocation a response has to name. *)
Definition correlation (fc : FunctionCall) : option string * option string :=
  (id fc, name fc).

(** The nodes stopped in a trace. *)
Fixpoint stopped (es : list Effect) : list nat :=
  match es with
  | [] => []
  | SourceStop n :: r => n :: stopped r
  | _ :: r => stopped r
  end.

(** ** Auxiliary definitions of the proofs *)

Definition is_byte (b : Z) : Prop := 0 <= b < 256.
Definition is_sextet (n : Z) : Prop := 0 <= n < 64.

(** The 6-bit values of a byte sequence, without padding. *)
Fixpoint sextets_of (bs : list Z) : list Z :=
  match bs with
  | [] => []
  | [a] => [a / 4; a mod 4 * 16]
  | [a; b] => [a / 4; a mod 4 * 16 + b / 16; b mod 16 * 4]
  | a :: b :: c :: rest =>
      a / 4 :: (a mod 4 * 16 + b / 16) :: (b mod 16 * 4 + c / 64) :: c mod 64
      :: sextets_of rest
  end.

Fixpoint padding_of (bs : list Z) : list ascii :=
  match bs with
  | [] => []
  | [_] => [pad; pad]
  | [_; _] => [pad]
  | _ :: _ :: _ :: rest => padding_of rest
  end.

Definition sextet_ok (n : Z) : bool :=
  match index_of (char_of n) with
  | Some m => m =? n
  | None => false
  end
  && negb (is_whitespace (char_of n))
  && negb (Ascii.eqb (char_of n) pad).

(** [createBlob] with the quantizer of the specification. *)
Definition spec_createBlob (samples : list Q) : Blob :=
  {| data := encode (Uint8Array_of (map spec_quantize samples));
     mimeType := "audio/pcm;rate=16000" |}.

(** The value a sample comes back as after [createBlob] and
    [decodeAudioData]. *)
Definition roundtrip (s : Q) : Q := pcm (ToInt16 (s * 32768)).

Definition is_int16 (v : Z) : Prop := -32768 <= v < 32768.

(** The step of teardown an effect belongs to, in the order the
    specification gives: capture pipeline, playback units, input tracks,
    device contexts. *)
Definition spec_phase (e : Effect) : option nat :=
  match e with
  | SourceDisconnect | ProcessorDisconnect => Some 0%nat
  | SourceStop _ => Some 1%nat
  | TrackStop _ => Some 2%nat
  | ContextClose _ => Some 3%nat
  | _ => None
  end.

(** The same steps in the order [disconnect] is written: capture pipeline,
    input tracks, device contexts, playback units, status callback. *)
Definition code_phase (e : Effect) : option nat :=
  match e with
  | SourceDisconnect | ProcessorDisconnect => Some 0%nat
  | TrackStop _ => Some 1%nat
  | ContextClose _ => Some 2%nat
  | SourceStop _ => Some 3%nat
  | StatusChange _ => Some 4%nat
  | _ => None
  end.

Fixpoint phases (phase : Effect -> option nat) (es : list Effect) : list nat :=
  match es with
  | [] => []
  | e :: r =>
      match phase e with
      | Some k => k :: phases phase r
      | None => phases phase r
      end
  end.

Fixpoint ascending (l : list nat) : bool :=
  match l with
  | a :: (b :: _) as r => (a <=? b)%nat && ascending r
  | _ => true
  end.

(** The steps of a trace come in the order of their phases. *)
Definition in_order (phase : Effect -> option nat) (es : list Effect) : bool :=
  ascending (phases phase es).

Definition is_stop (e : Effect) : bool :=
  match e with
  | SourceStop _ => true
  | _ => false
  end.

(** An idle session is the object as constructed; a connected one has an
    open channel: its session promise is fulfilled. *)
Definition Idle (s : LuminaSession) : Prop := s = new_session.
Definition Connected (s : LuminaSession) : Prop := session s = Some Fulfilled.

(** The lifecycle strings as the specification lists them, and as the
    source passes them. *)
Definition spec_statuses : list string :=
  ["Connecting"; "Connected"; "Disconnected"; "Error"]%string.
Definition code_statuses : list string :=
  ["Connecting..."; "Connected"; "Disconnected"; "Error"]%string.

(** A session with one input track and an open channel. *)
Definition connected_session : LuminaSession :=
  snd (run [Connect (Some [7%nat]); ChannelOpen; SessionSettled true] new_session).

Definition audio_message (base64 : string) : LiveServerMessage :=
  {| inlineData := Some base64; toolCall := None |}.

Definition tool_message (fcs : list FunctionCall) : LiveServerMessage :=
  {| inlineData := None; toolCall := Some (Some fcs) |}.

(** A connected session with one unit scheduled and not yet ended. *)
Definition playing_session : LuminaSession :=
  snd (playAudio "AAA=" 0 connected_session).

(** A session whose channel failed to open after the microphone had been
    acquired. *)
Definition failed_session : LuminaSession :=
  snd (run [Connect (Some [7%nat]); SessionSettled false] new_session).

(** A session on which [connect()] was called again: the processor and the
    callbacks of the first channel hold the first promise, fulfilled in
    [reconnected_session] and still pending in [reconnecting_session]. *)
Definition reconnected_session : LuminaSession :=
  snd (run [Connect (Some [7%nat]); ChannelOpen; SessionSettled true;
            Connect (Some [8%nat])] new_session).

Definition reconnecting_session : LuminaSession :=
  snd (run [Connect (Some [7%nat]); ChannelOpen; Connect (Some [8%nat])]
         new_session).

(** Every status of a list is one the source passes. *)
Definition allowed (l : list string) : Prop :=
  Forall (fun st => In st code_statuses) l.

(** A number a double holds. *)
Definition is_double (x : Q) : Prop := (double x == x)%Q.

(** The clock reading of an event, if it has one, satisfies [R]. *)
Definition readings (R : Q -> Prop) (ev : Event) : Prop :=
  match ev with
  | ChannelMessage _ now | Channel _ (OnMessage _ now) => R now
  | _ => True
  end.

(** A property of the active set, the watermark and the node counter holds
    of a session. *)
Definition holds (P : list AudioBufferSourceNode -> Q -> nat -> Prop)
    (s : LuminaSession) : Prop :=
  P (sources s) (nextStartTime s) (nextNode s).

(** The instant a scheduled unit stops sounding. *)
Definition unit_end (u : AudioBufferSourceNode) : Q :=
  (startTime u + duration (buffer u))%Q.

(** The share of an instant that the two roundings of
    [nextStartTime += duration] can take: three times [2^-53]. *)
Definition rounding : Q := 3 # 9007199254740992.

(** Every node is in the active set once and was created before the next
    one. *)
Definition nodes_ok (l : list AudioBufferSourceNode) (w : Q) (n : nat)
    : Prop :=
  NoDup (map node l) /\ Forall (fun u => (node u < n)%nat) l.

(** A unit starts no later than [t] and outlasts [t] by no more than
    rounding. *)
Definition before (u : AudioBufferSourceNode) (t : Q) : Prop :=
  (startTime u <= t)%Q /\ (unit_end u - t <= rounding * unit_end u)%Q.

(** What the active set and the watermark keep: the watermark is a double
    and not negative, units in the order they were scheduled start in that
    order and overlap by no more than rounding, and none outlasts the
    watermark by more. *)
Definition scheduled_ok (l : list AudioBufferSourceNode) (w : Q) (n : nat)
    : Prop :=
  is_double w /\ (0 <= w)%Q
  /\ ForallOrdPairs (fun u v => before u (startTime v)) l
  /\ Forall (fun u => before u w) l.

(** The watermark is a double and not below [w0]. *)
Definition raised (w0 : Q) (l : list AudioBufferSourceNode) (w : Q) (n : nat)
    : Prop :=
  is_double w /\ (w0 <= w)%Q.

(** The time a payload plays for, nothing when it does not decode. *)
Definition chunk_duration (base64 : string) : Q :=
  match decodeAudioData base64 with
  | Ok buf => duration buf
  | Throw _ => 0%Q
  end.

Definition total_duration (chunks : list (string * Q)) : Q :=
  fold_right (fun c acc => (chunk_duration (fst c) + acc)%Q) 0%Q chunks.

(** Inbound audio messages, each with the clock reading at its arrival. *)
Definition chunk_events (chunks : list (string * Q)) : list Event :=
  map (fun c => ChannelMessage (audio_message (fst c)) (snd c)) chunks.

(** The watermark [w] advanced by the duration of a payload, as
    [nextStartTime += audioBuffer.duration] does it. *)
Definition advance (w : Q) (base64 : string) : Q :=
  double (w + double (chunk_duration base64)).

(** The watermark after a burst of chunks, and the watermarks the chunks
    find. *)
Fixpoint burst (w : Q) (chunks : list (string * Q)) : Q :=
  match chunks with
  | [] => w
  | c :: r => burst (advance w (fst c)) r
  end.

Fixpoint burst_starts (w : Q) (chunks : list (string * Q)) : list Q :=
  match chunks with
  | [] => []
  | c :: r => w :: burst_starts (advance w (fst c)) r
  end.

(** Every chunk of a burst arrives while the output clock has not passed
    the watermark of that moment. *)
Fixpoint in_time (w : Q) (chunks : list (string * Q)) : Prop :=
  match chunks with
  | [] => True
  | c :: r => (snd c <= w)%Q /\ in_time (advance w (fst c)) r
  end.

(** The screen updates made in a trace. *)
Fixpoint screen_updates (es : list Effect)
    : list (option string * option string) :=
  match es with
  | [] => []
  | ScreenUpdate t c :: r => (t, c) :: screen_updates r
  | _ :: r => screen_updates r
  end.

(** ** [services/geminiService.ts]

    A text (a query, a keyword) is a [string]; the functions below only
    concatenate texts and test them for emptiness, which does not depend on
    the alphabet. *)

Module GeminiService.

Definition newline : string := String "010" "".

(** The truth value of an optional text: [undefined] and the empty text are
    falsy. *)
Definition truthy (v : option string) : bool :=
  match v with
  | Some t => negb (String.eqb t "")
  | None => false
  end.

(** [v || d] *)
Definition or_default (v : option string) (d : string) : string :=
  match v with
  | Some t => if String.eqb t "" then d else t
  | None => d
  end.

(** [SearchOptions] of [types.ts]; [end] is written [end_]. *)
Record DateRange : Type := {
  start : option string;
  end_ : option string
}.

Inductive SortBy : Type := relevance | date.

Record SearchOptions : Type := {
  dateRange : option DateRange;
  pubType : option string;
  excludeKeywords : option string;
  sortBy : option SortBy
}.

(** [options.dateRange?.start] and [options.dateRange?.end] *)
Definition range_start (options : SearchOptions) : option string :=
  match dateRange options with Some r => start r | None => None end.
Definition range_end (options : SearchOptions) : option string :=
  match dateRange options with Some r => end_ r | None => None end.

(** The [constraints] array of [searchResearch] (source lines 22-34). *)
Definition constraints (options : SearchOptions) : list string :=
  (if truthy (range_start options) || truthy (range_end options)
   then [("Timeframe: " ++ or_default (range_start options) "any"
          ++ " to " ++ or_default (range_end options) "present")%string]
   else [])
  ++ (if truthy (pubType options)
         && negb (String.eqb (or_default (pubType options) "") "All")
      then [("Source Type Focus: " ++ or_default (pubType options) "")%string]
      else [])
  ++ (if truthy (excludeKeywords options)
      then [("Exclude keywords: " ++ or_default (excludeKeywords options) "")%string]
      else [])
  ++ match sortBy options with
     | Some date =>
         ["Sort Requirement: Present results in reverse chronological order (newest first)."%string]
     | _ => []
     end.

(** [augmentedQuery] of [searchResearch] (source lines 20-39). *)
Definition augmentedQuery (query : string) (options : option SearchOptions)
    : string :=
  match options with
  | None => query
  | Some o =>
      match constraints o with
      | [] => query
      | cs =>
          (query ++ newline ++ newline ++ "Constraints & Preferences:"
           ++ newline ++ "- " ++ String.concat (newline ++ "- ") cs)%string
      end
  end.

(** The end of [generateSpeech] (source lines 236-250): [response] is what
    the model call gave, the inline audio of its first part or a throw;
    the result is the bytes of the audio, or [null], with what was written
    to [console.error]. *)
Definition generateSpeech (response : result (option string))
    : option (list Z) * list string :=
  match response with
  | Throw _ => (None, ["TTS Error:"%string])
  | Ok base64Audio =>
      if truthy base64Audio then
        match atob (or_default base64Audio "") with
        | Ok binaryString =>
            (Some (map charCodeAt (list_ascii_of_string binaryString)), [])
        | Throw _ => (None, ["TTS Error:"%string])
        end
      else (None, [])
  end.

End GeminiService.

(** ** [components/ResearchAssistant.tsx]

    A title is a sequence of UTF-16 code units, each an [N]: the regular
    expressions of the citation key test single code units. *)

Module ResearchAssistant.

Record SavedSearch : Type := {
  id : string;
  query : string;
  options : GeminiService.SearchOptions;
  timestamp : N
}.

(** [Date.now().toString()] for the clock reading [now], in milliseconds. *)
Definition toString (now : N) : string :=
  NilEmpty.string_of_uint (N.to_uint now).

(** [saveSearch] (source lines 401-413): the list it sets as state and
    stores; nothing is done for an empty query. *)
Definition saveSearch (now : N) (query : string)
    (searchOptions : GeminiService.SearchOptions)
    (savedSearches : list SavedSearch) : list SavedSearch :=
  if String.eqb query "" then savedSearches
  else {| id := toString now; query := query; options := searchOptions;
          timestamp := now |} :: savedSearches.

(** [deleteSearch] (source lines 421-426): the list it sets as state and
    stores. *)
Definition deleteSearch (i : string) (savedSearches : list SavedSearch)
    : list SavedSearch :=
  filter (fun s => negb (String.eqb (id s) i)) savedSearches.

Definition code_units (s : string) : list N :=
  map N_of_ascii (list_ascii_of_string s).

(** The class [\s]: the white space and line terminators of ECMAScript. *)
Definition is_space (c : N) : bool :=
  ((9 <=? c) && (c <=? 13) || (c =? 32) || (c =? 160) || (c =? 5760)
   || (8192 <=? c) && (c <=? 8202) || (c =? 8232) || (c =? 8233)
   || (c =? 8239) || (c =? 8287) || (c =? 12288) || (c =? 65279))%N.

Definition is_alnum (c : N) : bool :=
  ((48 <=? c) && (c <=? 57) || (65 <=? c) && (c <=? 90)
   || (97 <=? c) && (c <=? 122))%N.

(** The class [[a-zA-Z0-9_]]. *)
Definition is_word (c : N) : bool := is_alnum c || (c =? 95)%N.

(** [.replace(/\s+/g, '_')]: every maximal run of white space becomes one
    underscore; [in_run] tells that the previous unit was white space. *)
Fixpoint replace_space_runs (in_run : bool) (l : list N) : list N :=
  match l with
  | [] => []
  | c :: r =>
      if is_space c then
        if in_run then replace_space_runs true r
        else 95%N :: replace_space_runs true r
      else c :: replace_space_runs false r
  end.

(** The identifier of entry [i] in the BibTeX export (source line 437). *)
Definition citation_id (i : nat) (title : list N) : list N :=
  let t := match title with [] => code_units "unknown" | _ => title end in
  code_units "citation_"
  ++ code_units (NilEmpty.string_of_uint (Nat.to_uint i))
  ++ [95%N]
  ++ filter is_word (replace_space_runs false t).

End ResearchAssistant.

(* ================================================================== *)
(** * Properties *)

(** ** Base64: [atob] inverts [btoa] *)

(** Linear arithmetic with division and remainder by constants. *)
Ltac zdm := cbv beta in *; Z.div_mod_to_equations; lia.

(** Take the head of a [Forall] hypothesis apart. *)
Ltac bytes_of_Forall H :=
  match type of H with
  | Forall _ (_ :: _) =>
      let Hh := fresh "Hbyte" in
      let Ht := fresh "Hrest" in
      pose proof (Forall_inv H) as Hh; pose proof (Forall_inv_tail H) as Ht;
      clear H; rename Ht into H; cbv beta in Hh
  end.

Section Base64Facts.

Lemma list_ind3 (A : Type) (P : list A -> Prop) :
  P [] -> (forall a, P [a]) -> (forall a b, P [a; b]) ->
  (forall a b c rest, P rest -> P (a :: b :: c :: rest)) ->
  forall l, P l.
Proof.
  intros H0 H1 H2 H3.
  fix IH 1.
  intros [|a [|b [|c rest]]];
    [exact H0 | exact (H1 a) | exact (H2 a b) | exact (H3 a b c rest (IH rest))].
Qed.

Lemma sextet_ok_all : forall n, is_sextet n -> sextet_ok n = true.
Proof.
  intros n Hn.
  assert (H : forallb (fun k => sextet_ok (Z.of_nat k)) (seq 0 64) = true)
    by (vm_compute; reflexivity).
  rewrite forallb_forall in H.
  specialize (H (Z.to_nat n)).
  rewrite Z2Nat.id in H by (destruct Hn; assumption).
  apply H. apply in_seq. unfold is_sextet in Hn. lia.
Qed.

Lemma index_of_char_of : forall n, is_sextet n -> index_of (char_of n) = Some n.
Proof.
  intros n Hn. pose proof (sextet_ok_all n Hn) as H.
  unfold sextet_ok in H.
  apply andb_prop in H. destruct H as [H _].
  apply andb_prop in H. destruct H as [H _].
  destruct (index_of (char_of n)) as [m|]; [|discriminate].
  apply Z.eqb_eq in H. congruence.
Qed.

Lemma char_of_not_whitespace :
  forall n, is_sextet n -> is_whitespace (char_of n) = false.
Proof.
  intros n Hn. pose proof (sextet_ok_all n Hn) as H.
  unfold sextet_ok in H.
  apply andb_prop in H. destruct H as [H _].
  apply andb_prop in H. destruct H as [_ H].
  now apply negb_true_iff in H.
Qed.

Lemma char_of_not_pad :
  forall n, is_sextet n -> Ascii.eqb (char_of n) pad = false.
Proof.
  intros n Hn. pose proof (sextet_ok_all n Hn) as H.
  unfold sextet_ok in H.
  apply andb_prop in H. destruct H as [_ H].
  now apply negb_true_iff in H.
Qed.

Lemma encode_bytes_split :
  forall bs, encode_bytes bs = map char_of (sextets_of bs) ++ padding_of bs.
Proof.
  induction bs as [| a | a b | a b c rest IH] using list_ind3;
    try reflexivity.
  cbn [encode_bytes sextets_of padding_of map app]. now rewrite IH.
Qed.

Lemma sextets_of_range :
  forall bs, Forall is_byte bs -> Forall is_sextet (sextets_of bs).
Proof.
  unfold is_byte, is_sextet.
  induction bs as [| a | a b | a b c rest IH] using list_ind3; intros H;
    cbn [sextets_of]; repeat bytes_of_Forall H;
    repeat (apply Forall_cons; [zdm|]); auto.
Qed.

Lemma decode_sextets_of :
  forall bs, Forall is_byte bs -> decode_sextets (sextets_of bs) = bs.
Proof.
  unfold is_byte.
  induction bs as [| a | a b | a b c rest IH] using list_ind3; intros H;
    cbn [sextets_of decode_sextets]; repeat bytes_of_Forall H;
    try rewrite IH by assumption;
    repeat (f_equal; try zdm).
Qed.

Lemma sextets_map_char_of :
  forall l, Forall is_sextet l -> sextets (map char_of l) = Some l.
Proof.
  induction 1 as [|n l Hn _ IH]; cbn [map sextets]; [reflexivity|].
  now rewrite (index_of_char_of n Hn), IH.
Qed.

Lemma padding_of_no_whitespace :
  forall bs, filter (fun c => negb (is_whitespace c)) (padding_of bs) = padding_of bs.
Proof.
  induction bs as [| a | a b | a b c rest IH] using list_ind3;
    try reflexivity.
  exact IH.
Qed.

Lemma chars_no_whitespace :
  forall l, Forall is_sextet l ->
    filter (fun c => negb (is_whitespace c)) (map char_of l) = map char_of l.
Proof.
  induction 1 as [|n l Hn _ IH]; cbn [map filter]; [reflexivity|].
  now rewrite (char_of_not_whitespace n Hn), IH.
Qed.

Lemma encode_bytes_no_whitespace :
  forall bs, Forall is_byte bs ->
    filter (fun c => negb (is_whitespace c)) (encode_bytes bs) = encode_bytes bs.
Proof.
  intros bs H. rewrite encode_bytes_split, filter_app.
  rewrite chars_no_whitespace by now apply sextets_of_range.
  now rewrite padding_of_no_whitespace.
Qed.

Lemma encode_bytes_length :
  forall bs, exists k, List.length (encode_bytes bs) = (4 * k)%nat.
Proof.
  induction bs as [| a | a b | a b c rest [k IH]] using list_ind3.
  - now exists O.
  - now exists 1%nat.
  - now exists 1%nat.
  - exists (S k). cbn [encode_bytes List.length]. rewrite IH. lia.
Qed.

Lemma sextets_of_length :
  forall bs, exists k r,
    List.length (sextets_of bs) = (4 * k + r)%nat /\ (r = 0 \/ r = 2 \/ r = 3)%nat.
Proof.
  induction bs as [| a | a b | a b c rest (k & r & IH & Hr)] using list_ind3.
  - exists O, 0%nat. auto.
  - exists O, 2%nat. auto.
  - exists O, 3%nat. auto.
  - exists (S k), r. cbn [sextets_of List.length]. rewrite IH. split; [lia|auto].
Qed.

Lemma mod4_of_sum : forall k r, (r < 4 -> (4 * k + r) mod 4 = r)%nat.
Proof.
  intros k r Hr. rewrite Nat.add_comm, Nat.mul_comm, Nat.Div0.mod_add.
  now apply Nat.mod_small.
Qed.

Lemma strip_padding_same :
  forall l, (forall x r, rev l = x :: r -> Ascii.eqb x pad = false) ->
    strip_padding l = l.
Proof.
  intros l H. unfold strip_padding.
  destruct (Nat.modulo (List.length l) 4 =? 0)%nat; [|reflexivity].
  destruct (rev l) as [|x [|y r]] eqn:E; try reflexivity.
  now rewrite (H x (y :: r) eq_refl).
Qed.

Lemma strip_padding_one :
  forall l x, Ascii.eqb x pad = false ->
    (Nat.modulo (List.length (l ++ [x; pad])) 4 = 0)%nat ->
    strip_padding (l ++ [x; pad]) = l ++ [x].
Proof.
  intros l x Hx Hlen. unfold strip_padding. rewrite Hlen. cbn [Nat.eqb].
  rewrite rev_app_distr. cbn [rev app]. rewrite Ascii.eqb_refl, Hx.
  cbn [rev]. now rewrite rev_involutive.
Qed.

Lemma strip_padding_two :
  forall l, (Nat.modulo (List.length (l ++ [pad; pad])) 4 = 0)%nat ->
    strip_padding (l ++ [pad; pad]) = l.
Proof.
  intros l Hlen. unfold strip_padding. rewrite Hlen. cbn [Nat.eqb].
  rewrite rev_app_distr. cbn [rev app]. rewrite Ascii.eqb_refl.
  apply rev_involutive.
Qed.

(** The padding is empty, one [=] after a last group of three characters,
    or two [=]. *)
Lemma padding_of_cases :
  forall bs,
    padding_of bs = []
    \/ (padding_of bs = [pad] /\ exists l x, sextets_of bs = l ++ [x])
    \/ padding_of bs = [pad; pad].
Proof.
  induction bs as [| a | a b | a b c rest IH] using list_ind3.
  - now left.
  - now right; right.
  - right; left. split; [reflexivity|].
    now exists [a / 4; a mod 4 * 16 + b / 16], (b mod 16 * 4).
  - cbn [padding_of sextets_of].
    destruct IH as [IH | [[IH (l & x & E)] | IH]]; auto.
    right; left. split; [assumption|]. rewrite E.
    now exists (a / 4 :: (a mod 4 * 16 + b / 16) :: (b mod 16 * 4 + c / 64)
                :: c mod 64 :: l), x.
Qed.

Lemma strip_padding_encode_bytes :
  forall bs, Forall is_byte bs ->
    strip_padding (encode_bytes bs) = map char_of (sextets_of bs).
Proof.
  intros bs Hbs.
  pose proof (sextets_of_range bs Hbs) as Hrange.
  assert (Hlen : (Nat.modulo (List.length (encode_bytes bs)) 4 = 0)%nat).
  { destruct (encode_bytes_length bs) as [k ->].
    now rewrite Nat.mul_comm, Nat.Div0.mod_mul. }
  rewrite encode_bytes_split in *.
  destruct (padding_of_cases bs) as [E | [[E (l & x & El)] | E]];
    rewrite E in *.
  - rewrite app_nil_r. apply strip_padding_same.
    intros x r Hrev.
    assert (Hin : In x (map char_of (sextets_of bs))).
    { apply in_rev. rewrite Hrev. now left. }
    apply in_map_iff in Hin. destruct Hin as (n & <- & Hn).
    apply char_of_not_pad. rewrite Forall_forall in Hrange. auto.
  - rewrite El in *. rewrite map_app in *. cbn [map] in *.
    rewrite <- app_assoc in *. cbn [app] in *.
    apply strip_padding_one; [|assumption].
    apply char_of_not_pad. rewrite Forall_forall in Hrange.
    apply Hrange, in_or_app. right. now left.
  - now apply strip_padding_two.
Qed.

Lemma charCodeAt_is_byte : forall c, is_byte (charCodeAt c).
Proof.
  intros c. unfold is_byte, charCodeAt.
  pose proof (N_ascii_bounded c). lia.
Qed.

Lemma fromCharCode_charCodeAt : forall c, fromCharCode (charCodeAt c) = c.
Proof.
  intros c. unfold fromCharCode, charCodeAt.
  now rewrite N2Z.id, ascii_N_embedding.
Qed.

Lemma charCodeAt_fromCharCode :
  forall b, is_byte b -> charCodeAt (fromCharCode b) = b.
Proof.
  intros b [H0 H1]. unfold fromCharCode, charCodeAt.
  rewrite N_ascii_embedding by lia. now apply Z2N.id.
Qed.

(** [atob] gives back the bytes that [btoa] encoded. *)
Lemma atob_encode_bytes :
  forall bs, Forall is_byte bs ->
    atob (string_of_list_ascii (encode_bytes bs))
    = Ok (string_of_list_ascii (map fromCharCode bs)).
Proof.
  intros bs Hbs. unfold atob.
  rewrite list_ascii_of_string_of_list_ascii.
  rewrite encode_bytes_no_whitespace by assumption.
  rewrite strip_padding_encode_bytes by assumption.
  rewrite length_map.
  destruct (sextets_of_length bs) as (k & r & -> & Hr).
  rewrite mod4_of_sum by lia.
  replace (r =? 1)%nat with false
    by (symmetry; apply Nat.eqb_neq; lia).
  rewrite sextets_map_char_of by now apply sextets_of_range.
  now rewrite decode_sextets_of.
Qed.

Lemma atob_btoa : forall binary, atob (btoa binary) = Ok binary.
Proof.
  intros binary. unfold btoa.
  rewrite atob_encode_bytes.
  - rewrite map_map.
    rewrite (map_ext _ (fun c => c) fromCharCode_charCodeAt), map_id.
    now rewrite string_of_list_ascii_of_string.
  - apply Forall_forall. intros b Hb. apply in_map_iff in Hb.
    destruct Hb as (c & <- & _). apply charCodeAt_is_byte.
Qed.

End Base64Facts.

(** ** PCM16: quantization, packing and decoding *)

Section PCM.

Lemma ToInt16_is_int16 : forall x, is_int16 (ToInt16 x).
Proof.
  intros x. unfold is_int16, ToInt16.
  destruct (Z.leb_spec 32768 (truncate x mod 65536)); zdm.
Qed.

Lemma ToInt16_truncate :
  forall x, is_int16 (truncate x) -> ToInt16 x = truncate x.
Proof.
  intros x H. unfold is_int16, ToInt16 in *.
  destruct (Z.leb_spec 32768 (truncate x mod 65536)); zdm.
Qed.

(** Truncation rounds toward zero and moves a number by less than one. *)
Lemma truncate_spec :
  forall x : Q,
    ((0 <= x -> inject_Z (truncate x) <= x /\ x < inject_Z (truncate x) + 1)
     /\ (x <= 0 -> inject_Z (truncate x) - 1 < x /\ x <= inject_Z (truncate x)))%Q.
Proof.
  intros [n d]. unfold truncate, Qle, Qlt. cbn.
  pose proof (Z.quot_rem' n (Z.pos d)) as E.
  pose proof (Z.rem_bound_pos n (Z.pos d)) as Hpos.
  pose proof (Z.rem_bound_pos_neg n (Z.pos d)) as Hneg.
  remember (n ÷ Z.pos d) as q eqn:Eq. remember (Z.rem n (Z.pos d)) as r eqn:Er.
  clear Eq Er.
  split; intros Hn; nia.
Qed.

Lemma truncate_scaled_is_int16 :
  forall s : Q, (-1 <= s)%Q -> (s < 1)%Q -> is_int16 (truncate (s * 32768)).
Proof.
  intros s Hlo Hhi. unfold is_int16.
  destruct (truncate_spec (s * 32768)) as [Hpos Hneg].
  destruct (Qlt_le_dec s 0) as [Hs | Hs].
  - destruct Hneg as [H1 H2]; [lra|].
    assert (H3 : (inject_Z (-32769) < inject_Z (truncate (s * 32768)))%Q).
    { change (inject_Z (-32769)) with (-32769 # 1). lra. }
    assert (H4 : (inject_Z (truncate (s * 32768)) < inject_Z 1)%Q).
    { change (inject_Z 1) with (1 # 1). lra. }
    rewrite <- Zlt_Qlt in H3, H4. lia.
  - destruct Hpos as [H1 H2]; [lra|].
    assert (H3 : (inject_Z (-1) < inject_Z (truncate (s * 32768)))%Q).
    { change (inject_Z (-1)) with (-1 # 1). lra. }
    assert (H4 : (inject_Z (truncate (s * 32768)) < inject_Z 32768)%Q).
    { change (inject_Z 32768) with (32768 # 1). lra. }
    rewrite <- Zlt_Qlt in H3, H4. lia.
Qed.

Lemma int16_of_bytes_of_int16 :
  forall v, is_int16 v ->
    int16_of_bytes (v mod 65536 mod 256) (v mod 65536 / 256) = v.
Proof.
  intros v H. unfold is_int16, int16_of_bytes in *.
  destruct (Z.leb_spec 32768 (v mod 65536 mod 256 + 256 * (v mod 65536 / 256)));
    zdm.
Qed.

Lemma bytes_of_int16_are_bytes : forall v, Forall is_byte (bytes_of_int16 v).
Proof.
  intros v. unfold bytes_of_int16, is_byte.
  repeat (apply Forall_cons; [zdm|]). constructor.
Qed.

Lemma Uint8Array_of_are_bytes : forall vs, Forall is_byte (Uint8Array_of vs).
Proof.
  intros vs. unfold Uint8Array_of. apply Forall_flat_map.
  apply Forall_forall. intros v _. apply bytes_of_int16_are_bytes.
Qed.

Lemma Int16Array_of_Uint8Array_of :
  forall vs, Forall is_int16 vs -> Int16Array_of (Uint8Array_of vs) = Ok vs.
Proof.
  induction 1 as [|v vs Hv _ IH]; [reflexivity|].
  cbn [Uint8Array_of flat_map bytes_of_int16 app Int16Array_of].
  fold (Uint8Array_of vs). rewrite IH. cbn [bind].
  now rewrite int16_of_bytes_of_int16.
Qed.

(** The bytes of element [i] sit at offsets [2 i] and [2 i + 1], low byte
    first. *)
Lemma Uint8Array_of_nth :
  forall vs i v, nth_error vs i = Some v ->
    nth_error (Uint8Array_of vs) (2 * i) = Some (v mod 65536 mod 256)
    /\ nth_error (Uint8Array_of vs) (2 * i + 1) = Some (v mod 65536 / 256).
Proof.
  induction vs as [|w vs IH]; intros [|i] v H; try discriminate.
  - injection H as ->. now split.
  - cbn [nth_error] in H. destruct (IH i v H) as [H1 H2].
    replace (2 * S i)%nat with (S (S (2 * i))) by lia.
    replace (S (S (2 * i)) + 1)%nat with (S (S (2 * i + 1))) by lia.
    now split.
Qed.

Lemma bytes_of_binary :
  forall bs, Forall is_byte bs ->
    map charCodeAt
      (list_ascii_of_string (string_of_list_ascii (map fromCharCode bs))) = bs.
Proof.
  intros bs H. rewrite list_ascii_of_string_of_list_ascii, map_map.
  induction H as [|b bs Hb _ IH]; [reflexivity|].
  cbn [map]. now rewrite IH, charCodeAt_fromCharCode.
Qed.

Lemma atob_encode :
  forall bs, Forall is_byte bs ->
    atob (encode bs) = Ok (string_of_list_ascii (map fromCharCode bs)).
Proof.
  intros bs H. unfold encode. apply atob_btoa.
Qed.

Lemma list_ind2 (A : Type) (P : list A -> Prop) :
  P [] -> (forall a, P [a]) -> (forall a b rest, P rest -> P (a :: b :: rest)) ->
  forall l, P l.
Proof.
  intros H0 H1 H2.
  fix IH 1.
  intros [|a [|b rest]];
    [exact H0 | exact (H1 a) | exact (H2 a b rest (IH rest))].
Qed.

Lemma int16_of_bytes_is_int16 :
  forall lo hi, is_byte lo -> is_byte hi -> is_int16 (int16_of_bytes lo hi).
Proof.
  unfold is_byte, is_int16, int16_of_bytes. intros lo hi Hlo Hhi.
  destruct (Z.leb_spec 32768 (lo + 256 * hi)); lia.
Qed.

(** A view over an even number of bytes has half as many elements, each
    a signed 16-bit value. *)
Lemma Int16Array_of_even :
  forall bytes, Forall is_byte bytes -> Nat.even (List.length bytes) = true ->
    exists dataInt16,
      Int16Array_of bytes = Ok dataInt16
      /\ Forall is_int16 dataInt16
      /\ (2 * List.length dataInt16 = List.length bytes)%nat.
Proof.
  induction bytes as [| a | lo hi rest IH] using list_ind2; intros Hb Hev.
  - exists []. repeat split; constructor.
  - discriminate.
  - repeat bytes_of_Forall Hb.
    destruct (IH Hb Hev) as (l & E & Hl & Hlen).
    exists (int16_of_bytes lo hi :: l). cbn [Int16Array_of]. rewrite E.
    repeat split.
    + constructor; [now apply int16_of_bytes_is_int16 | assumption].
    + cbn [List.length]. lia.
Qed.

Lemma Int16Array_of_odd :
  forall bytes, Nat.even (List.length bytes) = false ->
    Int16Array_of bytes = Throw RangeError.
Proof.
  induction bytes as [| a | lo hi rest IH] using list_ind2; intros Hev.
  - discriminate.
  - reflexivity.
  - cbn [Int16Array_of]. now rewrite (IH Hev).
Qed.

Lemma pcm_range : forall v, is_int16 v -> (-1 <= pcm v)%Q /\ (pcm v < 1)%Q.
Proof.
  intros v [H0 H1]. unfold pcm, Qdiv, Qmult, Qinv, Qle, Qlt, inject_Z.
  cbn. lia.
Qed.

Lemma length_list_ascii_of_string :
  forall s, List.length (list_ascii_of_string s) = String.length s.
Proof.
  induction s as [|c s IH]; cbn; [reflexivity | now rewrite IH].
Qed.

(** What [decodeAudioData] returns on what [createBlob] produced. *)
Lemma decodeAudioData_createBlob :
  forall samples,
    decodeAudioData (data (createBlob samples))
    = match samples with
      | [] => Throw NotSupportedError
      | _ => Ok {| sampleRate := 24000; channelData := map roundtrip samples |}
      end.
Proof.
  intros samples. unfold decodeAudioData, createBlob. cbn [data].
  rewrite atob_encode by apply Uint8Array_of_are_bytes. cbn [bind].
  rewrite bytes_of_binary by apply Uint8Array_of_are_bytes.
  rewrite Int16Array_of_Uint8Array_of.
  - cbn [bind]. rewrite !length_map, map_map.
    destruct samples; reflexivity.
  - apply Forall_forall. intros v Hv. apply in_map_iff in Hv.
    destruct Hv as (x & <- & _). apply ToInt16_is_int16.
Qed.

(** Truncation loses less than one quantization step. *)
Lemma roundtrip_error :
  forall s : Q, (-1 <= s)%Q -> (s < 1)%Q ->
    (Qabs (s - roundtrip s) < 1 # 32768)%Q.
Proof.
  intros s Hlo Hhi. unfold roundtrip, pcm.
  rewrite ToInt16_truncate by now apply truncate_scaled_is_int16.
  destruct (truncate_spec (s * 32768)) as [Hpos Hneg].
  apply Qabs_Qlt_condition.
  unfold Qdiv. change (/ 32768)%Q with (1 # 32768)%Q.
  destruct (Qlt_le_dec s 0) as [Hs | Hs].
  - destruct Hneg as [H1 H2]; [lra|]. split; lra.
  - destruct Hpos as [H1 H2]; [lra|]. split; lra.
Qed.

End PCM.

(** ** The framer and the decoder against the specification *)

Section Framer.

Lemma Uint8Array_of_length :
  forall vs, List.length (Uint8Array_of vs) = (2 * List.length vs)%nat.
Proof.
  induction vs as [|v vs IH]; [reflexivity|].
  cbn [Uint8Array_of flat_map bytes_of_int16 app List.length].
  fold (Uint8Array_of vs). rewrite IH. lia.
Qed.

(** C2, the claim as stated fails.  At the sample [1.0] the store into the
    [Int16Array] wraps to [-32768] where the specification clamps to
    [32767], so the packet differs from the specified one; at the sample
    [7/131072], which scales to [1.75], the store truncates to [1] where the
    specification rounds to [2]. *)
Lemma createBlob_quantize_counterexample :
  (-1 <= 1)%Q /\ (1 <= 1)%Q
  /\ ToInt16 (1 * 32768) = -32768 /\ spec_quantize 1 = 32767
  /\ data (createBlob [1%Q]) = "AIA="%string
  /\ data (spec_createBlob [1%Q]) = "/38="%string
  /\ (-1 <= 7 # 131072)%Q /\ (7 # 131072 <= 1)%Q
  /\ ToInt16 ((7 # 131072) * 32768) = 1 /\ spec_quantize (7 # 131072) = 2.
Proof.
  repeat split; try reflexivity; unfold Qle; cbn; lia.
Qed.

(** C2, amended.  For every captured frame, each sample [s] with
    [-1 <= s < 1] is quantized to the signed 16-bit integer [q] obtained by
    truncating [s * 32768] toward zero; the packet is tagged
    [audio/pcm;rate=16000], its data is the base64 encoding of a byte string
    that [atob] gives back, twice as long as the frame, in which sample [i]
    occupies bytes [2 i] and [2 i + 1], low byte first, as the two's
    complement of [q]. *)
Theorem createBlob_quantize :
  forall (samples : list Q) (i : nat) (s : Q),
    nth_error samples i = Some s -> (-1 <= s)%Q -> (s < 1)%Q ->
    let q := truncate (s * 32768) in
    exists binary : string,
      mimeType (createBlob samples) = "audio/pcm;rate=16000"%string
      /\ data (createBlob samples) = btoa binary
      /\ atob (data (createBlob samples)) = Ok binary
      /\ String.length binary = (2 * List.length samples)%nat
      /\ is_int16 q
      /\ exists lo hi : Z,
           nth_error (map charCodeAt (list_ascii_of_string binary)) (2 * i)
             = Some lo
           /\ nth_error (map charCodeAt (list_ascii_of_string binary)) (2 * i + 1)
                = Some hi
           /\ is_byte lo /\ is_byte hi
           /\ lo + 256 * hi = q mod 65536.
Proof.
  intros samples i s Hi Hlo Hhi q.
  set (int16 := map (fun x => ToInt16 (x * 32768)%Q) samples).
  exists (string_of_list_ascii (map fromCharCode (Uint8Array_of int16))).
  assert (Hq : is_int16 q) by now apply truncate_scaled_is_int16.
  repeat split; try apply Hq.
  - unfold createBlob. cbn [data]. fold int16.
    now apply atob_encode, Uint8Array_of_are_bytes.
  - rewrite <- length_list_ascii_of_string, list_ascii_of_string_of_list_ascii.
    rewrite length_map, Uint8Array_of_length. unfold int16.
    now rewrite length_map.
  - rewrite bytes_of_binary by apply Uint8Array_of_are_bytes.
    assert (Hn : nth_error int16 i = Some q).
    { unfold int16. rewrite nth_error_map, Hi. cbn [option_map].
      f_equal. now apply ToInt16_truncate. }
    destruct (Uint8Array_of_nth int16 i q Hn) as [H1 H2].
    exists (q mod 65536 mod 256), (q mod 65536 / 256).
    unfold is_byte. repeat split; try assumption; zdm.
Qed.

(** An instance: the frame [-1, 1/2], at its second sample. *)
Lemma createBlob_quantize_witness :
  exists binary : string,
    mimeType (createBlob [(-1)%Q; 1 # 2]) = "audio/pcm;rate=16000"%string
    /\ data (createBlob [(-1)%Q; 1 # 2]) = btoa binary
    /\ atob (data (createBlob [(-1)%Q; 1 # 2])) = Ok binary
    /\ String.length binary = 4%nat
    /\ is_int16 16384
    /\ exists lo hi : Z,
         nth_error (map charCodeAt (list_ascii_of_string binary)) 2 = Some lo
         /\ nth_error (map charCodeAt (list_ascii_of_string binary)) 3 = Some hi
         /\ is_byte lo /\ is_byte hi
         /\ lo + 256 * hi = 16384.
Proof.
  apply (createBlob_quantize [(-1)%Q; 1 # 2] 1 (1 # 2)).
  - reflexivity.
  - unfold Qle; cbn; lia.
  - unfold Qlt; cbn; lia.
Defined.

(** C3, the claim as stated fails.  The sample [1.0] comes back as [-1.0]:
    the error is two, not one quantization step. *)
Lemma roundtrip_counterexample :
  (-1 <= 1)%Q /\ (1 <= 1)%Q
  /\ decodeAudioData (data (createBlob [1%Q]))
     = Ok {| sampleRate := 24000; channelData := [(-32768 # 32768)%Q] |}
  /\ (Qabs (1 - (-32768 # 32768)) == 2)%Q
  /\ ~ (Qabs (1 - (-32768 # 32768)) <= 1 # 32768)%Q.
Proof.
  repeat split; try reflexivity; try (unfold Qle; cbn; lia).
Qed.

(** C3, amended.  For every sequence of samples, encoding it with
    [createBlob] and decoding the packet with [decodeAudioData] yields a
    buffer of as many frames, and every sample [s] with [-1 <= s < 1]
    comes back at its index as a value within one quantization step:
    [|s - r| <= 1/32768] (the error of truncation is in fact below one
    step), the boundary [-1.0] included. *)
Theorem roundtrip_within_step :
  forall (samples : list Q) (i : nat) (s : Q),
    nth_error samples i = Some s -> (-1 <= s)%Q -> (s < 1)%Q ->
    exists (buf : AudioBuffer) (r : Q),
      decodeAudioData (data (createBlob samples)) = Ok buf
      /\ List.length (channelData buf) = List.length samples
      /\ nth_error (channelData buf) i = Some r
      /\ r = roundtrip s
      /\ (Qabs (s - r) <= 1 # 32768)%Q.
Proof.
  intros samples i s Hi Hlo Hhi.
  exists {| sampleRate := 24000; channelData := map roundtrip samples |}.
  exists (roundtrip s). cbn [channelData].
  repeat split.
  - rewrite decodeAudioData_createBlob.
    destruct samples; [destruct i; discriminate | reflexivity].
  - apply length_map.
  - now rewrite nth_error_map, Hi.
  - apply Qlt_le_weak. now apply roundtrip_error.
Qed.

(** An instance: the frame [1/3, -1], at the boundary [-1]. *)
Lemma roundtrip_within_step_witness :
  exists (buf : AudioBuffer) (r : Q),
    decodeAudioData (data (createBlob [(1 # 3)%Q; (-1)%Q])) = Ok buf
    /\ List.length (channelData buf) = 2%nat
    /\ nth_error (channelData buf) 1 = Some r
    /\ r = roundtrip (-1)
    /\ (Qabs (-1 - r) <= 1 # 32768)%Q.
Proof.
  apply (roundtrip_within_step [(1 # 3)%Q; (-1)%Q] 1 (-1)%Q).
  - reflexivity.
  - unfold Qle; cbn; lia.
  - unfold Qlt; cbn; lia.
Defined.

Lemma Int16Array_of_nth :
  forall bytes dataInt16 i lo hi,
    Int16Array_of bytes = Ok dataInt16 ->
    nth_error bytes (2 * i) = Some lo ->
    nth_error bytes (2 * i + 1) = Some hi ->
    nth_error dataInt16 i = Some (int16_of_bytes lo hi).
Proof.
  induction bytes as [| a | a b rest IH] using list_ind2;
    intros l i lo hi E Hlo Hhi.
  - destruct (2 * i)%nat; discriminate.
  - discriminate.
  - cbn [Int16Array_of] in E.
    destruct (Int16Array_of rest) as [r|] eqn:Er; [|discriminate].
    cbn [bind] in E. injection E as <-.
    destruct i as [|i].
    + cbn in Hlo, Hhi. injection Hlo as <-. injection Hhi as <-. reflexivity.
    + replace (2 * S i)%nat with (S (S (2 * i))) in Hlo by lia.
      replace (2 * S i + 1)%nat with (S (S (2 * i + 1))) in Hhi by lia.
      cbn [nth_error] in *. now apply (IH r i lo hi).
Qed.

(** The element of the 16-bit view over two bytes, low byte first, read
    as two's complement. *)
Lemma int16_of_bytes_value :
  forall lo hi, is_byte lo -> is_byte hi ->
    int16_of_bytes lo hi = lo + 256 * hi - (if 128 <=? hi then 65536 else 0).
Proof.
  unfold is_byte, int16_of_bytes. intros lo hi Hlo Hhi.
  destruct (Z.leb_spec 32768 (lo + 256 * hi)), (Z.leb_spec 128 hi); lia.
Qed.

(** C10, the claim as stated fails.  A payload of white space only is
    base64 for no byte at all, an even number of bytes; the decoder produces
    neither a frame count nor a sample for it: [createBuffer] refuses a
    length of zero and [decodeAudioData] throws, which the message handler
    logs. *)
Lemma decodeAudioData_empty_counterexample :
  atob " " = Ok ""%string
  /\ Nat.even (String.length "") = true
  /\ decodeAudioData " " = Throw NotSupportedError
  /\ fst (fst (handleMessage (audio_message " ") 0 0 connected_session))
     = [ConsoleError "Audio Decode Error"].
Proof.
  repeat split.
Qed.

(** C10, amended.  For every inbound payload that [atob] decodes to an
    even number of bytes other than zero, the decoder returns a buffer at
    24000 Hz whose frame count is exactly half the byte count, and the
    sample of frame [i] equals the 16-bit value of the bytes [2 i] and
    [2 i + 1], low byte first and read as two's complement, divided by
    32768; so it lies in [-1, 1). *)
Theorem decodeAudioData_samples :
  forall (base64 binaryString : string),
    atob base64 = Ok binaryString ->
    Nat.even (String.length binaryString) = true ->
    binaryString <> ""%string ->
    exists buf : AudioBuffer,
      decodeAudioData base64 = Ok buf
      /\ sampleRate buf = 24000
      /\ List.length (channelData buf) = Nat.div2 (String.length binaryString)
      /\ (forall x : Q, In x (channelData buf) -> (-1 <= x)%Q /\ (x < 1)%Q)
      /\ forall (i : nat) (lo hi : Z),
           nth_error (map charCodeAt (list_ascii_of_string binaryString)) (2 * i)
           = Some lo ->
           nth_error (map charCodeAt (list_ascii_of_string binaryString))
             (2 * i + 1) = Some hi ->
           exists x : Q,
             nth_error (channelData buf) i = Some x
             /\ (x == inject_Z (lo + 256 * hi
                               - (if 128 <=? hi then 65536 else 0)) / 32768)%Q.
Proof.
  intros base64 binaryString Hatob Heven Hne.
  set (bytes := map charCodeAt (list_ascii_of_string binaryString)).
  assert (Hbytes : Forall is_byte bytes).
  { apply Forall_forall. intros b Hb. apply in_map_iff in Hb.
    destruct Hb as (c & <- & _). apply charCodeAt_is_byte. }
  assert (Hl : List.length bytes = String.length binaryString).
  { unfold bytes. now rewrite length_map, length_list_ascii_of_string. }
  destruct (Int16Array_of_even bytes Hbytes) as (dataInt16 & E & Hrange & Hlen).
  { now rewrite Hl. }
  exists {| sampleRate := 24000; channelData := map pcm dataInt16 |}.
  cbn [sampleRate channelData]. repeat split.
  - unfold decodeAudioData. rewrite Hatob. cbn [bind]. fold bytes. rewrite E.
    cbn [bind]. destruct dataInt16 as [|v l]; [|reflexivity].
    exfalso. apply Hne. cbn [List.length] in Hlen.
    assert (H0 : String.length binaryString = 0%nat) by lia.
    destruct binaryString; [reflexivity | discriminate].
  - rewrite length_map, <- Hl, <- Hlen. symmetry. apply Nat.div2_double.
  - apply in_map_iff in H. destruct H as (v & <- & Hv).
    rewrite Forall_forall in Hrange. now apply pcm_range, Hrange.
  - apply in_map_iff in H. destruct H as (v & <- & Hv).
    rewrite Forall_forall in Hrange. now apply pcm_range, Hrange.
  - intros i lo hi Hlo Hhi.
    exists (pcm (int16_of_bytes lo hi)). split.
    + rewrite nth_error_map.
      now rewrite (Int16Array_of_nth bytes dataInt16 i lo hi E Hlo Hhi).
    + rewrite Forall_forall in Hbytes.
      rewrite int16_of_bytes_value;
        [reflexivity | apply Hbytes | apply Hbytes];
        eapply nth_error_In; eassumption.
Qed.

(** An instance: the payload [AIA=], the bytes 00 80. *)
Lemma decodeAudioData_samples_witness :
  exists buf : AudioBuffer,
    decodeAudioData "AIA=" = Ok buf
    /\ sampleRate buf = 24000
    /\ List.length (channelData buf) = 1%nat
    /\ (forall x : Q, In x (channelData buf) -> (-1 <= x)%Q /\ (x < 1)%Q)
    /\ forall (i : nat) (lo hi : Z),
         nth_error [0; 128] (2 * i) = Some lo ->
         nth_error [0; 128] (2 * i + 1) = Some hi ->
         exists x : Q,
           nth_error (channelData buf) i = Some x
           /\ (x == inject_Z (lo + 256 * hi
                             - (if 128 <=? hi then 65536 else 0)) / 32768)%Q.
Proof.
  apply (decodeAudioData_samples "AIA=" (String "000" (String "128" ""))).
  - reflexivity.
  - reflexivity.
  - discriminate.
Defined.

End Framer.

(** ** Double precision: [double] rounds to the nearest double *)

Section Doubles.

Local Open Scope Q_scope.

Lemma two_neq_0 : ~ 2 == 0.
Proof. discriminate. Qed.

Lemma pow2_pos : forall e, 0 < pow2 e.
Proof. intros e. apply Qpower_0_lt. reflexivity. Qed.

Lemma pow2_add : forall a b, pow2 (a + b) == pow2 a * pow2 b.
Proof. intros a b. apply Qpower_plus. exact two_neq_0. Qed.

Lemma pow2_le : forall a b, (a <= b)%Z -> pow2 a <= pow2 b.
Proof. intros a b H. apply Qpower_le_compat_l; [assumption | discriminate]. Qed.

Lemma pow2_lt : forall a b, (a < b)%Z -> pow2 a < pow2 b.
Proof. intros a b H. apply Qpower_lt_compat_l; [assumption | reflexivity]. Qed.

Lemma pow2_le_inv : forall a b, pow2 a <= pow2 b -> (a <= b)%Z.
Proof. intros a b H. apply (Qpower_le_compat_l_inv 2); [assumption | reflexivity]. Qed.

Lemma pow2_Z : forall e, (0 <= e)%Z -> pow2 e == inject_Z (2 ^ e).
Proof. intros e H. unfold pow2. now rewrite Zpower_Qpower. Qed.

Lemma pow2_succ : forall e, pow2 (e + 1) == 2 * pow2 e.
Proof. intros e. rewrite pow2_add. change (pow2 1) with 2. ring. Qed.

(** Division by a power of two is multiplication by the opposite power. *)
Lemma div_pow2 : forall x e, x / pow2 e == x * pow2 (- e).
Proof.
  intros x e. unfold Qdiv. apply Qmult_comp; [reflexivity|].
  unfold pow2. now rewrite Qpower_opp.
Qed.

Lemma pow2_cancel : forall a b, pow2 a * pow2 (b - a) == pow2 b.
Proof. intros a b. rewrite <- pow2_add. now replace (a + (b - a))%Z with b by lia. Qed.

(** *** The exponent of a positive number *)

Lemma exponent_spec :
  forall a, 0 < a -> pow2 (exponent a) <= a /\ a < pow2 (exponent a + 1).
Proof.
  intros [n d] Ha. unfold exponent. cbn [Qnum Qden].
  assert (Hn : (0 < n)%Z) by (unfold Qlt in Ha; cbn in Ha; lia).
  set (p := Z.log2 n). set (q := Z.log2 (Z.pos d)).
  destruct (Z.log2_spec n Hn) as [Hn1 Hn2].
  destruct (Z.log2_spec (Z.pos d) (Pos2Z.is_pos d)) as [Hd1 Hd2].
  fold p in Hn1, Hn2. fold q in Hd1, Hd2.
  assert (Hp : (0 <= p)%Z) by apply Z.log2_nonneg.
  assert (Hq : (0 <= q)%Z) by apply Z.log2_nonneg.
  assert (En : n # d == inject_Z n / inject_Z (Z.pos d)) by apply Qmake_Qdiv.
  assert (Hdpos : 0 < inject_Z (Z.pos d)) by reflexivity.
  (* n / d lies strictly between 2^(p-q-1) and 2^(p-q+1) *)
  assert (Hlo : pow2 (p - q - 1) < n # d).
  { rewrite En. apply Qlt_shift_div_l; [assumption|].
    apply Qlt_le_trans with (pow2 (p - q - 1) * pow2 (q + 1)).
    - apply Qmult_lt_l; [apply pow2_pos|].
      rewrite pow2_Z by lia. rewrite <- Zlt_Qlt.
      now rewrite <- Z.add_1_r in Hd2.
    - rewrite <- pow2_add. replace (p - q - 1 + (q + 1))%Z with p by lia.
      rewrite pow2_Z by lia. now rewrite <- Zle_Qle. }
  assert (Hhi : n # d < pow2 (p - q + 1)).
  { rewrite En. apply Qlt_shift_div_r; [assumption|].
    apply Qlt_le_trans with (pow2 (p - q + 1) * pow2 q).
    - rewrite <- pow2_add. replace (p - q + 1 + q)%Z with (p + 1)%Z by lia.
      rewrite pow2_Z by lia. rewrite <- Zlt_Qlt.
      now rewrite <- Z.add_1_r in Hn2.
    - apply Qmult_le_l; [apply pow2_pos|].
      rewrite pow2_Z by lia. now rewrite <- Zle_Qle. }
  destruct (Qle_bool (pow2 (p - q)) (n # d)) eqn:E.
  - apply Qle_bool_iff in E. split; assumption.
  - replace (p - q - 1 + 1)%Z with (p - q)%Z by lia. split.
    + now apply Qlt_le_weak.
    + apply Qnot_le_lt. intros H. apply Qle_bool_iff in H. congruence.
Qed.

Lemma exponent_unique :
  forall a e, pow2 e <= a -> a < pow2 (e + 1) -> exponent a = e.
Proof.
  intros a e H1 H2.
  assert (Ha : 0 < a) by (apply Qlt_le_trans with (pow2 e); [apply pow2_pos | assumption]).
  destruct (exponent_spec a Ha) as [H3 H4].
  assert (A : (exponent a < e + 1)%Z).
  { apply Z.nle_gt. intros H. apply pow2_le in H.
    apply (Qlt_irrefl a). apply Qlt_le_trans with (pow2 (e + 1)); [assumption|].
    now apply Qle_trans with (pow2 (exponent a)). }
  assert (B : (e < exponent a + 1)%Z).
  { apply Z.nle_gt. intros H. apply pow2_le in H.
    apply (Qlt_irrefl a). apply Qlt_le_trans with (pow2 (exponent a + 1)); [assumption|].
    now apply Qle_trans with (pow2 e). }
  lia.
Qed.

Lemma exponent_comp :
  forall a b, 0 < a -> a == b -> exponent a = exponent b.
Proof.
  intros a b Ha E. symmetry. destruct (exponent_spec a Ha) as [H1 H2].
  apply exponent_unique; now rewrite <- E.
Qed.

Lemma exponent_mono :
  forall a b, 0 < a -> a <= b -> (exponent a <= exponent b)%Z.
Proof.
  intros a b Ha Hab.
  assert (Hb : 0 < b) by now apply Qlt_le_trans with a.
  destruct (exponent_spec a Ha) as [H1 _].
  destruct (exponent_spec b Hb) as [_ H2].
  assert (H : pow2 (exponent a) < pow2 (exponent b + 1)).
  { apply Qle_lt_trans with a; [assumption|]. now apply Qle_lt_trans with b. }
  apply Z.lt_succ_r. apply Z.nle_gt. intros C. apply pow2_le in C.
  apply (Qlt_irrefl (pow2 (exponent a))).
  now apply Qlt_le_trans with (pow2 (exponent b + 1)).
Qed.

(** *** Rounding to the nearest integer, ties to even *)

Lemma round_half_even_comp :
  forall x y, x == y -> round_half_even x = round_half_even y.
Proof.
  intros x y E. unfold round_half_even.
  rewrite (Qfloor_comp x y E).
  assert (C : (x - inject_Z (Qfloor y) ?= 1 # 2) = (y - inject_Z (Qfloor y) ?= 1 # 2)).
  { apply Qcompare_comp; [|reflexivity]. now rewrite E. }
  now rewrite C.
Qed.

Lemma round_half_even_Z : forall n, round_half_even (inject_Z n) = n.
Proof.
  intros n. unfold round_half_even. rewrite Qfloor_Z.
  destruct (Qcompare_spec (inject_Z n - inject_Z n) (1 # 2)) as [H|H|H].
  - exfalso. assert (inject_Z n - inject_Z n == 0) by ring. rewrite H0 in H. discriminate.
  - reflexivity.
  - exfalso. assert (E : inject_Z n - inject_Z n == 0) by ring. rewrite E in H. discriminate.
Qed.

Lemma round_half_even_bounds :
  forall x, (Qfloor x <= round_half_even x <= Qfloor x + 1)%Z.
Proof.
  intros x. unfold round_half_even.
  destruct (x - inject_Z (Qfloor x) ?= 1 # 2); [destruct (Z.even _)| |]; lia.
Qed.

Lemma round_half_even_mono :
  forall x y, x <= y -> (round_half_even x <= round_half_even y)%Z.
Proof.
  intros x y H. pose proof (Qfloor_resp_le x y H) as Hf.
  pose proof (round_half_even_bounds x) as Bx.
  pose proof (round_half_even_bounds y) as By.
  destruct (Z.eq_dec (Qfloor x) (Qfloor y)) as [E|E]; [|lia].
  unfold round_half_even. rewrite <- E.
  destruct (Qcompare_spec (x - inject_Z (Qfloor x)) (1 # 2)) as [Hx|Hx|Hx];
    destruct (Qcompare_spec (y - inject_Z (Qfloor x)) (1 # 2)) as [Hy|Hy|Hy];
    try (destruct (Z.even (Qfloor x))); try lia; exfalso; lra.
Qed.

Lemma round_half_even_error :
  forall x, Qabs (inject_Z (round_half_even x) - x) <= 1 # 2.
Proof.
  intros x. pose proof (Qfloor_le x) as H1. pose proof (Qlt_floor x) as H2.
  rewrite inject_Z_plus in H2. change (inject_Z 1) with 1 in H2.
  apply Qabs_Qle_condition. unfold round_half_even.
  destruct (Qcompare_spec (x - inject_Z (Qfloor x)) (1 # 2)) as [Hx|Hx|Hx];
    [destruct (Z.even (Qfloor x))| |];
    rewrite ?inject_Z_plus; change (inject_Z 1) with 1; split; lra.
Qed.

Lemma round_half_even_opp :
  forall x, round_half_even (- x) = (- round_half_even x)%Z.
Proof.
  intros x. pose proof (Qfloor_le x) as H1. pose proof (Qlt_floor x) as H2.
  rewrite inject_Z_plus in H2. change (inject_Z 1) with 1 in H2.
  set (f := Qfloor x) in *.
  destruct (Qeq_dec x (inject_Z f)) as [E|E].
  - rewrite (round_half_even_comp x (inject_Z f) E).
    assert (E' : - x == inject_Z (- f)) by (rewrite inject_Z_opp; now rewrite E).
    rewrite (round_half_even_comp _ _ E'). now rewrite !round_half_even_Z.
  - assert (Hlt : inject_Z f < x).
    { apply Qle_lteq in H1. destruct H1 as [H1|H1]; [assumption|].
      exfalso. apply E. now symmetry. }
    assert (Ff : Qfloor (- x) = (- f - 1)%Z).
    { pose proof (Qfloor_le (- x)) as G1. pose proof (Qlt_floor (- x)) as G2.
      rewrite inject_Z_plus in G2. change (inject_Z 1) with 1 in G2.
      assert (A : inject_Z (Qfloor (- x)) < inject_Z (- f)) by (rewrite inject_Z_opp; lra).
      assert (B : inject_Z (- f - 1) < inject_Z (Qfloor (- x) + 1)).
      { rewrite inject_Z_plus. unfold Z.sub. rewrite inject_Z_plus, inject_Z_opp.
        change (inject_Z 1) with 1. change (inject_Z (- (1))) with (- (1)). lra. }
      rewrite <- Zlt_Qlt in A, B. lia. }
    unfold round_half_even. rewrite Ff. fold f.
    assert (Ev : Z.even (- f - 1) = negb (Z.even f)).
    { replace (- f - 1)%Z with (- (f + 1))%Z by lia.
      rewrite Z.even_opp. replace (f + 1)%Z with (Z.succ f) by lia.
      rewrite Z.even_succ. now rewrite Z.negb_even. }
    assert (I : inject_Z (- f - 1) == - inject_Z f - 1).
    { unfold Z.sub. rewrite inject_Z_plus, inject_Z_opp.
      change (inject_Z (- (1))) with (- (1)). ring. }
    destruct (Qcompare_spec (x - inject_Z f) (1 # 2)) as [Hx|Hx|Hx];
      destruct (Qcompare_spec (- x - inject_Z (- f - 1)) (1 # 2)) as [Hy|Hy|Hy];
      rewrite I in Hy; try (exfalso; lra).
    + rewrite Ev. destruct (Z.even f); cbn [negb]; lia.
    + lia.
    + lia.
Qed.

(** *** The double nearest a number *)

Lemma ulp_pos : forall x, 0 < ulp x.
Proof. intros x. apply pow2_pos. Qed.

Lemma Qabs_pos_lt : forall x, ~ x == 0 -> 0 < Qabs x.
Proof.
  intros x H. apply Qabs_case; intros Hx.
  - apply Qle_lteq in Hx. destruct Hx as [Hx|Hx]; [assumption|].
    exfalso. apply H. now symmetry.
  - apply Qle_lteq in Hx. destruct Hx as [Hx|Hx]; [lra|].
    exfalso. now apply H.
Qed.

Lemma ulp_comp : forall x y, ~ x == 0 -> x == y -> ulp x = ulp y.
Proof.
  intros x y H E. unfold ulp.
  rewrite (exponent_comp (Qabs x) (Qabs y)); [reflexivity | |].
  - now apply Qabs_pos_lt.
  - now apply Qabs_wd.
Qed.

Lemma Qdiv_0_l : forall x u, x == 0 -> x / u == 0.
Proof. intros x u E. unfold Qdiv. rewrite E. ring. Qed.

Lemma Qnum_0 : forall x, Qnum x = 0%Z <-> x == 0.
Proof. intros [n d]. unfold Qeq. cbn. lia. Qed.

Lemma double_eq :
  forall x, double x == inject_Z (round_half_even (x / ulp x)) * ulp x.
Proof.
  intros x. unfold double. destruct (Qnum x) eqn:E.
  - apply Qnum_0 in E.
    assert (E0 : x / ulp x == inject_Z 0) by now apply Qdiv_0_l.
    rewrite (round_half_even_comp _ _ E0), round_half_even_Z.
    change (inject_Z 0) with 0. ring.
  - apply Qred_correct.
  - apply Qred_correct.
Qed.

Lemma double_0 : forall x, x == 0 -> double x == 0.
Proof.
  intros x E. apply Qnum_0 in E. unfold double. now rewrite E.
Qed.

Lemma double_comp : forall x y, x == y -> double x == double y.
Proof.
  intros x y E. destruct (Qeq_dec x 0) as [Z|NZ].
  - rewrite (double_0 x Z). symmetry. apply double_0. now rewrite <- E.
  - rewrite !double_eq. rewrite <- (ulp_comp x y NZ E).
    rewrite (round_half_even_comp (x / ulp x) (y / ulp x)); [reflexivity|].
    unfold Qdiv. apply Qmult_comp; [exact E | reflexivity].
Qed.

Instance double_Proper : Proper (Qeq ==> Qeq) double.
Proof. intros x y E. now apply double_comp. Qed.

Lemma ulp_opp : forall x, ulp (- x) = ulp x.
Proof.
  intros x. unfold ulp. destruct (Qeq_dec x 0) as [Z|NZ].
  - destruct x as [n d]. apply Qnum_0 in Z. cbn in Z. subst n. reflexivity.
  - rewrite (exponent_comp (Qabs (- x)) (Qabs x)); [reflexivity | |].
    + apply Qabs_pos_lt. intros H. apply NZ. lra.
    + apply Qabs_opp.
Qed.

Lemma double_opp : forall x, double (- x) == - double x.
Proof.
  intros x. rewrite !double_eq, ulp_opp.
  assert (E : - x / ulp x == - (x / ulp x)) by (unfold Qdiv; ring).
  rewrite (round_half_even_comp _ _ E), round_half_even_opp, inject_Z_opp. ring.
Qed.

Lemma double_error : forall x, Qabs (double x - x) <= (1 # 2) * ulp x.
Proof.
  intros x. pose proof (ulp_pos x) as Hu.
  assert (E : double x - x
              == (inject_Z (round_half_even (x / ulp x)) - x / ulp x) * ulp x).
  { rewrite double_eq. field. lra. }
  rewrite E, Qabs_Qmult, (Qabs_pos (ulp x)) by lra.
  apply Qmult_le_r; [assumption|]. apply round_half_even_error.
Qed.

(** The scaled value of a number stays below [2^53] in magnitude. *)
Lemma scaled_bound :
  forall x, - inject_Z (2 ^ 53) <= x / ulp x <= inject_Z (2 ^ 53).
Proof.
  intros x. pose proof (ulp_pos x) as Hu.
  destruct (Qeq_dec x 0) as [Z|NZ].
  - assert (E : x / ulp x == 0) by now apply Qdiv_0_l.
    rewrite E. split; discriminate.
  - apply Qabs_Qle_condition.
    assert (E : Qabs (x / ulp x) == Qabs x / ulp x).
    { unfold Qdiv. rewrite Qabs_Qmult. rewrite (Qabs_pos (/ ulp x)); [reflexivity|].
      apply Qlt_le_weak. now apply Qinv_lt_0_compat. }
    rewrite E. apply Qle_shift_div_r; [assumption|].
    destruct (exponent_spec (Qabs x) (Qabs_pos_lt x NZ)) as [_ H].
    apply Qlt_le_weak. apply Qlt_le_trans with (1 := H).
    rewrite <- pow2_Z by lia. unfold ulp. rewrite <- pow2_add.
    apply pow2_le. lia.
Qed.

Lemma significand_bound :
  forall x, (- 2 ^ 53 <= round_half_even (x / ulp x) <= 2 ^ 53)%Z.
Proof.
  intros x. destruct (scaled_bound x) as [H1 H2].
  rewrite <- inject_Z_opp in H1.
  apply round_half_even_mono in H1, H2.
  rewrite round_half_even_Z in H1, H2. lia.
Qed.

(** A significand below [2^53] in magnitude, scaled by an admissible power
    of two, is a double. *)
Lemma is_double_scaled_lt :
  forall n e, (Z.abs n < 2 ^ 53)%Z -> (-1022 <= e)%Z ->
              is_double (inject_Z n * pow2 (e - 52)).
Proof.
  intros n e Hn He. unfold is_double.
  set (x := inject_Z n * pow2 (e - 52)).
  destruct (Z.eq_dec n 0) as [->|NZ].
  { assert (E : x == 0) by (unfold x; change (inject_Z 0) with 0; ring).
    rewrite E. reflexivity. }
  pose proof (pow2_pos (e - 52)) as Hp.
  assert (Hx : ~ x == 0).
  { unfold x. intros H. apply Qmult_integral in H. destruct H as [H|H]; [|lra].
    unfold Qeq in H. cbn in H. lia. }
  assert (Ha : Qabs x == inject_Z (Z.abs n) * pow2 (e - 52)).
  { unfold x. rewrite Qabs_Qmult, (Qabs_pos (pow2 (e - 52))) by lra.
    apply Qmult_comp; [|reflexivity]. unfold Qabs, inject_Z. reflexivity. }
  set (k := exponent (Qabs x)).
  destruct (exponent_spec (Qabs x) (Qabs_pos_lt x Hx)) as [H1 _]. fold k in H1.
  assert (Hk : (k <= e)%Z).
  { apply Z.lt_succ_r. apply Z.nle_gt. intros C. apply pow2_le in C.
    apply (Qlt_irrefl (Qabs x)). apply Qlt_le_trans with (pow2 (Z.succ e)).
    - rewrite Ha. replace (Z.succ e) with (53 + (e - 52))%Z by lia.
      rewrite pow2_add. apply Qmult_lt_r; [assumption|].
      rewrite pow2_Z by lia. now rewrite <- Zlt_Qlt.
    - now apply Qle_trans with (pow2 k). }
  set (e' := Z.max k (-1022)).
  assert (He' : (e' <= e)%Z) by (unfold e'; lia).
  assert (Hu : ulp x = pow2 (e' - 52)) by reflexivity.
  assert (Es : x / ulp x == inject_Z (n * 2 ^ (e - e'))).
  { rewrite Hu, inject_Z_mult, <- pow2_Z by lia. unfold x.
    rewrite div_pow2. rewrite <- Qmult_assoc, <- pow2_add.
    now replace (e - 52 + - (e' - 52))%Z with (e - e')%Z by lia. }
  rewrite double_eq, (round_half_even_comp _ _ Es), round_half_even_Z.
  rewrite Hu, inject_Z_mult, <- pow2_Z by lia. unfold x.
  rewrite <- Qmult_assoc, <- pow2_add.
  now replace (e - e' + (e' - 52))%Z with (e - 52)%Z by lia.
Qed.

Lemma is_double_scaled :
  forall n e, (Z.abs n <= 2 ^ 53)%Z -> (-1022 <= e)%Z ->
              is_double (inject_Z n * pow2 (e - 52)).
Proof.
  intros n e Hn He.
  destruct (Z.eq_dec (Z.abs n) (2 ^ 53)) as [E|E].
  - assert (N : n = (2 * (n / 2))%Z).
    { change (2 ^ 53)%Z with 9007199254740992%Z in E.
      assert (n mod 2 = 0)%Z by (destruct (Z.abs_spec n) as [[_ A]|[_ A]]; rewrite A in E;
        [subst n; reflexivity | replace n with (- 9007199254740992)%Z by lia; reflexivity]).
      pose proof (Z.div_mod n 2). lia. }
    assert (X : inject_Z n * pow2 (e - 52) == inject_Z (n / 2) * pow2 (e + 1 - 52)).
    { rewrite N at 1. rewrite inject_Z_mult.
      replace (e + 1 - 52)%Z with (e - 52 + 1)%Z by lia. rewrite pow2_succ.
      change (inject_Z 2) with 2. ring. }
    unfold is_double. rewrite X. apply is_double_scaled_lt; [|lia].
    change (2 ^ 53)%Z with 9007199254740992%Z in *. lia.
  - apply is_double_scaled_lt; [lia | assumption].
Qed.

(** Rounding is idempotent: the result of [double] is a double. *)
Lemma double_idempotent : forall x, is_double (double x).
Proof.
  intros x. unfold is_double. rewrite (double_eq x) at 2.
  rewrite (double_comp _ _ (double_eq x)).
  apply is_double_scaled; [|unfold ulp; lia].
  pose proof (significand_bound x). lia.
Qed.

Lemma double_nonneg : forall x, 0 <= x -> 0 <= double x.
Proof.
  intros x H. rewrite double_eq. pose proof (ulp_pos x) as Hu.
  apply Qmult_le_0_compat; [|lra].
  change 0 with (inject_Z 0). rewrite <- Zle_Qle.
  rewrite <- (round_half_even_Z 0). apply round_half_even_mono.
  change (inject_Z 0) with 0. apply Qle_shift_div_l; [assumption|]. lra.
Qed.

Lemma ulp_of_pos :
  forall x, 0 < x -> ulp x = pow2 (Z.max (exponent x) (-1022) - 52).
Proof.
  intros x H. unfold ulp. rewrite (exponent_comp (Qabs x) x); [reflexivity| |].
  - apply Qabs_pos_lt. lra.
  - apply Qabs_pos. lra.
Qed.

Lemma double_upper :
  forall x, 0 < x -> double x <= pow2 (Z.max (exponent x) (-1022) + 1).
Proof.
  intros x H. pose proof (ulp_pos x) as Hu.
  rewrite double_eq.
  replace (Z.max (exponent x) (-1022) + 1)%Z
    with (53 + (Z.max (exponent x) (-1022) - 52))%Z by lia.
  rewrite pow2_add, <- ulp_of_pos by assumption.
  apply Qmult_le_r; [assumption|]. rewrite pow2_Z by lia.
  rewrite <- Zle_Qle. apply significand_bound.
Qed.

Lemma double_lower :
  forall x, 0 < x -> (-1022 <= exponent x)%Z -> pow2 (exponent x) <= double x.
Proof.
  intros x H He. pose proof (ulp_pos x) as Hu.
  assert (U : ulp x = pow2 (exponent x - 52)).
  { rewrite ulp_of_pos by assumption. now rewrite Z.max_l by lia. }
  rewrite double_eq.
  replace (exponent x) with (52 + (exponent x - 52))%Z at 1 by lia.
  rewrite pow2_add, <- U. apply Qmult_le_r; [assumption|].
  rewrite pow2_Z by lia. rewrite <- Zle_Qle.
  rewrite <- (round_half_even_Z (2 ^ 52)). apply round_half_even_mono.
  apply Qle_shift_div_l; [assumption|].
  rewrite <- pow2_Z by lia. rewrite U, <- pow2_add.
  replace (52 + (exponent x - 52))%Z with (exponent x) by lia.
  now apply exponent_spec.
Qed.

Lemma double_mono_pos :
  forall x y, 0 < x -> x <= y -> double x <= double y.
Proof.
  intros x y Hx Hxy.
  assert (Hy : 0 < y) by lra.
  pose proof (exponent_mono x y Hx Hxy) as He.
  destruct (Z.eq_dec (Z.max (exponent x) (-1022)) (Z.max (exponent y) (-1022)))
    as [E|E].
  - assert (U : ulp x = ulp y) by (rewrite !ulp_of_pos by assumption; now rewrite E).
    rewrite !double_eq, U. pose proof (ulp_pos y) as Hu.
    apply Qmult_le_r; [assumption|]. rewrite <- Zle_Qle.
    apply round_half_even_mono. unfold Qdiv.
    apply Qmult_le_r; [now apply Qinv_lt_0_compat | assumption].
  - apply Qle_trans with (pow2 (Z.max (exponent x) (-1022) + 1));
      [now apply double_upper|].
    apply Qle_trans with (pow2 (exponent y)); [apply pow2_le; lia|].
    apply double_lower; [assumption | lia].
Qed.

(** Rounding is monotone. *)
Lemma double_mono : forall x y, x <= y -> double x <= double y.
Proof.
  intros x y H.
  destruct (Qlt_le_dec 0 x) as [Hx|Hx].
  - now apply double_mono_pos.
  - destruct (Qlt_le_dec y 0) as [Hy|Hy].
    + assert (A : double (- y) <= double (- x)) by (apply double_mono_pos; lra).
      rewrite !double_opp in A. lra.
    + assert (A : 0 <= double (- x)) by (apply double_nonneg; lra).
      rewrite double_opp in A.
      pose proof (double_nonneg y Hy). lra.
Qed.

(** In the normal range the rounding error is at most [2^-53] of the
    number. *)
Lemma double_relative_error :
  forall x, pow2 (-1022) <= Qabs x ->
            Qabs (double x - x) <= pow2 (-53) * Qabs x.
Proof.
  intros x H.
  assert (Ha : 0 < Qabs x).
  { apply Qlt_le_trans with (pow2 (-1022)); [apply pow2_pos | assumption]. }
  destruct (exponent_spec (Qabs x) Ha) as [H1 H2].
  assert (He : (-1022 <= exponent (Qabs x))%Z).
  { apply Z.lt_succ_r. apply Z.nle_gt. intros C.
    assert (C' : (exponent (Qabs x) + 1 <= -1022)%Z) by lia.
    apply pow2_le in C'. lra. }
  apply Qle_trans with (1 := double_error x).
  unfold ulp. rewrite Z.max_l by assumption.
  replace (exponent (Qabs x) - 52)%Z with (-52 + exponent (Qabs x))%Z by lia.
  rewrite pow2_add.
  assert (E : (1 # 2) * (pow2 (-52) * pow2 (exponent (Qabs x)))
              == pow2 (-53) * pow2 (exponent (Qabs x))).
  { change (pow2 (-52)) with (/ 4503599627370496).
    change (pow2 (-53)) with (/ 9007199254740992). field. }
  rewrite E. apply Qmult_le_l; [apply pow2_pos | assumption].
Qed.

Lemma is_double_max :
  forall x y, is_double x -> is_double y -> is_double (Qmax x y).
Proof.
  intros x y Hx Hy. unfold is_double.
  destruct (Q.max_dec x y) as [E|E]; now rewrite E.
Qed.

(** Advancing a time [t] by the double nearest a duration [d] of at least
    one frame: the result is not before [t] and within [rounding] of the
    exact sum. *)
Lemma double_sum_bounds :
  forall t d,
    is_double t -> 0 <= t -> 1 # 24000 <= d ->
    t <= double (t + double d)
    /\ Qabs (double (t + double d) - (t + d)) <= rounding * (t + d).
Proof.
  intros t d Ht Ht0 Hd.
  pose proof (pow2_pos (-1022)) as Hm.
  assert (Hmin : pow2 (-1022) <= 1 # 24000) by (vm_compute; discriminate).
  assert (Hdd : pow2 (-1022) <= double d).
  { apply Qle_trans with (double (1 # 24000)); [vm_compute; discriminate|].
    now apply double_mono. }
  assert (Hd0 : 0 <= d) by (apply Qle_trans with (1 # 24000); [discriminate | assumption]).
  assert (Hdd0 : 0 <= double d) by now apply double_nonneg.
  assert (Hs0 : 0 <= t + double d).
  { setoid_replace 0 with (0 + 0) by reflexivity. now apply Qplus_le_compat. }
  assert (E1 : Qabs (double d - d) <= (1 # 9007199254740992) * d).
  { pose proof (double_relative_error d) as E. rewrite (Qabs_pos d Hd0) in E.
    apply E. now apply Qle_trans with (1 # 24000). }
  assert (E2 : Qabs (double (t + double d) - (t + double d))
               <= (1 # 9007199254740992) * (t + double d)).
  { pose proof (double_relative_error (t + double d)) as E.
    rewrite (Qabs_pos _ Hs0) in E. apply E.
    apply Qle_trans with (1 := Hdd).
    setoid_replace (double d) with (0 + double d) at 1 by ring.
    apply Qplus_le_compat; [assumption | apply Qle_refl]. }
  clear Hm Hmin Hdd.
  split.
  - unfold is_double in Ht. rewrite <- Ht at 1. apply double_mono. lra.
  - apply Qabs_Qle_condition in E1, E2. unfold rounding.
    apply Qabs_Qle_condition.
    generalize dependent (double (t + double d)). intros r E2.
    generalize dependent (double d). intros dd _ E1 E2.
    split; lra.
Qed.

(** Advancing a double by a duration never goes back. *)
Lemma double_advance_ge :
  forall t d, is_double t -> 0 <= d -> t <= double (t + double d).
Proof.
  intros t d Ht Hd. pose proof (double_nonneg d Hd).
  unfold is_double in Ht. rewrite <- Ht at 1. apply double_mono. lra.
Qed.

End Doubles.

#[export] Existing Instance double_Proper.

(** ** The playback scheduler *)

Section Scheduler.

Lemma decodeAudioData_rate :
  forall base64 buf, decodeAudioData base64 = Ok buf -> sampleRate buf = 24000.
Proof.
  intros base64 buf. unfold decodeAudioData.
  destruct (atob base64) as [bin|]; cbn [bind]; [|discriminate].
  destruct (Int16Array_of _) as [l|]; cbn [bind]; [|discriminate].
  destruct l as [|v l]; cbn; [discriminate|].
  now intros [= <-].
Qed.

Lemma duration_nonneg :
  forall buf, sampleRate buf = 24000 -> (0 <= duration buf)%Q.
Proof.
  intros buf E. unfold duration. rewrite E.
  unfold Qdiv, Qmult, Qinv, Qle, inject_Z. cbn. lia.
Qed.

(** A decoded buffer holds at least one frame. *)
Lemma duration_frame :
  forall base64 buf,
    decodeAudioData base64 = Ok buf -> (1 # 24000 <= duration buf)%Q.
Proof.
  intros base64 buf. unfold decodeAudioData.
  destruct (atob base64) as [bin|]; cbn [bind]; [|discriminate].
  destruct (Int16Array_of _) as [l|]; cbn [bind]; [|discriminate].
  destruct l as [|v l]; cbn [List.length createBuffer bind]; [discriminate|].
  intros [= <-]. unfold duration. cbn [sampleRate channelData].
  cbn [List.length]. generalize (List.length (map pcm l)). intros n.
  unfold Qdiv, Qmult, Qinv, Qle, inject_Z. cbn [Qnum Qden]. lia.
Qed.

Lemma playAudio_ok :
  forall base64 now s buf,
    outputContext s <> None -> decodeAudioData base64 = Ok buf ->
    playAudio base64 now s
    = ([SourceStart (nextNode s) (Qmax (nextStartTime s) now)],
       set_playback s
         (double (Qmax (nextStartTime s) now + double (duration buf)))
         (sources s
          ++ [{| node := nextNode s; buffer := buf;
                 startTime := Qmax (nextStartTime s) now |}])
         (S (nextNode s))).
Proof.
  intros base64 now s buf Hctx E. unfold playAudio. rewrite E.
  destruct (outputContext s); [reflexivity | contradiction].
Qed.

Lemma playAudio_throw :
  forall base64 now s e,
    outputContext s <> None -> decodeAudioData base64 = Throw e ->
    playAudio base64 now s
    = ([ConsoleError "Audio Decode Error"],
       set_playback s (Qmax (nextStartTime s) now) (sources s) (nextNode s)).
Proof.
  intros base64 now s e Hctx E. unfold playAudio. rewrite E.
  destruct (outputContext s); [reflexivity | contradiction].
Qed.

Lemma promise_state_latest : forall s, promise_state (latest s) s = session s.
Proof. intros s. unfold promise_state. now rewrite Nat.eqb_refl. Qed.

Lemma waiting_latest : forall s, waiting (latest s) s = reactions s.
Proof. intros s. unfold waiting. now rewrite Nat.eqb_refl. Qed.

Lemma set_promise_latest :
  forall p rs s, set_promise (latest s) p rs s = set_session s (Some p) rs.
Proof. intros p rs s. unfold set_promise. now rewrite Nat.eqb_refl. Qed.

(** *** Properties of the playback fields that every event keeps *)

Section Invariant.

Variable P : list AudioBufferSourceNode -> Q -> nat -> Prop.
Variable R : Q -> Prop.

Hypothesis P_playAudio :
  forall base64 now s,
    R now -> holds P s -> holds P (snd (playAudio base64 now s)).
Hypothesis P_ended :
  forall f l w n, P l w n -> P (filter f l) w n.
Hypothesis P_clear :
  forall l w n, P l w n -> P [] w n.

Lemma set_promise_holds :
  forall k p rs s, holds P s -> holds P (set_promise k p rs s).
Proof.
  intros k p rs s H. unfold set_promise.
  destruct (Nat.eqb k (latest s)); exact H.
Qed.

Lemma then_holds :
  forall k ms s, holds P s -> holds P (snd (then_ k ms s)).
Proof.
  intros k ms s H. unfold then_.
  destruct (promise_state k s) as [[| |]|]; try exact H.
  now apply set_promise_holds.
Qed.

Lemma teardown_holds : forall s, holds P s -> holds P (snd (teardown s)).
Proof. intros s H. exact (P_clear _ _ _ H). Qed.

Lemma run_reactions_holds :
  forall rs s, holds P s -> holds P (snd (run_reactions rs s)).
Proof.
  induction rs as [|[m|] rs IH]; intros s H; cbn [run_reactions].
  - assumption.
  - specialize (IH s H). destruct (run_reactions rs s). exact IH.
  - pose proof (teardown_holds s H) as H0.
    destruct (teardown s) as [e1 s1]. cbn [snd] in H0.
    specialize (IH s1 H0). destruct (run_reactions rs s1). exact IH.
Qed.

Lemma settle_holds :
  forall k fulfilled s, holds P s -> holds P (snd (settle k fulfilled s)).
Proof.
  intros k fulfilled s H. unfold settle.
  destruct (promise_state k s) as [[| |]|]; try exact H.
  destruct fulfilled.
  - apply run_reactions_holds. now apply set_promise_holds.
  - now apply set_promise_holds.
Qed.

Lemma handleMessage_holds :
  forall m k now s,
    R now -> holds P s -> holds P (snd (fst (handleMessage m k now s))).
Proof.
  intros m k now s Hnow H. unfold handleMessage.
  set (played := match inlineData m with
                 | Some base64Audio =>
                     if String.eqb base64Audio "" then ([], s)
                     else match outputContext s with
                          | Some _ => playAudio base64Audio now s
                          | None => ([], s)
                          end
                 | None => ([], s)
                 end).
  assert (Hp : holds P (snd played)).
  { unfold played. destruct (inlineData m) as [b|]; [|assumption].
    destruct (String.eqb b ""); [assumption|].
    destruct (outputContext s); [now apply P_playAudio | assumption]. }
  destruct played as [audio s1]. cbn [snd] in Hp.
  destruct (match toolCall m with
            | Some (Some fcs) => tool_loop fcs
            | Some None => ([], [], Thrown TypeError)
            | None => ([], [], Returned)
            end) as [[calls responses] c].
  pose proof (then_holds k responses s1 Hp) as Ht.
  destruct (then_ k responses s1) as [sent s2]. exact Ht.
Qed.

Lemma callback_holds :
  forall k c s,
    readings R (Channel k c) -> holds P s -> holds P (snd (callback k c s)).
Proof.
  intros k c s Hr H. unfold callback.
  destruct (promise_state k s); [|exact H].
  destruct c as [|fulfilled|m now| | |inputData].
  - unfold onopen, startAudioInput.
    destruct (inputContext s), (stream s); exact H.
  - now apply settle_holds.
  - now apply handleMessage_holds.
  - exact H.
  - exact H.
  - now apply then_holds.
Qed.

Lemma step_holds :
  forall ev s, readings R ev -> holds P s -> holds P (snd (step ev s)).
Proof.
  intros ev s Hr H.
  destruct ev as [media| | |fulfilled|m now| | |inputData|n|k c]; cbn [step].
  - destruct media; exact H.
  - unfold disconnect. destruct (session s) as [[| |]|]; try exact H;
      exact (P_clear _ _ _ H).
  - now apply callback_holds.
  - now apply callback_holds.
  - now apply callback_holds.
  - now apply callback_holds.
  - now apply callback_holds.
  - unfold onaudioprocess. destruct (inputProcessor s); [|exact H].
    now apply then_holds.
  - exact (P_ended _ _ _ _ H).
  - now apply callback_holds.
Qed.

Lemma run_holds :
  forall evs s,
    Forall (readings R) evs -> holds P s -> holds P (snd (run evs s)).
Proof.
  induction evs as [|ev evs IH]; intros s Hr H; cbn [run]; [assumption|].
  pose proof (step_holds ev s (Forall_inv Hr) H) as H1.
  destruct (step ev s) as [e1 s1]. cbn [snd] in H1.
  specialize (IH s1 (Forall_inv_tail Hr) H1).
  destruct (run evs s1) as [e2 s2]. exact IH.
Qed.

End Invariant.

Lemma playAudio_raised :
  forall w0 base64 now s,
    is_double now -> holds (raised w0) s ->
    holds (raised w0) (snd (playAudio base64 now s)).
Proof.
  intros w0 base64 now s Hnow [Hd Hw]. unfold playAudio.
  destruct (outputContext s); [|now split].
  pose proof (Q.le_max_l (nextStartTime s) now) as Hmax.
  assert (Ht : is_double (Qmax (nextStartTime s) now))
    by now apply is_double_max.
  destruct (decodeAudioData base64) as [buf|e] eqn:E; cbn [snd];
    unfold holds, raised; cbn [nextStartTime set_playback].
  - split; [apply double_idempotent|].
    assert (Hdur : (0 <= duration buf)%Q)
      by (apply duration_nonneg; now apply decodeAudioData_rate with base64).
    pose proof (double_advance_ge _ _ Ht Hdur). lra.
  - split; [assumption | lra].
Qed.

(** No event moves the watermark back. *)
Lemma run_monotone :
  forall evs s,
    Forall (readings is_double) evs -> is_double (nextStartTime s) ->
    (nextStartTime s <= nextStartTime (snd (run evs s)))%Q.
Proof.
  intros evs s Hr Hd.
  assert (H : holds (raised (nextStartTime s)) (snd (run evs s))).
  { apply run_holds with (R := is_double); try assumption.
    - apply playAudio_raised.
    - intros f l w n H. exact H.
    - intros l w n H. exact H.
    - split; [assumption | apply Qle_refl]. }
  exact (proj2 H).
Qed.

(** The rounding shows: a unit of one frame that starts at 1/8 s ends at
    1/8 + 1/24000 s, and the watermark after it falls short of that instant
    by 31/6755399441055744000 s, about 4.6e-18 s. *)
Lemma playAudio_rounding_example :
  let s := set_playback connected_session (1 # 8) [] 0 in
  (nextStartTime (snd (playAudio "AAA=" 0 s))
   == (1 # 8) + (1 # 24000) - (31 # 6755399441055744000))%Q.
Proof. vm_compute. reflexivity. Qed.

(** C1, the claim as stated fails.  A chunk of one frame is scheduled at
    time 0 and ends at 1/24000; the next chunk arrives when the output clock
    reads 1 and is scheduled at 1: the two units are not back-to-back. *)
Lemma playAudio_gap_counterexample :
  exists u1 u2 : AudioBufferSourceNode,
    sources (snd (playAudio "AAA=" 1 (snd (playAudio "AAA=" 0 connected_session))))
    = [u1; u2]
    /\ (startTime u1 + duration (buffer u1) == 1 # 24000)%Q
    /\ (startTime u2 == 1)%Q
    /\ ~ (startTime u2 == startTime u1 + duration (buffer u1))%Q.
Proof.
  eexists. eexists. split; [vm_compute; reflexivity|].
  cbn [startTime buffer]. repeat split; try reflexivity.
  intros H. vm_compute in H. discriminate.
Qed.

(** C1, amended.  With the clock readings doubles and the watermark a
    double that is not negative, as it is from the constructor on, the
    watermark [nextStartTime] never decreases, along any sequence of
    events.  For
    every inbound chunk that is decoded, the unit starts exactly at the
    watermark after it has been raised to the output clock's current time,
    so not before that time.  The watermark is then advanced by the unit's
    duration in double arithmetic: it becomes the double nearest the sum of
    the start time and the double nearest the duration, which is not before
    the start time and within [3 * 2^-53] of the unit's exact end, relative
    to that end.  The next unit starts at that watermark whenever the output
    clock has not passed it when the next chunk is scheduled, so
    back-to-back with the earlier unit up to that rounding, and at the
    clock's current time otherwise. *)
Theorem playAudio_schedule :
  forall (evs : list Event) (s : LuminaSession) (b1 b2 : string)
         (now1 now2 : Q) (buf1 buf2 : AudioBuffer),
    outputContext s <> None ->
    decodeAudioData b1 = Ok buf1 ->
    decodeAudioData b2 = Ok buf2 ->
    is_double (nextStartTime s) -> (0 <= nextStartTime s)%Q ->
    is_double now1 -> is_double now2 ->
    Forall (readings is_double) evs ->
    let t1 := Qmax (nextStartTime s) now1 in
    let s1 := snd (playAudio b1 now1 s) in
    let t2 := Qmax (nextStartTime s1) now2 in
    let s2 := snd (playAudio b2 now2 s1) in
    (nextStartTime s <= nextStartTime (snd (run evs s)))%Q
    /\ fst (playAudio b1 now1 s) = [SourceStart (nextNode s) t1]
    /\ sources s1
       = sources s ++ [{| node := nextNode s; buffer := buf1; startTime := t1 |}]
    /\ nextStartTime s1 = double (t1 + double (duration buf1))
    /\ (now1 <= t1)%Q /\ (nextStartTime s <= t1)%Q
    /\ (t1 <= nextStartTime s1)%Q
    /\ (Qabs (nextStartTime s1 - (t1 + duration buf1))
        <= rounding * (t1 + duration buf1))%Q
    /\ sources s2
       = sources s
         ++ [{| node := nextNode s; buffer := buf1; startTime := t1 |};
             {| node := S (nextNode s); buffer := buf2; startTime := t2 |}]
    /\ nextStartTime s2 = double (t2 + double (duration buf2))
    /\ (now2 <= t2)%Q
    /\ (nextStartTime s1 <= t2)%Q
    /\ ((now2 <= nextStartTime s1)%Q ->
        (t2 == nextStartTime s1)%Q
        /\ (Qabs (t2 - (t1 + duration buf1))
            <= rounding * (t1 + duration buf1))%Q)
    /\ ((nextStartTime s1 < now2)%Q -> (t2 == now2)%Q).
Proof.
  intros evs s b1 b2 now1 now2 buf1 buf2 Hctx E1 E2 Hd H0 Hn1 Hn2 Hr
    t1 s1 t2 s2.
  assert (Hs1 : s1 = set_playback s (double (t1 + double (duration buf1)))
                       (sources s
                        ++ [{| node := nextNode s; buffer := buf1;
                               startTime := t1 |}])
                       (S (nextNode s))).
  { unfold s1. now rewrite (playAudio_ok b1 now1 s buf1 Hctx E1). }
  assert (Hctx1 : outputContext s1 <> None) by now rewrite Hs1.
  assert (Hs2 : s2 = set_playback s1 (double (t2 + double (duration buf2)))
                       (sources s1
                        ++ [{| node := nextNode s1; buffer := buf2;
                               startTime := t2 |}])
                       (S (nextNode s1))).
  { unfold s2. now rewrite (playAudio_ok b2 now2 s1 buf2 Hctx1 E2). }
  assert (Hw1 : nextStartTime s1 = double (t1 + double (duration buf1)))
    by now rewrite Hs1.
  assert (Ht1 : is_double t1) by now apply is_double_max.
  assert (Ht0 : (0 <= t1)%Q).
  { apply Qle_trans with (nextStartTime s); [assumption | apply Q.le_max_l]. }
  destruct (double_sum_bounds t1 (duration buf1) Ht1 Ht0
              (duration_frame b1 buf1 E1)) as [Hge Herr].
  split; [now apply run_monotone|].
  split; [now rewrite (playAudio_ok b1 now1 s buf1 Hctx E1)|].
  split; [now rewrite Hs1|].
  split; [assumption|].
  split; [apply Q.le_max_r|].
  split; [apply Q.le_max_l|].
  split; [now rewrite Hw1|].
  split; [now rewrite Hw1|].
  split.
  { rewrite Hs2. cbn [sources set_playback]. rewrite Hs1.
    cbn [sources nextNode set_playback]. now rewrite <- app_assoc. }
  split; [now rewrite Hs2|].
  split; [apply Q.le_max_r|].
  split; [apply Q.le_max_l|].
  split; intros H.
  - assert (Hmax : (t2 == nextStartTime s1)%Q) by now apply Q.max_l.
    split; [assumption|]. now rewrite Hmax, Hw1.
  - apply Q.max_r. now apply Qlt_le_weak.
Qed.

(** An instance: two chunks of one frame, the second after an idle
    second. *)
Lemma playAudio_schedule_witness :
  let evs := [ChannelMessage (audio_message "AAA=") (1 # 8)] in
  let s := connected_session in
  let buf := {| sampleRate := 24000; channelData := [pcm 0] |} in
  let t1 := Qmax (nextStartTime s) 0 in
  let s1 := snd (playAudio "AAA=" 0 s) in
  let t2 := Qmax (nextStartTime s1) 1 in
  let s2 := snd (playAudio "AAA=" 1 s1) in
  (nextStartTime s <= nextStartTime (snd (run evs s)))%Q
  /\ fst (playAudio "AAA=" 0 s) = [SourceStart (nextNode s) t1]
  /\ sources s1
     = sources s ++ [{| node := nextNode s; buffer := buf; startTime := t1 |}]
  /\ nextStartTime s1 = double (t1 + double (duration buf))
  /\ (0 <= t1)%Q /\ (nextStartTime s <= t1)%Q
  /\ (t1 <= nextStartTime s1)%Q
  /\ (Qabs (nextStartTime s1 - (t1 + duration buf))
      <= rounding * (t1 + duration buf))%Q
  /\ sources s2
     = sources s
       ++ [{| node := nextNode s; buffer := buf; startTime := t1 |};
           {| node := S (nextNode s); buffer := buf; startTime := t2 |}]
  /\ nextStartTime s2 = double (t2 + double (duration buf))
  /\ (1 <= t2)%Q
  /\ (nextStartTime s1 <= t2)%Q
  /\ ((1 <= nextStartTime s1)%Q ->
      (t2 == nextStartTime s1)%Q
      /\ (Qabs (t2 - (t1 + duration buf)) <= rounding * (t1 + duration buf))%Q)
  /\ ((nextStartTime s1 < 1)%Q -> (t2 == 1)%Q).
Proof.
  apply (playAudio_schedule [ChannelMessage (audio_message "AAA=") (1 # 8)]
           connected_session "AAA=" "AAA=" 0 1
           {| sampleRate := 24000; channelData := [pcm 0] |}
           {| sampleRate := 24000; channelData := [pcm 0] |}).
  - discriminate.
  - reflexivity.
  - reflexivity.
  - vm_compute. reflexivity.
  - vm_compute. discriminate.
  - vm_compute. reflexivity.
  - vm_compute. reflexivity.
  - constructor; [vm_compute; reflexivity | constructor].
Defined.

(** C7.  A decode failure on an inbound chunk is caught and logged: the
    only effect is the [console.error], no unit is scheduled, the message
    handler returns normally, every field of the session but the watermark
    is unchanged, the watermark is raised to the output clock's current
    time and advanced by no duration, and a later chunk is scheduled exactly
    as if the failed one had not arrived. *)
Theorem playAudio_decode_failure :
  forall (bad : string) (sessionPromise : nat) (now : Q) (s : LuminaSession)
         (e : Exn),
    outputContext s <> None ->
    decodeAudioData bad = Throw e ->
    let s' := snd (playAudio bad now s) in
    fst (playAudio bad now s) = [ConsoleError "Audio Decode Error"]
    /\ snd (handleMessage (audio_message bad) sessionPromise now s) = Returned
    /\ s' = set_playback s (Qmax (nextStartTime s) now) (sources s) (nextNode s)
    /\ sources s' = sources s
    /\ session s' = session s
    /\ (nextStartTime s <= nextStartTime s')%Q
    /\ forall (good : string) (later : Q) (buf : AudioBuffer),
         (now <= later)%Q ->
         decodeAudioData good = Ok buf ->
         exists u : AudioBufferSourceNode,
           fst (playAudio good later s') = [SourceStart (node u) (startTime u)]
           /\ sources (snd (playAudio good later s')) = sources s ++ [u]
           /\ node u = nextNode s
           /\ buffer u = buf
           /\ (startTime u == Qmax (nextStartTime s) later)%Q
           /\ (nextStartTime (snd (playAudio good later s'))
               == double (Qmax (nextStartTime s) later
                          + double (duration buf)))%Q.
Proof.
  intros bad k now s e Hctx E s'.
  assert (Hs' : s' = set_playback s (Qmax (nextStartTime s) now) (sources s)
                       (nextNode s)).
  { unfold s'. now rewrite (playAudio_throw bad now s e Hctx E). }
  split; [now rewrite (playAudio_throw bad now s e Hctx E)|].
  split.
  { unfold handleMessage, audio_message. cbn [inlineData toolCall].
    destruct (String.eqb bad "");
      [|destruct (outputContext s); [destruct (playAudio bad now s)|]];
      cbn [fst snd]; destruct (then_ k [] _); reflexivity. }
  split; [assumption|].
  split; [now rewrite Hs'|].
  split; [now rewrite Hs'|].
  split; [rewrite Hs'; apply Q.le_max_l|].
  intros good later buf Hlater Egood.
  assert (Hctx' : outputContext s' <> None) by now rewrite Hs'.
  rewrite (playAudio_ok good later s' buf Hctx' Egood).
  exists {| node := nextNode s'; buffer := buf;
            startTime := Qmax (nextStartTime s') later |}.
  cbn [fst snd node buffer startTime sources nextStartTime set_playback].
  assert (Hmax : (Qmax (nextStartTime s') later == Qmax (nextStartTime s) later)%Q).
  { rewrite Hs'. cbn [nextStartTime set_playback].
    rewrite <- Q.max_assoc. now rewrite (Q.max_r now later Hlater). }
  repeat split; try (rewrite Hs'; reflexivity); try assumption.
  apply double_comp. now rewrite Hmax.
Qed.

(** An instance: a payload that is not base64. *)
Lemma playAudio_decode_failure_witness :
  let s := connected_session in
  let s' := snd (playAudio "!!" 3 s) in
  fst (playAudio "!!" 3 s) = [ConsoleError "Audio Decode Error"]
  /\ snd (handleMessage (audio_message "!!") 0 3 s) = Returned
  /\ s' = set_playback s (Qmax (nextStartTime s) 3) (sources s) (nextNode s)
  /\ sources s' = sources s
  /\ session s' = session s
  /\ (nextStartTime s <= nextStartTime s')%Q
  /\ forall (good : string) (later : Q) (buf : AudioBuffer),
       (3 <= later)%Q ->
       decodeAudioData good = Ok buf ->
       exists u : AudioBufferSourceNode,
         fst (playAudio good later s') = [SourceStart (node u) (startTime u)]
         /\ sources (snd (playAudio good later s')) = sources s ++ [u]
         /\ node u = nextNode s
         /\ buffer u = buf
         /\ (startTime u == Qmax (nextStartTime s) later)%Q
         /\ (nextStartTime (snd (playAudio good later s'))
             == double (Qmax (nextStartTime s) later
                        + double (duration buf)))%Q.
Proof.
  apply (playAudio_decode_failure "!!" 0 3 connected_session
           InvalidCharacterError).
  - discriminate.
  - reflexivity.
Defined.

End Scheduler.

(** ** Tool invocations *)

Section Tools.

Lemma tool_responses_app :
  forall a b, tool_responses (a ++ b) = tool_responses a ++ tool_responses b.
Proof.
  induction a as [|e a IH]; intros b; [reflexivity|].
  destruct e; cbn [app tool_responses]; now rewrite IH.
Qed.

Lemma tool_responses_playAudio :
  forall base64 now s, tool_responses (fst (playAudio base64 now s)) = [].
Proof.
  intros base64 now s. unfold playAudio.
  destruct (outputContext s); [|reflexivity].
  destruct (decodeAudioData base64); reflexivity.
Qed.

(** When every [update_screen] call carries arguments the loop runs to its
    end: it updates the screen once and hands over one response per
    [update_screen] call; no other call gets an answer. *)
Lemma tool_loop_responses :
  forall fcs,
    (forall fc, In fc fcs -> is_update_screen fc = true -> args fc <> None) ->
    exists calls responses,
      tool_loop fcs = (calls, responses, Returned)
      /\ tool_responses calls = []
      /\ tool_responses (map send responses)
         = map correlation (filter is_update_screen fcs).
Proof.
  induction fcs as [|fc fcs IH]; intros Hargs.
  - now exists [], [].
  - destruct IH as (calls & responses & E & Hc & Hr).
    { intros fc' Hin. apply Hargs. now right. }
    cbn [tool_loop filter].
    destruct (is_update_screen fc) eqn:Hfc.
    + destruct (args fc) as [a|] eqn:Ha.
      * rewrite E.
        exists (ScreenUpdate (title a) (content_markdown a) :: calls),
               (ToolResponse (id fc) (name fc) "Screen updated successfully."
                :: responses).
        repeat split; [exact Hc|].
        cbn [map send tool_responses]. now rewrite Hr.
      * exfalso. apply (Hargs fc); [now left | assumption | assumption].
    + now exists calls, responses.
Qed.

Lemma promise_state_playAudio :
  forall base64 now s k,
    promise_state k (snd (playAudio base64 now s)) = promise_state k s.
Proof.
  intros base64 now s k. unfold playAudio.
  destruct (outputContext s); [|reflexivity].
  destruct (decodeAudioData base64); reflexivity.
Qed.

(** C4, the claim as stated fails.  An invocation whose name is not
    [update_screen] gets no response at all.  (An [update_screen]
    invocation that carries no arguments makes the handler throw before it
    answers.) *)
Lemma handleMessage_unanswered_counterexample :
  let fc := {| id := Some "call-1"%string; name := Some "lookup"%string;
               args := Some {| title := None; content_markdown := None |} |} in
  let bare := {| id := Some "call-2"%string;
                 name := Some "update_screen"%string; args := None |} in
  handleMessage (tool_message [fc]) 0 0 connected_session
  = ([], connected_session, Returned)
  /\ tool_responses
       (fst (fst (handleMessage (tool_message [fc]) 0 0 connected_session)))
     <> [correlation fc]
  /\ handleMessage (tool_message [bare]) 0 0 connected_session
     = ([], connected_session, Thrown TypeError).
Proof.
  repeat split; [discriminate].
Qed.

(** C4, amended.  For every inbound message whose [update_screen]
    invocations all carry their arguments, on a channel whose session
    promise is fulfilled, every invocation named [update_screen] is answered
    exactly once with a tool response that carries the invocation's id and
    name, in the order of the invocations, and an invocation of any other
    name is not answered; in particular such a message carrying two
    [update_screen] invocations produces exactly two responses, each with
    its own invocation id. *)
Theorem handleMessage_tool_responses :
  forall (audio : option string) (fcs : list FunctionCall)
         (sessionPromise : nat) (now : Q) (s : LuminaSession),
    promise_state sessionPromise s = Some Fulfilled ->
    (forall fc, In fc fcs -> is_update_screen fc = true -> args fc <> None) ->
    let message := {| inlineData := audio; toolCall := Some (Some fcs) |} in
    tool_responses (fst (fst (handleMessage message sessionPromise now s)))
    = map correlation (filter is_update_screen fcs)
    /\ snd (handleMessage message sessionPromise now s) = Returned
    /\ forall fc1 fc2,
         fcs = [fc1; fc2] ->
         is_update_screen fc1 = true -> is_update_screen fc2 = true ->
         tool_responses (fst (fst (handleMessage message sessionPromise now s)))
         = [(id fc1, name fc1); (id fc2, name fc2)].
Proof.
  intros audio fcs k now s Hconn Hargs message.
  destruct (tool_loop_responses fcs Hargs) as (calls & responses & E & Hc & Hr).
  assert (H : tool_responses (fst (fst (handleMessage message k now s)))
              = map correlation (filter is_update_screen fcs)
              /\ snd (handleMessage message k now s) = Returned).
  { unfold handleMessage, message. cbn [inlineData toolCall].
    set (played := match audio with
                   | Some base64Audio =>
                       if String.eqb base64Audio "" then ([], s)
                       else match outputContext s with
                            | Some _ => playAudio base64Audio now s
                            | None => ([], s)
                            end
                   | None => ([], s)
                   end).
    assert (Hp : tool_responses (fst played) = []
                 /\ promise_state k (snd played) = promise_state k s).
    { unfold played. destruct audio as [b|]; [|now split].
      destruct (String.eqb b ""); [now split|].
      destruct (outputContext s) eqn:Hctx; [|now split].
      split; [apply tool_responses_playAudio | apply promise_state_playAudio]. }
    destruct played as [played_effects s1]. cbn [fst snd] in Hp.
    destruct Hp as [Hp1 Hp2].
    rewrite E. unfold then_. rewrite Hp2, Hconn. cbn [fst snd].
    rewrite !tool_responses_app, Hc, Hp1, Hr. now split. }
  destruct H as [H1 H2].
  repeat split; try assumption.
  intros fc1 fc2 -> Hu1 Hu2. rewrite H1. cbn [filter].
  now rewrite Hu1, Hu2.
Qed.

(** An instance: a message with audio and two [update_screen]
    invocations. *)
Lemma handleMessage_tool_responses_witness :
  let fc1 := {| id := Some "a"%string; name := Some "update_screen"%string;
                args := Some {| title := Some "T"%string;
                                content_markdown := Some "x"%string |} |} in
  let fc2 := {| id := Some "b"%string; name := Some "update_screen"%string;
                args := Some {| title := Some "U"%string;
                                content_markdown := Some "y"%string |} |} in
  let message := {| inlineData := Some "AAA="%string;
                    toolCall := Some (Some [fc1; fc2]) |} in
  tool_responses (fst (fst (handleMessage message 0 0 connected_session)))
  = map correlation (filter is_update_screen [fc1; fc2])
  /\ snd (handleMessage message 0 0 connected_session) = Returned
  /\ forall fc1' fc2',
       [fc1; fc2] = [fc1'; fc2'] ->
       is_update_screen fc1' = true -> is_update_screen fc2' = true ->
       tool_responses (fst (fst (handleMessage message 0 0 connected_session)))
       = [(id fc1', name fc1'); (id fc2', name fc2')].
Proof.
  intros fc1 fc2.
  apply (handleMessage_tool_responses (Some "AAA="%string) [fc1; fc2] 0 0
           connected_session).
  - reflexivity.
  - intros fc [<- | [<- | []]] _; discriminate.
Defined.

End Tools.

(** ** Teardown *)

Section Teardown.

Lemma phases_app :
  forall phase a b, phases phase (a ++ b) = phases phase a ++ phases phase b.
Proof.
  induction a as [|e a IH]; intros b; [reflexivity|].
  cbn [app phases]. destruct (phase e); cbn [app]; now rewrite IH.
Qed.

Lemma phases_map :
  forall (A : Type) phase (f : A -> Effect) k,
    (forall x, phase (f x) = Some k) ->
    forall l, phases phase (map f l) = repeat k (List.length l).
Proof.
  intros A phase f k H. induction l as [|x l IH]; [reflexivity|].
  cbn [map phases List.length repeat]. now rewrite H, IH.
Qed.

(** A block of equal phases in front of an ascending list that starts
    no lower is ascending. *)
Lemma ascending_block :
  forall k n l,
    ascending l = true -> (forall b, In b l -> (k <= b)%nat) ->
    ascending (repeat k n ++ l) = true.
Proof.
  intros k n l Hl Hb. induction n as [|n IH]; [assumption|].
  cbn [repeat app]. cbn [ascending].
  destruct (repeat k n ++ l) as [|x r] eqn:E; [reflexivity|].
  rewrite IH, andb_true_r. apply Nat.leb_le.
  assert (Hx : In x (repeat k n ++ l)) by (rewrite E; now left).
  apply in_app_or in Hx. destruct Hx as [Hx | Hx].
  - apply repeat_spec in Hx. lia.
  - now apply Hb.
Qed.

Lemma teardown_phases :
  forall s, exists n0 n1 n2 n3,
    phases code_phase (fst (teardown s))
    = repeat 0%nat n0 ++ repeat 1%nat n1 ++ repeat 2%nat n2
      ++ repeat 3%nat n3 ++ [4%nat].
Proof.
  intros s. unfold teardown. cbn [fst].
  exists ((if source s then 1 else 0)
          + match inputProcessor s with Some _ => 1 | None => 0 end)%nat.
  exists (match stream s with Some tracks => List.length tracks | None => O end).
  exists (match inputContext s with Some _ => 1 | None => 0 end
          + match outputContext s with Some _ => 1 | None => 0 end)%nat.
  exists (List.length (sources s)).
  rewrite !phases_app, !repeat_app, <- !app_assoc.
  rewrite (phases_map _ code_phase (fun u => SourceStop (node u)) 3%nat)
    by reflexivity.
  f_equal; [destruct (source s); reflexivity|].
  f_equal; [destruct (inputProcessor s); reflexivity|].
  f_equal.
  { destruct (stream s); [|reflexivity].
    now apply (phases_map _ code_phase TrackStop 1%nat). }
  f_equal; [destruct (inputContext s); reflexivity|].
  f_equal; destruct (outputContext s); reflexivity.
Qed.

Lemma teardown_in_order :
  forall s, in_order code_phase (fst (teardown s)) = true.
Proof.
  intros s. unfold in_order.
  destruct (teardown_phases s) as (n0 & n1 & n2 & n3 & ->).
  repeat (apply ascending_block;
          [| intros b Hb;
             repeat (apply in_app_or in Hb;
                     destruct Hb as [Hb | Hb];
                     [apply repeat_spec in Hb; lia |]);
             destruct Hb as [<- | []]; lia]).
  reflexivity.
Qed.

(** The channel open and the session promise fulfilled make a connected
    session. *)
Lemma Connected_after_open :
  forall tracks,
    Connected
      (snd (run [Connect (Some tracks); ChannelOpen; SessionSettled true]
              new_session)).
Proof. reflexivity. Qed.

Lemma disconnect_teardown :
  forall s, session s <> Some Pending -> session s <> Some Rejected ->
    disconnect s = (fst (teardown s), snd (teardown s), Returned).
Proof.
  intros s Hp Hr. unfold disconnect.
  destruct (session s) as [[| |]|]; try reflexivity; contradiction.
Qed.

(** C5, the claim as stated fails.  With one unit playing, [disconnect]
    releases the input track and closes both contexts before it stops the
    unit; and on a session whose channel failed to open the [await] at the
    top of [disconnect] throws, after which no step executes although the
    input track had been acquired. *)
Lemma disconnect_order_counterexample :
  fst (fst (disconnect playing_session))
  = [SourceDisconnect; ProcessorDisconnect; TrackStop 7;
     ContextClose InputContext; ContextClose OutputContext;
     SourceStop 0; StatusChange "Disconnected"]
  /\ in_order spec_phase (fst (fst (disconnect playing_session))) = false
  /\ stream failed_session = Some [7%nat]
  /\ disconnect failed_session = ([], failed_session, Thrown Rejection).
Proof.
  repeat split; vm_compute; reflexivity.
Qed.

(** C5, amended.  On a session whose session promise is absent or
    fulfilled, teardown returns and performs its steps in this order: stop
    the capture pipeline first, then release the input device track(s),
    then release the input and the output device context, then stop every
    playback unit still in the active set, then report [Disconnected]; each
    of these steps is executed. *)
Theorem disconnect_order :
  forall s : LuminaSession,
    session s <> Some Pending -> session s <> Some Rejected ->
    let effects := fst (fst (disconnect s)) in
    snd (disconnect s) = Returned
    /\ in_order code_phase effects = true
    /\ (source s = true -> In SourceDisconnect effects)
    /\ (inputProcessor s <> None -> In ProcessorDisconnect effects)
    /\ (forall tracks t, stream s = Some tracks -> In t tracks ->
          In (TrackStop t) effects)
    /\ (inputContext s <> None -> In (ContextClose InputContext) effects)
    /\ (outputContext s <> None -> In (ContextClose OutputContext) effects)
    /\ (forall u, In u (sources s) -> In (SourceStop (node u)) effects)
    /\ In (StatusChange "Disconnected") effects.
Proof.
  intros s Hp Hr effects. unfold effects.
  rewrite (disconnect_teardown s Hp Hr). cbn [fst snd].
  split; [reflexivity|].
  split; [apply teardown_in_order|].
  unfold teardown. cbn [fst].
  repeat split.
  - intros ->. apply in_or_app. left. now left.
  - intros H. apply in_or_app. right. apply in_or_app. left.
    destruct (inputProcessor s); [now left | contradiction].
  - intros tracks t -> Ht. do 2 (apply in_or_app; right).
    apply in_or_app. left. now apply in_map.
  - intros H. do 3 (apply in_or_app; right). apply in_or_app. left.
    destruct (inputContext s); [now left | contradiction].
  - intros H. do 4 (apply in_or_app; right). apply in_or_app. left.
    destruct (outputContext s); [now left | contradiction].
  - intros u Hu. do 5 (apply in_or_app; right). apply in_or_app. left.
    now apply (in_map (fun u => SourceStop (node u))).
  - do 6 (apply in_or_app; right). now left.
Qed.

(** An instance: the teardown order of a session with one unit playing. *)
Lemma disconnect_order_witness :
  let effects := fst (fst (disconnect playing_session)) in
  snd (disconnect playing_session) = Returned
  /\ in_order code_phase effects = true
  /\ (source playing_session = true -> In SourceDisconnect effects)
  /\ (inputProcessor playing_session <> None -> In ProcessorDisconnect effects)
  /\ (forall tracks t, stream playing_session = Some tracks -> In t tracks ->
        In (TrackStop t) effects)
  /\ (inputContext playing_session <> None ->
        In (ContextClose InputContext) effects)
  /\ (outputContext playing_session <> None ->
        In (ContextClose OutputContext) effects)
  /\ (forall u, In u (sources playing_session) ->
        In (SourceStop (node u)) effects)
  /\ In (StatusChange "Disconnected") effects.
Proof.
  apply (disconnect_order playing_session); discriminate.
Defined.

Lemma stopped_app :
  forall a b, stopped (a ++ b) = stopped a ++ stopped b.
Proof.
  induction a as [|e a IH]; intros b; [reflexivity|].
  destruct e; cbn [app stopped]; now rewrite IH.
Qed.

Lemma teardown_stopped :
  forall s, stopped (fst (teardown s)) = map node (sources s).
Proof.
  intros s. unfold teardown. cbn [fst]. rewrite !stopped_app.
  replace (stopped (if source s then [SourceDisconnect] else [])) with (@nil nat)
    by (destruct (source s); reflexivity).
  replace (stopped match inputProcessor s with
                   | Some _ => [ProcessorDisconnect] | None => [] end)
    with (@nil nat) by (destruct (inputProcessor s); reflexivity).
  replace (stopped match stream s with
                   | Some tracks => map TrackStop tracks | None => [] end)
    with (@nil nat).
  2: { destruct (stream s) as [tracks|]; [|reflexivity].
       induction tracks as [|t tracks IH]; [reflexivity | exact IH]. }
  replace (stopped match inputContext s with
                   | Some _ => [ContextClose InputContext] | None => [] end)
    with (@nil nat) by (destruct (inputContext s); reflexivity).
  replace (stopped match outputContext s with
                   | Some _ => [ContextClose OutputContext] | None => [] end)
    with (@nil nat) by (destruct (outputContext s); reflexivity).
  cbn [app stopped]. rewrite app_nil_r.
  induction (sources s) as [|u l IH]; [reflexivity|].
  cbn [map stopped]. now rewrite IH.
Qed.

(** C6.  For every connected session with N playback units in the active
    set, [disconnect] returns, stops exactly those N units, each once, in
    the order they were scheduled, and leaves the active set empty. *)
Theorem disconnect_stops_all :
  forall s : LuminaSession,
    Connected s ->
    snd (disconnect s) = Returned
    /\ stopped (fst (fst (disconnect s))) = map node (sources s)
    /\ List.length (stopped (fst (fst (disconnect s)))) = List.length (sources s)
    /\ sources (snd (fst (disconnect s))) = [].
Proof.
  intros s Hconn. unfold Connected in Hconn.
  rewrite disconnect_teardown by (rewrite Hconn; discriminate).
  cbn [fst snd]. rewrite teardown_stopped, length_map. now repeat split.
Qed.

(** An instance: a connected session with one unit playing. *)
Lemma disconnect_stops_all_witness :
  snd (disconnect playing_session) = Returned
  /\ stopped (fst (fst (disconnect playing_session)))
     = map node (sources playing_session)
  /\ List.length (stopped (fst (fst (disconnect playing_session))))
     = List.length (sources playing_session)
  /\ sources (snd (fst (disconnect playing_session))) = [].
Proof.
  apply (disconnect_stops_all playing_session). reflexivity.
Defined.

Lemma filter_stops_map :
  forall l : list AudioBufferSourceNode,
    filter (fun e => negb (is_stop e)) (map (fun u => SourceStop (node u)) l) = [].
Proof.
  induction l as [|u l IH]; [reflexivity | exact IH].
Qed.

Lemma filter_stops_tracks :
  forall tracks,
    filter (fun e => negb (is_stop e)) (map TrackStop tracks) = map TrackStop tracks.
Proof.
  induction tracks as [|t tracks IH]; [reflexivity|].
  cbn [map filter is_stop negb]. now rewrite IH.
Qed.

Lemma stopped_filter :
  forall es, stopped (filter (fun e => negb (is_stop e)) es) = [].
Proof.
  induction es as [|e es IH]; [reflexivity|]. destruct e; exact IH.
Qed.

(** A second teardown repeats the first one without the stops. *)
Lemma teardown_again :
  forall s,
    teardown (snd (teardown s))
    = (filter (fun e => negb (is_stop e)) (fst (teardown s)), snd (teardown s)).
Proof.
  intros s. unfold teardown. cbn [fst snd source inputProcessor stream
    inputContext outputContext sources nextStartTime nextNode set_playback map app].
  f_equal. rewrite !filter_app, filter_stops_map.
  f_equal; [destruct (source s); reflexivity|].
  f_equal; [destruct (inputProcessor s); reflexivity|].
  f_equal; [destruct (stream s); [now rewrite filter_stops_tracks | reflexivity]|].
  f_equal; [destruct (inputContext s); reflexivity|].
  f_equal; destruct (outputContext s); reflexivity.
Qed.

(** C8, the claim as stated fails.  [disconnect] on the session as
    constructed invokes the status callback with [Disconnected]; on a
    session already torn down it disconnects the capture graph, stops the
    track and closes both contexts again, and invokes the callback again. *)
Lemma disconnect_idle_counterexample :
  Idle new_session
  /\ disconnect new_session = ([StatusChange "Disconnected"], new_session, Returned)
  /\ fst (fst (disconnect new_session)) <> []
  /\ fst (fst (disconnect (snd (fst (disconnect connected_session)))))
     = [SourceDisconnect; ProcessorDisconnect; TrackStop 7;
        ContextClose InputContext; ContextClose OutputContext;
        StatusChange "Disconnected"].
Proof.
  repeat split; try discriminate; vm_compute; reflexivity.
Qed.

(** C8, amended.  [disconnect] on an idle (never-connected) session changes
    no session state and its one observable effect is the status callback
    with [Disconnected].  [disconnect] on a session already torn down
    changes no session state and stops no playback unit, but it repeats
    every other call of the first teardown (capture pipeline, tracks,
    contexts) and the status callback. *)
Theorem disconnect_again :
  forall (s s' : LuminaSession) (effects : list Effect),
    disconnect s = (effects, s', Returned) ->
    disconnect new_session = ([StatusChange "Disconnected"], new_session, Returned)
    /\ disconnect s'
       = (filter (fun e => negb (is_stop e)) effects, s', Returned)
    /\ stopped (fst (fst (disconnect s'))) = []
    /\ In (StatusChange "Disconnected") (fst (fst (disconnect s'))).
Proof.
  intros s s' effects H.
  split; [reflexivity|].
  assert (Hp : session s <> Some Pending /\ session s <> Some Rejected).
  { unfold disconnect in H.
    destruct (session s) as [[| |]|]; try discriminate; split; discriminate. }
  destruct Hp as [Hp Hr].
  rewrite (disconnect_teardown s Hp Hr) in H.
  pose proof (f_equal (fun r : Run => fst (fst r)) H) as He.
  pose proof (f_equal (fun r : Run => snd (fst r)) H) as Hs.
  cbn beta in He, Hs. cbn [fst snd] in He, Hs. subst effects s'. clear H.
  assert (Hp' : session (snd (teardown s)) <> Some Pending) by exact Hp.
  assert (Hr' : session (snd (teardown s)) <> Some Rejected) by exact Hr.
  assert (E : disconnect (snd (teardown s))
              = (filter (fun e => negb (is_stop e)) (fst (teardown s)),
                 snd (teardown s), Returned)).
  { rewrite (disconnect_teardown (snd (teardown s)) Hp' Hr'). now rewrite teardown_again. }
  split; [exact E|].
  split.
  - rewrite E. cbn [fst]. apply stopped_filter.
  - rewrite E. cbn [fst]. apply filter_In. split; [|reflexivity].
    unfold teardown. cbn [fst]. do 6 (apply in_or_app; right). now left.
Qed.

(** An instance: a second teardown of a session that had one unit
    playing. *)
Lemma disconnect_again_witness :
  disconnect new_session = ([StatusChange "Disconnected"], new_session, Returned)
  /\ disconnect (snd (teardown playing_session))
     = (filter (fun e => negb (is_stop e)) (fst (teardown playing_session)),
        snd (teardown playing_session), Returned)
  /\ stopped (fst (fst (disconnect (snd (teardown playing_session))))) = []
  /\ In (StatusChange "Disconnected")
       (fst (fst (disconnect (snd (teardown playing_session))))).
Proof.
  apply (disconnect_again playing_session (snd (teardown playing_session))
           (fst (teardown playing_session))).
  reflexivity.
Defined.

End Teardown.

(** ** The status callback *)

Section Status.

Lemma statuses_app :
  forall a b, statuses (a ++ b) = statuses a ++ statuses b.
Proof.
  induction a as [|e a IH]; intros b; [reflexivity|].
  destruct e; cbn [app statuses]; now rewrite IH.
Qed.

Lemma statuses_sent : forall ms, statuses (map send ms) = [].
Proof.
  induction ms as [|m ms IH]; [reflexivity|]. destruct m; exact IH.
Qed.

Lemma statuses_then : forall k ms s, statuses (fst (then_ k ms s)) = [].
Proof.
  intros k ms s. unfold then_.
  destruct (promise_state k s) as [[| |]|]; try reflexivity.
  apply statuses_sent.
Qed.

Lemma statuses_playAudio :
  forall base64 now s, statuses (fst (playAudio base64 now s)) = [].
Proof.
  intros base64 now s. unfold playAudio.
  destruct (outputContext s); [|reflexivity].
  destruct (decodeAudioData base64); reflexivity.
Qed.

Lemma statuses_tool_loop :
  forall fcs, statuses (fst (fst (tool_loop fcs))) = [].
Proof.
  induction fcs as [|fc fcs IH]; [reflexivity|]. cbn [tool_loop].
  destruct (is_update_screen fc); [|exact IH].
  destruct (args fc); [|reflexivity].
  destruct (tool_loop fcs) as [[calls responses] c]. exact IH.
Qed.

Lemma statuses_handleMessage :
  forall m k now s, statuses (fst (fst (handleMessage m k now s))) = [].
Proof.
  intros m k now s. unfold handleMessage.
  set (played := match inlineData m with
                 | Some base64Audio =>
                     if String.eqb base64Audio "" then ([], s)
                     else match outputContext s with
                          | Some _ => playAudio base64Audio now s
                          | None => ([], s)
                          end
                 | None => ([], s)
                 end).
  assert (Hp : statuses (fst played) = []).
  { unfold played. destruct (inlineData m) as [b|]; [|reflexivity].
    destruct (String.eqb b ""); [reflexivity|].
    destruct (outputContext s); [apply statuses_playAudio | reflexivity]. }
  destruct played as [audio s1]. cbn [fst] in Hp.
  set (loop := match toolCall m with
               | Some (Some fcs) => tool_loop fcs
               | Some None => ([], [], Thrown TypeError)
               | None => ([], [], Returned)
               end).
  assert (Hl : statuses (fst (fst loop)) = []).
  { unfold loop. destruct (toolCall m) as [[fcs|]|]; try reflexivity.
    apply statuses_tool_loop. }
  destruct loop as [[calls responses] c]. cbn [fst] in Hl.
  pose proof (statuses_then k responses s1) as Ht.
  destruct (then_ k responses s1) as [sent s2]. cbn [fst] in *.
  now rewrite !statuses_app, Hl, Hp, Ht.
Qed.

Lemma statuses_teardown :
  forall s, statuses (fst (teardown s)) = ["Disconnected"%string].
Proof.
  intros s. unfold teardown. cbn [fst]. rewrite !statuses_app.
  replace (statuses (if source s then [SourceDisconnect] else []))
    with (@nil string) by (destruct (source s); reflexivity).
  replace (statuses match inputProcessor s with
                    | Some _ => [ProcessorDisconnect] | None => [] end)
    with (@nil string) by (destruct (inputProcessor s); reflexivity).
  replace (statuses match stream s with
                    | Some tracks => map TrackStop tracks | None => [] end)
    with (@nil string).
  2: { destruct (stream s) as [tracks|]; [|reflexivity].
       induction tracks as [|t tracks IH]; [reflexivity | exact IH]. }
  replace (statuses match inputContext s with
                    | Some _ => [ContextClose InputContext] | None => [] end)
    with (@nil string) by (destruct (inputContext s); reflexivity).
  replace (statuses match outputContext s with
                    | Some _ => [ContextClose OutputContext] | None => [] end)
    with (@nil string) by (destruct (outputContext s); reflexivity).
  replace (statuses (map (fun u => SourceStop (node u)) (sources s)))
    with (@nil string).
  2: { induction (sources s) as [|u l IH]; [reflexivity | exact IH]. }
  reflexivity.
Qed.

Lemma allowed_app : forall a b, allowed a -> allowed b -> allowed (a ++ b).
Proof. intros a b Ha Hb. apply Forall_app. now split. Qed.

Lemma allowed_run_reactions :
  forall rs s, allowed (statuses (fst (run_reactions rs s))).
Proof.
  induction rs as [|[m|] rs IH]; intros s; cbn [run_reactions].
  - constructor.
  - specialize (IH s). destruct (run_reactions rs s) as [es s'].
    cbn [fst] in *. destruct m; exact IH.
  - pose proof (statuses_teardown s) as Ht.
    destruct (teardown s) as [e1 s1]. cbn [fst] in Ht.
    specialize (IH s1). destruct (run_reactions rs s1) as [es s'].
    cbn [fst] in *. rewrite statuses_app, Ht.
    apply allowed_app; [|assumption].
    constructor; [|constructor]. unfold code_statuses. cbn. tauto.
Qed.

Lemma allowed_callback :
  forall k c s, allowed (statuses (fst (callback k c s))).
Proof.
  intros k c s.
  assert (Hnil : allowed []) by constructor.
  assert (Hone : forall st, In st code_statuses -> allowed [st])
    by (intros st H; constructor; [assumption | constructor]).
  unfold callback. destruct (promise_state k s) as [p|] eqn:Ep; [|exact Hnil].
  destruct c as [|fulfilled|m now| | |inputData].
  - unfold onopen, startAudioInput.
    destruct (inputContext s), (stream s); cbn; apply Hone; cbn; tauto.
  - unfold settle. rewrite Ep. destruct p; try exact Hnil.
    destruct fulfilled; [apply allowed_run_reactions | exact Hnil].
  - rewrite statuses_handleMessage. exact Hnil.
  - cbn. apply Hone; cbn; tauto.
  - cbn. apply Hone; cbn; tauto.
  - rewrite statuses_then. exact Hnil.
Qed.

Lemma allowed_step : forall ev s, allowed (statuses (fst (step ev s))).
Proof.
  intros ev s.
  assert (Hnil : allowed []) by constructor.
  assert (Hone : forall st, In st code_statuses -> allowed [st])
    by (intros st H; constructor; [assumption | constructor]).
  destruct ev as [media| | |fulfilled|m now| | |inputData|n|k c]; cbn [step];
    try apply allowed_callback.
  - destruct media; cbn; apply Hone; cbn; tauto.
  - unfold disconnect. destruct (session s) as [[| |]|]; try exact Hnil;
      pose proof (statuses_teardown s) as Ht;
      destruct (teardown s) as [e1 s1]; cbn [fst] in *; rewrite Ht;
      apply Hone; cbn; tauto.
  - unfold onaudioprocess. destruct (inputProcessor s); [|exact Hnil].
    rewrite statuses_then. exact Hnil.
  - exact Hnil.
Qed.

(** C9, the claim as stated fails.  [connect] passes [Connecting...], with
    the ellipsis, which is none of the four strings of the claim. *)
Lemma status_strings_counterexample :
  statuses (fst (run [Connect (Some [7%nat])] new_session))
  = ["Connecting..."%string]
  /\ ~ In "Connecting..."%string spec_statuses.
Proof.
  split; [reflexivity|].
  unfold spec_statuses. cbn. intros [H | [H | [H | [H | []]]]]; discriminate.
Qed.

(** C9, amended.  Every invocation of the status callback, over every
    sequence of events of a session, passes exactly one of the four strings
    [Connecting...], [Connected], [Disconnected], [Error] and nothing
    else. *)
Theorem status_strings :
  forall (evs : list Event) (s : LuminaSession),
    Forall (fun st => In st code_statuses) (statuses (fst (run evs s))).
Proof.
  induction evs as [|ev evs IH]; intros s; cbn [run]; [constructor|].
  pose proof (allowed_step ev s) as H1.
  destruct (step ev s) as [e1 s1]. cbn [fst] in H1.
  specialize (IH s1). destruct (run evs s1) as [e2 s2]. cbn [fst] in *.
  rewrite statuses_app. now apply allowed_app.
Qed.

End Status.

(** ** More on the framer and the decoder *)

Section Codec.

Lemma encode_bytes_length_exact :
  forall bs, List.length (encode_bytes bs) = (4 * ((List.length bs + 2) / 3))%nat.
Proof.
  induction bs as [| a | a b | a b c rest IH] using list_ind3;
    try reflexivity.
  cbn [encode_bytes List.length]. rewrite IH.
  replace (S (S (S (List.length rest))) + 2)%nat
    with ((List.length rest + 2) + 1 * 3)%nat by lia.
  rewrite Nat.div_add by discriminate. lia.
Qed.

Lemma length_string_of_list_ascii :
  forall l, String.length (string_of_list_ascii l) = List.length l.
Proof.
  intros l.
  now rewrite <- length_list_ascii_of_string, list_ascii_of_string_of_list_ascii.
Qed.

Lemma encode_bytes_chars :
  forall bs, Forall is_byte bs ->
    Forall (fun c => index_of c <> None \/ c = pad) (encode_bytes bs).
Proof.
  intros bs H. rewrite encode_bytes_split. apply Forall_app. split.
  - apply Forall_forall. intros c Hc. apply in_map_iff in Hc.
    destruct Hc as (n & <- & Hn). left.
    pose proof (sextets_of_range bs H) as Hr. rewrite Forall_forall in Hr.
    rewrite (index_of_char_of n (Hr n Hn)). discriminate.
  - clear H. induction bs as [| a | a b | a b c rest IH] using list_ind3;
      cbn [padding_of]; repeat (apply Forall_cons; [now right|]);
      try apply Forall_nil; assumption.
Qed.

(** [encode] turns [n] bytes into [4 * ceil(n / 3)] characters, each a
    character of the base64 alphabet or the padding [=], and [atob] gives
    the bytes back. *)
Theorem encode_roundtrip :
  forall bytes : list Z,
    Forall is_byte bytes ->
    String.length (encode bytes) = (4 * ((List.length bytes + 2) / 3))%nat
    /\ Forall (fun c => index_of c <> None \/ c = pad)
         (list_ascii_of_string (encode bytes))
    /\ exists binary : string,
         atob (encode bytes) = Ok binary
         /\ map charCodeAt (list_ascii_of_string binary) = bytes.
Proof.
  intros bytes H.
  assert (Hmap : map charCodeAt
                   (list_ascii_of_string
                      (string_of_list_ascii (map fromCharCode bytes))) = bytes)
    by now apply bytes_of_binary.
  unfold encode, btoa. rewrite Hmap.
  split; [|split].
  - now rewrite length_string_of_list_ascii, encode_bytes_length_exact.
  - rewrite list_ascii_of_string_of_list_ascii. now apply encode_bytes_chars.
  - exists (string_of_list_ascii (map fromCharCode bytes)).
    split; [now apply atob_encode_bytes | assumption].
Qed.

(** An instance: four bytes, the last group padded. *)
Lemma encode_roundtrip_witness :
  String.length (encode [0; 128; 255; 7]) = 8%nat
  /\ Forall (fun c => index_of c <> None \/ c = pad)
       (list_ascii_of_string (encode [0; 128; 255; 7]))
  /\ exists binary : string,
       atob (encode [0; 128; 255; 7]) = Ok binary
       /\ map charCodeAt (list_ascii_of_string binary) = [0; 128; 255; 7].
Proof.
  apply (encode_roundtrip [0; 128; 255; 7]).
  unfold is_byte. repeat constructor; lia.
Defined.

Lemma ToInt16_pcm : forall v, is_int16 v -> ToInt16 (pcm v * 32768) = v.
Proof.
  intros v Hv. rewrite ToInt16_truncate.
  - unfold truncate, pcm, Qdiv, Qmult, Qinv, inject_Z. cbn.
    rewrite Z.mul_1_r. apply Z.quot_mul. discriminate.
  - unfold truncate, pcm, Qdiv, Qmult, Qinv, inject_Z. cbn.
    rewrite Z.mul_1_r, Z.quot_mul by discriminate. assumption.
Qed.

Lemma bytes_of_int16_of_bytes :
  forall lo hi, is_byte lo -> is_byte hi ->
    bytes_of_int16 (int16_of_bytes lo hi) = [lo; hi].
Proof.
  unfold is_byte, bytes_of_int16, int16_of_bytes. intros lo hi Hlo Hhi.
  destruct (Z.leb_spec 32768 (lo + 256 * hi)); repeat (f_equal; try zdm).
Qed.

Lemma Uint8Array_of_Int16Array_of :
  forall bytes l,
    Forall is_byte bytes -> Int16Array_of bytes = Ok l ->
    Uint8Array_of l = bytes /\ Forall is_int16 l.
Proof.
  induction bytes as [| a | lo hi rest IH] using list_ind2; intros l Hb E.
  - injection E as <-. split; constructor.
  - discriminate.
  - cbn [Int16Array_of] in E. repeat bytes_of_Forall Hb.
    destruct (Int16Array_of rest) as [r|] eqn:Er; [|discriminate].
    cbn [bind] in E. injection E as <-.
    destruct (IH r Hb eq_refl) as [IH1 IH2]. split.
    + cbn [Uint8Array_of flat_map]. fold (Uint8Array_of r).
      rewrite IH1, bytes_of_int16_of_bytes by assumption. reflexivity.
    + constructor; [now apply int16_of_bytes_is_int16 | assumption].
Qed.

Lemma binary_bytes : forall bin, Forall is_byte (map charCodeAt (list_ascii_of_string bin)).
Proof.
  intros bin. apply Forall_forall. intros b Hb. apply in_map_iff in Hb.
  destruct Hb as (c & <- & _). apply charCodeAt_is_byte.
Qed.

Lemma binary_of_bytes :
  forall bin,
    string_of_list_ascii (map fromCharCode (map charCodeAt (list_ascii_of_string bin)))
    = bin.
Proof.
  intros bin. rewrite map_map.
  rewrite (map_ext _ (fun c => c) fromCharCode_charCodeAt), map_id.
  apply string_of_list_ascii_of_string.
Qed.

(** Decoding an inbound payload and encoding the decoded samples again
    loses nothing: the packet [createBlob] builds from the decoded buffer is
    the base64 encoding of exactly the bytes of the payload. *)
Theorem createBlob_of_decoded :
  forall (base64 binaryString : string) (buf : AudioBuffer),
    atob base64 = Ok binaryString ->
    decodeAudioData base64 = Ok buf ->
    data (createBlob (channelData buf)) = btoa binaryString
    /\ atob (data (createBlob (channelData buf))) = Ok binaryString.
Proof.
  intros base64 bin buf Hatob Hdec.
  unfold decodeAudioData in Hdec. rewrite Hatob in Hdec. cbn [bind] in Hdec.
  destruct (Int16Array_of (map charCodeAt (list_ascii_of_string bin)))
    as [l|] eqn:El; [|discriminate].
  cbn [bind] in Hdec.
  destruct (createBuffer (List.length l) 24000) as [b|]; [|discriminate].
  cbn [bind] in Hdec. injection Hdec as <-. cbn [channelData].
  destruct (Uint8Array_of_Int16Array_of _ l (binary_bytes bin) El) as [Hu Hl].
  assert (E : data (createBlob (map pcm l)) = btoa bin).
  { unfold createBlob. cbn [data]. rewrite map_map.
    replace (map (fun x => ToInt16 (pcm x * 32768)) l) with l.
    - unfold encode. now rewrite Hu, binary_of_bytes.
    - clear El Hu. induction Hl as [|v l Hv _ IH]; [reflexivity|].
      cbn [map]. now rewrite <- IH, ToInt16_pcm. }
  split; [exact E | rewrite E; apply atob_btoa].
Qed.

(** An instance: a payload of two samples, without its padding. *)
Lemma createBlob_of_decoded_witness :
  data (createBlob
          (channelData {| sampleRate := 24000; channelData := [pcm 256; pcm (-1)] |}))
  = btoa (String "000" (String "001" (String "255" (String "255" ""))))
  /\ atob (data (createBlob
                  (channelData
                     {| sampleRate := 24000; channelData := [pcm 256; pcm (-1)] |})))
     = Ok (String "000" (String "001" (String "255" (String "255" "")))).
Proof.
  apply (createBlob_of_decoded "AAH//w"
           (String "000" (String "001" (String "255" (String "255" ""))))
           {| sampleRate := 24000; channelData := [pcm 256; pcm (-1)] |});
    reflexivity.
Defined.

(** [createBlob] does not clamp.  A sample [s] at or above full scale,
    [1 <= s < 2], goes into the packet as the two bytes of
    [floor (s * 32768) - 65536], and the decoder gives it back as that
    value over 32768: negative, in [-1, 0), below [s - 2] by less than one
    step. *)
Theorem createBlob_overdrive :
  forall (samples : list Q) (i : nat) (s : Q),
    nth_error samples i = Some s -> (1 <= s)%Q -> (s < 2)%Q ->
    let q := Qfloor (s * 32768) - 65536 in
    exists (binary : string) (buf : AudioBuffer) (r : Q),
      atob (data (createBlob samples)) = Ok binary
      /\ nth_error (map charCodeAt (list_ascii_of_string binary)) (2 * i)
         = Some (q mod 256)
      /\ nth_error (map charCodeAt (list_ascii_of_string binary)) (2 * i + 1)
         = Some (q / 256 + 256)
      /\ decodeAudioData (data (createBlob samples)) = Ok buf
      /\ nth_error (channelData buf) i = Some r
      /\ (r == inject_Z q / 32768)%Q
      /\ (-1 <= r)%Q /\ (r < 0)%Q
      /\ (r <= s - 2)%Q /\ (s - 2 < r + (1 # 32768))%Q.
Proof.
  intros samples i s Hi Hlo Hhi q.
  pose proof (Qfloor_le (s * 32768)) as F1.
  pose proof (Qlt_floor (s * 32768)) as F2.
  rewrite inject_Z_plus in F2. change (inject_Z 1) with 1%Q in F2.
  destruct (truncate_spec (s * 32768)) as [Hpos _].
  destruct Hpos as [H1 H2]; [lra|].
  assert (Et : truncate (s * 32768) = Qfloor (s * 32768)).
  { assert (A : (inject_Z (truncate (s * 32768))
                 < inject_Z (Qfloor (s * 32768) + 1))%Q)
      by (rewrite inject_Z_plus; change (inject_Z 1) with 1%Q; lra).
    assert (B : (inject_Z (Qfloor (s * 32768))
                 < inject_Z (truncate (s * 32768) + 1))%Q)
      by (rewrite inject_Z_plus; change (inject_Z 1) with 1%Q; lra).
    rewrite <- Zlt_Qlt in A, B. lia. }
  assert (H3 : (inject_Z 32767 < inject_Z (Qfloor (s * 32768)))%Q).
  { change (inject_Z 32767) with (32767 # 1). lra. }
  assert (H4 : (inject_Z (Qfloor (s * 32768)) < inject_Z 65536)%Q).
  { change (inject_Z 65536) with (65536 # 1). lra. }
  rewrite <- Zlt_Qlt in H3, H4.
  assert (G3 : (32768 <= inject_Z (Qfloor (s * 32768)))%Q).
  { apply Qle_trans with (inject_Z 32768); [apply Qle_refl|].
    rewrite <- Zle_Qle. lia. }
  assert (G4 : (inject_Z (Qfloor (s * 32768)) <= 65535)%Q).
  { apply Qle_trans with (inject_Z 65535); [|apply Qle_refl].
    rewrite <- Zle_Qle. lia. }
  assert (E : ToInt16 (s * 32768) = q).
  { unfold ToInt16, q. rewrite Et.
    destruct (Z.leb_spec 32768 (Qfloor (s * 32768) mod 65536)); zdm. }
  set (int16 := map (fun x => ToInt16 (x * 32768)%Q) samples).
  assert (Hn : nth_error int16 i = Some q).
  { unfold int16. rewrite nth_error_map, Hi. cbn [option_map]. now rewrite E. }
  destruct (Uint8Array_of_nth int16 i q Hn) as [B1 B2].
  exists (string_of_list_ascii (map fromCharCode (Uint8Array_of int16))).
  exists {| sampleRate := 24000; channelData := map roundtrip samples |}.
  exists (roundtrip s). cbn [channelData].
  assert (Er : (roundtrip s == inject_Z q / 32768)%Q).
  { unfold roundtrip. rewrite E. reflexivity. }
  split.
  { unfold createBlob. cbn [data]. fold int16.
    now apply atob_encode, Uint8Array_of_are_bytes. }
  rewrite bytes_of_binary by apply Uint8Array_of_are_bytes.
  split; [rewrite B1; f_equal; unfold q; zdm|].
  split; [rewrite B2; f_equal; unfold q; zdm|].
  split.
  { rewrite decodeAudioData_createBlob.
    destruct samples; [destruct i; discriminate | reflexivity]. }
  split; [now rewrite nth_error_map, Hi|].
  split; [exact Er|].
  assert (Eq : (inject_Z q / 32768
                == (inject_Z (Qfloor (s * 32768)) - 65536) * (1 # 32768))%Q).
  { unfold q, Z.sub. rewrite inject_Z_plus, inject_Z_opp.
    change (inject_Z 65536) with 65536%Q. unfold Qdiv.
    change (/ 32768)%Q with (1 # 32768)%Q. ring. }
  rewrite Er, Eq.
  repeat split; lra.
Qed.

(** An instance: the sample 3/2 comes back as -1/2. *)
Lemma createBlob_overdrive_witness :
  let q := Qfloor ((3 # 2) * 32768) - 65536 in
  exists (binary : string) (buf : AudioBuffer) (r : Q),
    atob (data (createBlob [0%Q; 3 # 2])) = Ok binary
    /\ nth_error (map charCodeAt (list_ascii_of_string binary)) (2 * 1)
       = Some (q mod 256)
    /\ nth_error (map charCodeAt (list_ascii_of_string binary)) (2 * 1 + 1)
       = Some (q / 256 + 256)
    /\ decodeAudioData (data (createBlob [0%Q; 3 # 2])) = Ok buf
    /\ nth_error (channelData buf) 1 = Some r
    /\ (r == inject_Z q / 32768)%Q
    /\ (-1 <= r)%Q /\ (r < 0)%Q
    /\ (r <= (3 # 2) - 2)%Q /\ ((3 # 2) - 2 < r + (1 # 32768))%Q.
Proof.
  apply (createBlob_overdrive [0%Q; 3 # 2] 1 (3 # 2)).
  - reflexivity.
  - unfold Qle; cbn; lia.
  - unfold Qlt; cbn; lia.
Defined.

Lemma atob_throws :
  forall base64 e, atob base64 = Throw e -> e = InvalidCharacterError.
Proof.
  intros base64 e. unfold atob.
  destruct (Nat.modulo _ 4 =? 1)%nat; [now intros [= <-]|].
  destruct (sextets _); [discriminate | now intros [= <-]].
Qed.

Lemma string_length_zero : forall s : string, String.length s = O -> s = ""%string.
Proof. intros [|c s] H; [reflexivity | discriminate]. Qed.

(** [decodeAudioData] after a successful [atob], by the parity of the byte
    count. *)
Lemma decodeAudioData_after_atob :
  forall base64 bin,
    atob base64 = Ok bin ->
    (Nat.even (String.length bin) = false
     /\ decodeAudioData base64 = Throw RangeError)
    \/ (bin = ""%string /\ decodeAudioData base64 = Throw NotSupportedError)
    \/ (Nat.even (String.length bin) = true /\ bin <> ""%string
        /\ exists buf, decodeAudioData base64 = Ok buf
                       /\ (2 * List.length (channelData buf))%nat = String.length bin
                       /\ sampleRate buf = 24000).
Proof.
  intros base64 bin Hatob. unfold decodeAudioData. rewrite Hatob. cbn [bind].
  rewrite <- length_list_ascii_of_string.
  rewrite <- (length_map charCodeAt).
  destruct (Nat.even (List.length (map charCodeAt (list_ascii_of_string bin))))
    eqn:Hev.
  - destruct (Int16Array_of_even _ (binary_bytes bin) Hev) as (l & E & _ & Hlen).
    rewrite E. cbn [bind]. right.
    destruct l as [|v l].
    + left. split; [|reflexivity].
      apply string_length_zero. rewrite <- length_list_ascii_of_string.
      rewrite length_map in Hlen. cbn in Hlen. lia.
    + right. split; [reflexivity|]. split.
      * intros ->. discriminate.
      * eexists. split; [reflexivity|]. cbn [channelData sampleRate createBuffer].
        rewrite length_map. now split.
  - left. split; [reflexivity|]. now rewrite Int16Array_of_odd.
Qed.

(** [decodeAudioData] returns a buffer exactly for the payloads that are
    base64 of a non-empty, even number of bytes. *)
Theorem decodeAudioData_ok_iff :
  forall base64 : string,
    (exists buf, decodeAudioData base64 = Ok buf)
    <-> (exists bin, atob base64 = Ok bin /\ bin <> ""%string
                     /\ Nat.even (String.length bin) = true).
Proof.
  intros base64. split.
  - intros [buf Hdec].
    destruct (atob base64) as [bin|e] eqn:Hatob.
    + exists bin. split; [reflexivity|].
      destruct (decodeAudioData_after_atob base64 bin Hatob)
        as [[_ H] | [[_ H] | (Hev & Hne & _)]]; try congruence.
      now split.
    + unfold decodeAudioData in Hdec. rewrite Hatob in Hdec. discriminate.
  - intros (bin & Hatob & Hne & Hev).
    destruct (decodeAudioData_after_atob base64 bin Hatob)
      as [[H _] | [[H _] | (_ & _ & buf & Hbuf & _)]]; try congruence.
    now exists buf.
Qed.

(** When [decodeAudioData] throws it is for one of three reasons: the
    payload is not base64 ([InvalidCharacterError] from [atob]), it decodes
    to an odd number of bytes ([RangeError] from the 16-bit view), or it
    decodes to no byte at all ([NotSupportedError] from [createBuffer]). *)
Theorem decodeAudioData_failures :
  forall (base64 : string) (e : Exn),
    decodeAudioData base64 = Throw e ->
    (e = InvalidCharacterError /\ atob base64 = Throw InvalidCharacterError)
    \/ (e = RangeError
        /\ exists bin, atob base64 = Ok bin
                       /\ Nat.even (String.length bin) = false)
    \/ (e = NotSupportedError /\ atob base64 = Ok ""%string).
Proof.
  intros base64 e Hdec.
  destruct (atob base64) as [bin|e'] eqn:Hatob.
  - destruct (decodeAudioData_after_atob base64 bin Hatob)
      as [[Hodd H] | [[-> H] | (_ & _ & buf & Hbuf & _)]]; try congruence.
    + right; left. split; [congruence|]. now exists bin.
    + right; right. split; [congruence | reflexivity].
  - left. pose proof (atob_throws base64 e' Hatob) as ->.
    unfold decodeAudioData in Hdec. rewrite Hatob in Hdec.
    cbn [bind] in Hdec. split; [congruence | reflexivity].
Qed.

(** An instance: one byte, which cannot be viewed as 16-bit samples. *)
Lemma decodeAudioData_failures_witness :
  (RangeError = InvalidCharacterError /\ atob "AA==" = Throw InvalidCharacterError)
  \/ (RangeError = RangeError
      /\ exists bin, atob "AA==" = Ok bin
                     /\ Nat.even (String.length bin) = false)
  \/ (RangeError = NotSupportedError /\ atob "AA==" = Ok ""%string).
Proof.
  apply (decodeAudioData_failures "AA==" RangeError). reflexivity.
Defined.

(** A decoded chunk lasts its byte count over 48000 seconds (two bytes a
    frame, 24000 frames a second), and that is more than nothing. *)
Theorem decodeAudioData_duration :
  forall (base64 binaryString : string) (buf : AudioBuffer),
    atob base64 = Ok binaryString ->
    decodeAudioData base64 = Ok buf ->
    (duration buf == Z.of_nat (String.length binaryString) # 48000)%Q
    /\ (0 < duration buf)%Q.
Proof.
  intros base64 bin buf Hatob Hdec.
  destruct (decodeAudioData_after_atob base64 bin Hatob)
    as [[_ H] | [[_ H] | (_ & Hne & buf' & Hbuf & Hlen & Hrate)]];
    try congruence.
  assert (buf' = buf) by congruence. subst buf'.
  assert (Hpos : (0 < String.length bin)%nat).
  { destruct bin; [contradiction | cbn; lia]. }
  unfold duration. rewrite Hrate, <- Hlen.
  set (n := List.length (channelData buf)) in *.
  unfold Qdiv, Qmult, Qinv, Qeq, Qlt, inject_Z. cbn. lia.
Qed.

(** An instance: twelve bytes are six frames, a quarter of a millisecond. *)
Lemma decodeAudioData_duration_witness :
  (duration {| sampleRate := 24000; channelData := repeat (pcm 0) 6 |}
   == Z.of_nat (String.length (string_of_list_ascii (repeat "000"%char 12))) # 48000)%Q
  /\ (0 < duration {| sampleRate := 24000; channelData := repeat (pcm 0) 6 |})%Q.
Proof.
  apply (decodeAudioData_duration "AAAAAAAAAAAAAAAA"
           (string_of_list_ascii (repeat "000"%char 12))
           {| sampleRate := 24000; channelData := repeat (pcm 0) 6 |});
    reflexivity.
Defined.

End Codec.

(** ** The active set along a session *)

Section ActiveSet.

Lemma FOP_snoc :
  forall (A : Type) (R : A -> A -> Prop) l x,
    ForallOrdPairs R l -> Forall (fun u => R u x) l ->
    ForallOrdPairs R (l ++ [x]).
Proof.
  intros A R l x H. induction H as [|a l Ha _ IH]; intros Hx; cbn [app].
  - constructor; constructor.
  - constructor.
    + apply Forall_app. split; [assumption|].
      constructor; [exact (Forall_inv Hx) | constructor].
    + apply IH. exact (Forall_inv_tail Hx).
Qed.

Lemma FOP_filter :
  forall (A : Type) (R : A -> A -> Prop) f l,
    ForallOrdPairs R l -> ForallOrdPairs R (filter f l).
Proof.
  intros A R f l H. induction H as [|a l Ha _ IH]; cbn [filter].
  - constructor.
  - destruct (f a); [|assumption]. constructor; [|assumption].
    apply Forall_forall. intros x Hx. apply filter_In in Hx.
    rewrite Forall_forall in Ha. now apply Ha.
Qed.

Lemma Forall_filter :
  forall (A : Type) (P : A -> Prop) f l, Forall P l -> Forall P (filter f l).
Proof.
  intros A P f l H. apply Forall_forall. intros x Hx.
  apply filter_In in Hx. rewrite Forall_forall in H. now apply H.
Qed.

Lemma NoDup_map_filter :
  forall (A B : Type) (g : A -> B) f l,
    NoDup (map g l) -> NoDup (map g (filter f l)).
Proof.
  intros A B g f l. induction l as [|a l IH]; intros H; cbn [filter map] in *.
  - constructor.
  - inversion_clear H as [|? ? Hn Hd]. destruct (f a); [|now apply IH].
    cbn [map]. constructor; [|now apply IH].
    intros Hin. apply Hn. apply in_map_iff in Hin.
    destruct Hin as (x & Hx & Hf). apply filter_In in Hf.
    apply in_map_iff. exists x. now split.
Qed.

Lemma readings_True : forall evs, Forall (readings (fun _ => True)) evs.
Proof.
  intros evs. apply Forall_forall. intros ev _.
  destruct ev as [| | | | | | | | |k c]; try exact I. destruct c; exact I.
Qed.

Lemma playAudio_nodes_ok :
  forall base64 now s,
    holds nodes_ok s -> holds nodes_ok (snd (playAudio base64 now s)).
Proof.
  intros base64 now s [H3 H4]. unfold playAudio.
  destruct (outputContext s); [|now split].
  destruct (decodeAudioData base64) as [buf|e]; cbn [snd]; [|now split].
  unfold holds, nodes_ok. cbn [sources nextNode set_playback].
  rewrite Forall_forall in H4. split.
  - rewrite map_app. cbn [map node]. apply NoDup_app; [assumption| |].
    + constructor; [intros [] | constructor].
    + intros a Ha [<- | []]. apply in_map_iff in Ha.
      destruct Ha as (u & Hu & Hin). specialize (H4 u Hin). lia.
  - apply Forall_app. split.
    + apply Forall_forall. intros u Hu. specialize (H4 u Hu). lia.
    + constructor; [cbn; lia | constructor].
Qed.

(** In every state a session can reach, every node is in the active set
    once. *)
Lemma run_nodes_ok :
  forall evs s, holds nodes_ok s -> holds nodes_ok (snd (run evs s)).
Proof.
  intros evs s H.
  apply run_holds with (R := fun _ : Q => True).
  - intros base64 now s0 _. apply playAudio_nodes_ok.
  - intros f l w n [H3 H4]. split;
      [now apply NoDup_map_filter | now apply Forall_filter].
  - intros l w n _. split; constructor.
  - apply readings_True.
  - exact H.
Qed.

Lemma before_raise :
  forall u t t', before u t -> (t <= t')%Q -> before u t'.
Proof.
  intros u t t' [H1 H2] Ht. split; [now apply Qle_trans with t|].
  apply Qle_trans with (unit_end u - t)%Q; [|assumption].
  apply Qplus_le_compat; [apply Qle_refl|]. now apply Qopp_le_compat.
Qed.

Lemma playAudio_scheduled_ok :
  forall base64 now s,
    is_double now ->
    holds scheduled_ok s -> holds scheduled_ok (snd (playAudio base64 now s)).
Proof.
  intros base64 now s Hnow (Hd & H0 & H1 & H2). unfold playAudio.
  destruct (outputContext s); [|now repeat split].
  pose proof (Q.le_max_l (nextStartTime s) now) as Hmax.
  assert (Ht : is_double (Qmax (nextStartTime s) now))
    by now apply is_double_max.
  assert (Ht0 : (0 <= Qmax (nextStartTime s) now)%Q)
    by now apply Qle_trans with (nextStartTime s).
  assert (Hraise : Forall (fun u => before u (Qmax (nextStartTime s) now))
                     (sources s)).
  { apply Forall_forall. intros u Hu. rewrite Forall_forall in H2.
    apply before_raise with (nextStartTime s); auto. }
  destruct (decodeAudioData base64) as [buf|e] eqn:E; cbn [snd];
    unfold holds, scheduled_ok; cbn [sources nextStartTime set_playback].
  - destruct (double_sum_bounds _ _ Ht Ht0 (duration_frame _ _ E))
      as [Hge Herr].
    split; [apply double_idempotent|].
    split; [now apply Qle_trans with (Qmax (nextStartTime s) now)|].
    split; [now apply FOP_snoc|].
    apply Forall_app. split.
    + apply Forall_forall. intros u Hu. rewrite Forall_forall in Hraise.
      apply before_raise with (Qmax (nextStartTime s) now); auto.
    + constructor; [|constructor]. split; [exact Hge|].
      unfold unit_end. cbn [startTime buffer].
      apply Qabs_Qle_condition in Herr. destruct Herr as [Herr _].
      generalize dependent (double (Qmax (nextStartTime s) now
                                    + double (duration buf))).
      intros w' _ Herr. lra.
  - now repeat split.
Qed.

(** In every state a session can reach on double clock readings, the
    active set and the watermark are as [scheduled_ok] says. *)
Lemma run_scheduled_ok :
  forall evs s,
    Forall (readings is_double) evs ->
    holds scheduled_ok s -> holds scheduled_ok (snd (run evs s)).
Proof.
  intros evs s Hr H.
  apply run_holds with (R := is_double); try assumption.
  - apply playAudio_scheduled_ok.
  - intros f l w n (Hd & H0 & H1 & H2). repeat split; try assumption;
      [now apply FOP_filter | now apply Forall_filter].
  - intros l w n (Hd & H0 & _). repeat split; try assumption; constructor.
Qed.

(** From the constructor on the watermark is a double and not negative,
    whatever the events were, their clock readings being doubles. *)
Lemma run_watermark_double :
  forall evs : list Event,
    Forall (readings is_double) evs ->
    is_double (nextStartTime (snd (run evs new_session)))
    /\ (0 <= nextStartTime (snd (run evs new_session)))%Q.
Proof.
  intros evs Hr.
  assert (H : holds scheduled_ok (snd (run evs new_session))).
  { apply run_scheduled_ok; [assumption|].
    repeat split; try constructor. discriminate. }
  destruct H as (H1 & H2 & _). now split.
Qed.

(** Whatever the events of a session were, its clock readings being
    doubles, the units in its active set start in the order they were
    scheduled and overlap by no more than the rounding of the watermark: a
    unit outlasts the start of a later one, and the watermark, by at most
    [3 * 2^-53] of the instant it ends. *)
Theorem active_set_overlap_bounded :
  forall evs : list Event,
    Forall (readings is_double) evs ->
    let s := snd (run evs new_session) in
    ForallOrdPairs
      (fun u v => (startTime u <= startTime v)%Q
                  /\ (unit_end u - startTime v <= rounding * unit_end u)%Q)
      (sources s)
    /\ Forall
         (fun u => (startTime u <= nextStartTime s)%Q
                   /\ (unit_end u - nextStartTime s <= rounding * unit_end u)%Q)
         (sources s).
Proof.
  intros evs Hr s.
  assert (H : holds scheduled_ok s).
  { apply run_scheduled_ok; [assumption|].
    repeat split; try constructor. discriminate. }
  destruct H as (_ & _ & H1 & H2). now split.
Qed.

(** An instance: three chunks, the last after the watermark has been
    passed. *)
Lemma active_set_overlap_bounded_witness :
  let evs := [Connect (Some [7%nat]); ChannelOpen; SessionSettled true;
              ChannelMessage (audio_message "AAA=") (1 # 8);
              ChannelMessage (audio_message "AAAAAA==") (1 # 8);
              ChannelMessage (audio_message "AAA=") 1] in
  let s := snd (run evs new_session) in
  ForallOrdPairs
    (fun u v => (startTime u <= startTime v)%Q
                /\ (unit_end u - startTime v <= rounding * unit_end u)%Q)
    (sources s)
  /\ Forall
       (fun u => (startTime u <= nextStartTime s)%Q
                 /\ (unit_end u - nextStartTime s <= rounding * unit_end u)%Q)
       (sources s).
Proof.
  intros evs. apply (active_set_overlap_bounded evs).
  repeat (constructor; [try exact I; vm_compute; reflexivity|]).
  constructor.
Defined.

Lemma NoDup_map_injective :
  forall (A B : Type) (g : A -> B) l x y,
    NoDup (map g l) -> In x l -> In y l -> g x = g y -> x = y.
Proof.
  intros A B g l x y. induction l as [|a l IH]; intros Hd Hx Hy E; [destruct Hx|].
  cbn [map] in Hd. inversion_clear Hd as [|? ? Hn Hd'].
  destruct Hx as [-> | Hx], Hy as [-> | Hy]; auto.
  - exfalso. apply Hn. rewrite E. now apply in_map.
  - exfalso. apply Hn. rewrite <- E. now apply in_map.
Qed.

Lemma filter_one_out :
  forall l u,
    NoDup (map node l) -> In u l ->
    S (List.length (filter (fun v => negb (Nat.eqb (node v) (node u))) l))
    = List.length l.
Proof.
  induction l as [|a l IH]; intros u Hd Hin; [destruct Hin|].
  cbn [map] in Hd. inversion_clear Hd as [|? ? Hn Hd'].
  cbn [filter List.length]. destruct Hin as [-> | Hin].
  - rewrite Nat.eqb_refl. cbn [negb]. f_equal.
    clear IH Hd'. induction l as [|b l IH]; [reflexivity|].
    cbn [filter map] in *.
    destruct (Nat.eqb_spec (node b) (node u)) as [E | E].
    + exfalso. apply Hn. left. assumption.
    + cbn [negb List.length]. f_equal. apply IH. intros H. apply Hn. now right.
  - destruct (Nat.eqb_spec (node a) (node u)) as [E | E].
    + exfalso. apply Hn. rewrite E. now apply in_map.
    + cbn [negb List.length]. f_equal. now apply IH.
Qed.

(** In every state a session can reach, the ['ended'] signal of a unit of
    the active set removes that unit and no other: the set loses exactly
    one element and every other unit stays. *)
Theorem ended_removes_one :
  forall (evs : list Event) (u : AudioBufferSourceNode),
    let s := snd (run evs new_session) in
    In u (sources s) ->
    ~ In u (sources (ended (node u) s))
    /\ (forall v, In v (sources s) -> v <> u -> In v (sources (ended (node u) s)))
    /\ S (List.length (sources (ended (node u) s))) = List.length (sources s).
Proof.
  intros evs u s Hin.
  assert (H : holds nodes_ok s).
  { apply run_nodes_ok. split; constructor. }
  destruct H as [Hd _].
  unfold ended. cbn [sources set_playback]. repeat split.
  - intros Hu. apply filter_In in Hu. destruct Hu as [_ Hu].
    now rewrite Nat.eqb_refl in Hu.
  - intros v Hv Hne. apply filter_In. split; [assumption|].
    destruct (Nat.eqb_spec (node v) (node u)) as [E | E]; [|reflexivity].
    exfalso. apply Hne. now apply (NoDup_map_injective _ _ node (sources s)).
  - now apply filter_one_out.
Qed.

(** An instance: two chunks scheduled, the first one ends. *)
Lemma ended_removes_one_witness :
  let evs := [Connect (Some [7%nat]); ChannelOpen; SessionSettled true;
              ChannelMessage (audio_message "AAA=") 0;
              ChannelMessage (audio_message "AAAAAA==") 0] in
  let u := {| node := 0%nat;
              buffer := {| sampleRate := 24000; channelData := [pcm 0] |};
              startTime := Qmax 0 0 |} in
  let s := snd (run evs new_session) in
  ~ In u (sources (ended (node u) s))
  /\ (forall v, In v (sources s) -> v <> u -> In v (sources (ended (node u) s)))
  /\ S (List.length (sources (ended (node u) s))) = List.length (sources s).
Proof.
  intros evs u.
  apply (ended_removes_one evs u). left. reflexivity.
Defined.

End ActiveSet.

(** ** Sequences of events *)

Section Sequences.

Lemma run_app :
  forall a b s,
    run (a ++ b) s
    = (fst (run a s) ++ fst (run b (snd (run a s))), snd (run b (snd (run a s)))).
Proof.
  induction a as [|ev a IH]; intros b s; cbn [app run].
  - cbn [fst snd app]. now destruct (run b s).
  - destruct (step ev s) as [e1 s1]. rewrite IH.
    destruct (run a s1) as [e2 s2]. cbn [fst snd].
    destruct (run b s2) as [e3 s3]. cbn [fst snd]. now rewrite app_assoc.
Qed.

Lemma run_cons :
  forall ev evs s,
    run (ev :: evs) s
    = (fst (step ev s) ++ fst (run evs (snd (step ev s))),
       snd (run evs (snd (step ev s)))).
Proof.
  intros ev evs s. cbn [run]. destruct (step ev s) as [e1 s1].
  cbn [fst snd]. now destruct (run evs s1).
Qed.

Lemma decodes_nonempty :
  forall base64 buf, decodeAudioData base64 = Ok buf -> String.eqb base64 "" = false.
Proof.
  intros base64 buf H. destruct (String.eqb_spec base64 ""); [|reflexivity].
  subst. discriminate.
Qed.

Lemma handleMessage_audio :
  forall base64 k now s buf,
    promise_state k s = Some Fulfilled -> outputContext s <> None ->
    decodeAudioData base64 = Ok buf ->
    handleMessage (audio_message base64) k now s
    = (fst (playAudio base64 now s), snd (playAudio base64 now s), Returned).
Proof.
  intros base64 k now s buf Hconn Hctx Hdec.
  unfold handleMessage, audio_message. cbn [inlineData toolCall].
  rewrite (decodes_nonempty base64 buf Hdec).
  pose proof (promise_state_playAudio base64 now s k) as Hk.
  destruct (outputContext s); [|contradiction].
  destruct (playAudio base64 now s) as [audio s1]. cbn [snd] in Hk.
  unfold then_. rewrite Hk, Hconn.
  cbn [map fst snd app]. now rewrite app_nil_r.
Qed.

(** An inbound message on the channel of the latest [connect()]. *)
Lemma step_message :
  forall m now s,
    step (ChannelMessage m now) s
    = match session s with
      | Some _ => fst (handleMessage m (latest s) now s)
      | None => ([], s)
      end.
Proof.
  intros m now s. cbn [step]. unfold callback.
  now rewrite promise_state_latest.
Qed.

Lemma Qmax_left : forall x y : Q, (y <= x)%Q -> Qmax x y = x.
Proof.
  intros x y H. unfold Qmax, GenericMinMax.gmax.
  destruct (Qcompare_spec x y) as [E|E|E]; try reflexivity.
  exfalso. apply (Qlt_irrefl x). now apply Qlt_le_trans with y.
Qed.

(** The watermark after a burst is within [2^-51] per chunk of the exact
    sum of the durations. *)
Lemma burst_error :
  forall chunks w,
    is_double w -> (0 <= w)%Q ->
    Forall (fun c => exists buf, decodeAudioData (fst c) = Ok buf) chunks ->
    (w <= burst w chunks)%Q
    /\ (Qabs (burst w chunks - (w + total_duration chunks))
        <= inject_Z (Z.of_nat (List.length chunks)) * (1 # 2251799813685248)
           * burst w chunks)%Q.
Proof.
  induction chunks as [|[b now] chunks IH]; intros w Hd H0 Hall.
  - cbn [burst total_duration fold_right List.length]. split; [apply Qle_refl|].
    apply Qabs_Qle_condition. change (inject_Z (Z.of_nat 0)) with 0%Q.
    split; lra.
  - pose proof (Forall_inv Hall) as [buf Hdec]. cbn [fst] in Hdec.
    pose proof (Forall_inv_tail Hall) as Hrest.
    cbn [burst total_duration fold_right fst List.length].
    fold (total_duration chunks).
    assert (Ea : advance w b = double (w + double (duration buf))).
    { unfold advance, chunk_duration. now rewrite Hdec. }
    assert (Ec : chunk_duration b = duration buf).
    { unfold chunk_duration. now rewrite Hdec. }
    rewrite Ea, Ec.
    destruct (double_sum_bounds w (duration buf) Hd H0
                (duration_frame b buf Hdec)) as [Hge Herr].
    pose proof (duration_frame b buf Hdec) as Hframe.
    set (w1 := double (w + double (duration buf))) in *.
    assert (Hd1 : is_double w1) by apply double_idempotent.
    assert (H1 : (0 <= w1)%Q) by lra.
    destruct (IH w1 Hd1 H1 Hrest) as [IH1 IH2].
    split; [lra|].
    rewrite Nat2Z.inj_succ. unfold Z.succ. rewrite inject_Z_plus.
    change (inject_Z 1) with 1%Q.
    setoid_replace ((inject_Z (Z.of_nat (List.length chunks)) + 1)
                    * (1 # 2251799813685248) * burst w1 chunks)%Q
      with (inject_Z (Z.of_nat (List.length chunks))
            * (1 # 2251799813685248) * burst w1 chunks
            + (1 # 2251799813685248) * burst w1 chunks)%Q by ring.
    apply Qabs_Qle_condition in Herr, IH2. apply Qabs_Qle_condition.
    unfold rounding in Herr.
    generalize dependent (inject_Z (Z.of_nat (List.length chunks))
                          * (1 # 2251799813685248) * burst w1 chunks)%Q.
    intros T IH2.
    generalize dependent (burst w1 chunks). intros W IH1 IH2.
    generalize dependent (total_duration chunks). intros S IH2.
    clearbody w1. clear - Herr IH1 IH2 H0 Hframe H1.
    generalize dependent (duration buf). intros d Herr Hframe.
    split; lra.
Qed.

(** Chunks that each arrive while the output clock has not passed the
    watermark of that moment are queued one behind the other: every unit
    starts exactly at the watermark the chunk before it left, the active
    set grows by one unit per chunk, and the watermark ends as the initial
    one advanced by each duration in turn, in double arithmetic; when the
    initial watermark is a double and not negative this is within [2^-51]
    per chunk of the exact sum of the durations. *)
Theorem burst_watermark :
  forall (chunks : list (string * Q)) (s : LuminaSession),
    Connected s -> outputContext s <> None ->
    Forall (fun c => exists buf, decodeAudioData (fst c) = Ok buf) chunks ->
    in_time (nextStartTime s) chunks ->
    let s' := snd (run (chunk_events chunks) s) in
    nextStartTime s' = burst (nextStartTime s) chunks
    /\ map startTime (sources s')
       = map startTime (sources s) ++ burst_starts (nextStartTime s) chunks
    /\ List.length (sources s') = (List.length (sources s) + List.length chunks)%nat
    /\ (is_double (nextStartTime s) -> (0 <= nextStartTime s)%Q ->
        (Qabs (nextStartTime s' - (nextStartTime s + total_duration chunks))
         <= inject_Z (Z.of_nat (List.length chunks)) * (1 # 2251799813685248)
            * nextStartTime s')%Q).
Proof.
  assert (H : forall chunks s,
             Connected s -> outputContext s <> None ->
             Forall (fun c => exists buf, decodeAudioData (fst c) = Ok buf) chunks ->
             in_time (nextStartTime s) chunks ->
             let s' := snd (run (chunk_events chunks) s) in
             nextStartTime s' = burst (nextStartTime s) chunks
             /\ map startTime (sources s')
                = map startTime (sources s) ++ burst_starts (nextStartTime s) chunks).
  { induction chunks as [|[b now] chunks IH]; intros s Hconn Hctx Hall Htime s'.
    - unfold s'. cbn [chunk_events map run snd burst burst_starts].
      now rewrite app_nil_r.
    - pose proof (Forall_inv Hall) as [buf Hdec]. cbn [fst] in Hdec.
      pose proof (Forall_inv_tail Hall) as Hrest.
      destruct Htime as [Hnow Htime]. cbn [fst snd] in Hnow, Htime.
      assert (Ea : advance (nextStartTime s) b
                   = double (nextStartTime s + double (duration buf))).
      { unfold advance, chunk_duration. now rewrite Hdec. }
      set (s1 := set_playback s (advance (nextStartTime s) b)
                   (sources s ++ [{| node := nextNode s; buffer := buf;
                                     startTime := nextStartTime s |}])
                   (S (nextNode s))).
      assert (Es' : s' = snd (run (chunk_events chunks) s1)).
      { unfold s', chunk_events. cbn [map run fst snd].
        rewrite step_message. unfold Connected in Hconn. rewrite Hconn.
        rewrite (handleMessage_audio b (latest s) now s buf); try assumption;
          [|now rewrite promise_state_latest].
        cbn [fst]. rewrite (playAudio_ok b now s buf Hctx Hdec).
        rewrite (Qmax_left _ _ Hnow), <- Ea. fold s1.
        cbn [fst snd]. now destruct (run _ s1). }
      destruct (IH s1) as [IH1 IH2]; try assumption.
      rewrite Es'. split.
      + rewrite IH1. reflexivity.
      + rewrite IH2. unfold s1.
        cbn [sources nextStartTime set_playback burst_starts fst].
        rewrite map_app. cbn [map startTime]. now rewrite <- app_assoc. }
  intros chunks s Hconn Hctx Hall Htime s'.
  destruct (H chunks s Hconn Hctx Hall Htime) as [H1 H2]. fold s' in H1, H2.
  split; [assumption|]. split; [assumption|]. split.
  - rewrite <- (length_map startTime), H2, length_app, length_map.
    f_equal. clear. generalize (nextStartTime s).
    induction chunks as [|c chunks IH]; intros w; [reflexivity|].
    cbn [burst_starts List.length]. now rewrite IH.
  - intros Hd H0. rewrite H1. now apply burst_error.
Qed.

(** An instance: three chunks, the second and the third arriving after the
    initial watermark but before the watermark of their moment. *)
Lemma burst_watermark_witness :
  let chunks := [("AAA="%string, 0%Q); ("AAAAAA=="%string, 1 # 48000);
                 ("AAA="%string, 1 # 8000)] in
  let s := connected_session in
  let s' := snd (run (chunk_events chunks) s) in
  nextStartTime s' = burst (nextStartTime s) chunks
  /\ map startTime (sources s')
     = map startTime (sources s) ++ burst_starts (nextStartTime s) chunks
  /\ List.length (sources s') = (List.length (sources s) + List.length chunks)%nat
  /\ (is_double (nextStartTime s) -> (0 <= nextStartTime s)%Q ->
      (Qabs (nextStartTime s' - (nextStartTime s + total_duration chunks))
       <= inject_Z (Z.of_nat (List.length chunks)) * (1 # 2251799813685248)
          * nextStartTime s')%Q).
Proof.
  intros chunks.
  apply (burst_watermark chunks connected_session).
  - reflexivity.
  - discriminate.
  - repeat constructor; cbn [fst]; eexists; reflexivity.
  - vm_compute. repeat split; discriminate.
Defined.

Lemma onaudioprocess_fulfilled :
  forall inputData s k,
    inputProcessor s = Some k -> promise_state k s = Some Fulfilled ->
    onaudioprocess inputData s = ([SendRealtimeInput (createBlob inputData)], s).
Proof.
  intros inputData s k Hp Hk. unfold onaudioprocess, then_.
  now rewrite Hp, Hk.
Qed.

(** While the session promise its processor was created with is fulfilled,
    every capture callback sends exactly one packet, the encoding of its
    frame, the packets go out in the order of the frames, and capturing
    changes nothing in the session; this holds whatever [this.session]
    refers to by then. *)
Theorem capture_in_order :
  forall (frames : list (list Q)) (s : LuminaSession) (sessionPromise : nat),
    inputProcessor s = Some sessionPromise ->
    promise_state sessionPromise s = Some Fulfilled ->
    run (map AudioProcess frames) s
    = (map (fun inputData => SendRealtimeInput (createBlob inputData)) frames, s).
Proof.
  induction frames as [|f frames IH]; intros s k Hp Hk; [reflexivity|].
  cbn [map run step]. rewrite (onaudioprocess_fulfilled f s k Hp Hk).
  now rewrite (IH s k Hp Hk).
Qed.

(** An instance: two frames captured after [connect()] was called again,
    the first channel open and its promise fulfilled, the second promise
    pending. *)
Lemma capture_in_order_witness :
  session reconnected_session = Some Pending
  /\ run (map AudioProcess [[0%Q; 1 # 2]; [(-1)%Q]]) reconnected_session
     = (map (fun inputData => SendRealtimeInput (createBlob inputData))
          [[0%Q; 1 # 2]; [(-1)%Q]],
        reconnected_session).
Proof.
  split; [reflexivity|].
  apply (capture_in_order [[0%Q; 1 # 2]; [(-1)%Q]] reconnected_session 0).
  - reflexivity.
  - reflexivity.
Defined.

Lemma length_replace_nth :
  forall (A : Type) k (x : A) l,
    List.length (replace_nth k x l) = List.length l.
Proof.
  intros A k x l. revert k.
  induction l as [|a l IH]; intros [|k]; cbn [replace_nth List.length]; auto.
Qed.

Lemma nth_error_replace_nth :
  forall (A : Type) k (x : A) l,
    (k < List.length l)%nat -> nth_error (replace_nth k x l) k = Some x.
Proof.
  intros A k x l. revert k.
  induction l as [|a l IH]; intros [|k] H; cbn [replace_nth nth_error List.length] in *;
    try lia; auto.
  apply IH. lia.
Qed.

(** A promise that exists is the latest one or an earlier one. *)
Lemma promise_exists :
  forall k s,
    promise_state k s <> None ->
    Nat.eqb k (List.length (earlier s)) = true
    \/ Nat.eqb k (List.length (earlier s)) = false
       /\ (k < List.length (earlier s))%nat.
Proof.
  intros k s. unfold promise_state, latest.
  destruct (Nat.eqb k (List.length (earlier s))); [now left|].
  intros H. right. split; [reflexivity|].
  apply nth_error_Some. intros E. rewrite E in H. now apply H.
Qed.

Lemma set_promise_facts :
  forall k p rs s,
    promise_state k s <> None ->
    promise_state k (set_promise k p rs s) = Some p
    /\ waiting k (set_promise k p rs s) = rs
    /\ inputProcessor (set_promise k p rs s) = inputProcessor s.
Proof.
  intros k p rs s H.
  destruct (promise_exists k s H) as [E | [E Hk]];
    unfold set_promise, promise_state, waiting, latest; rewrite E;
    cbn [earlier set_session set_earlier session reactions inputProcessor].
  - rewrite E. now repeat split.
  - rewrite length_replace_nth, E, nth_error_replace_nth by assumption.
    now repeat split.
Qed.

Lemma run_capture_pending :
  forall frames s k,
    inputProcessor s = Some k -> promise_state k s = Some Pending ->
    fst (run (map AudioProcess frames) s) = []
    /\ inputProcessor (snd (run (map AudioProcess frames) s)) = Some k
    /\ promise_state k (snd (run (map AudioProcess frames) s)) = Some Pending
    /\ waiting k (snd (run (map AudioProcess frames) s))
       = waiting k s ++ map (fun f => Send (RealtimeInput (createBlob f))) frames.
Proof.
  induction frames as [|f frames IH]; intros s k Hp Hk.
  - cbn [map run fst snd]. now rewrite app_nil_r.
  - cbn [map run step]. unfold onaudioprocess, then_. rewrite Hp, Hk.
    set (s1 := set_promise k Pending _ s).
    destruct (set_promise_facts k Pending
                (waiting k s ++ map Send [RealtimeInput (createBlob f)]) s)
      as (F1 & F2 & F3); [rewrite Hk; discriminate|].
    fold s1 in F1, F2, F3. rewrite Hp in F3.
    destruct (IH s1 k F3 F1) as (I1 & I2 & I3 & I4).
    destruct (run (map AudioProcess frames) s1) as [e2 s2].
    cbn [fst snd app] in *. repeat split; try assumption.
    rewrite I4, F2. cbn [map]. now rewrite <- app_assoc.
Qed.

Lemma run_reactions_sends :
  forall ms s,
    run_reactions (map Send ms) s = (map send ms, s).
Proof.
  induction ms as [|m ms IH]; intros s; [reflexivity|].
  cbn [map run_reactions]. now rewrite IH.
Qed.

(** Frames captured while the session promise their processor was created
    with is still pending are not sent at once and not lost: they wait, and
    go out in capture order when that promise is fulfilled.  When it is
    rejected they are never sent. *)
Theorem capture_while_connecting :
  forall (frames : list (list Q)) (s : LuminaSession) (sessionPromise : nat),
    inputProcessor s = Some sessionPromise ->
    promise_state sessionPromise s = Some Pending ->
    waiting sessionPromise s = [] ->
    fst (run (map AudioProcess frames) s) = []
    /\ fst (run (map AudioProcess frames
                 ++ [Channel sessionPromise (OnSettled true)]) s)
       = map (fun f => SendRealtimeInput (createBlob f)) frames
    /\ forall later : list (list Q),
         fst (run (map AudioProcess frames
                   ++ [Channel sessionPromise (OnSettled false)]
                   ++ map AudioProcess later) s) = [].
Proof.
  intros frames s k Hp Hk Hw.
  destruct (run_capture_pending frames s k Hp Hk) as (E1 & E2 & E3 & E4).
  rewrite Hw in E4. cbn [app] in E4.
  split; [assumption|]. split.
  - rewrite run_app, E1. cbn [app run step fst snd].
    unfold callback, settle. rewrite E3, E4.
    rewrite <- (map_map (fun f => RealtimeInput (createBlob f)) Send).
    rewrite run_reactions_sends. cbn [fst app]. rewrite app_nil_r.
    now rewrite map_map.
  - intros later. rewrite run_app, E1. cbn [app run step fst snd].
    unfold callback, settle. rewrite E3.
    set (s1 := set_promise k Rejected [] _).
    destruct (set_promise_facts k Rejected []
                (snd (run (map AudioProcess frames) s)))
      as (F1 & _ & F3); [rewrite E3; discriminate|].
    fold s1 in F1, F3. rewrite E2 in F3.
    assert (Hl : forall l, run (map AudioProcess l) s1 = ([], s1)).
    { induction l as [|f l IH]; [reflexivity|].
      cbn [map run step]. unfold onaudioprocess, then_.
      rewrite F3, F1. now rewrite IH. }
    now rewrite Hl.
Qed.

(** An instance: two frames captured after [connect()] was called again
    while the first promise, the one the processor holds, is pending. *)
Lemma capture_while_connecting_witness :
  let s := reconnecting_session in
  let frames := [[0%Q]; [1 # 4]] in
  fst (run (map AudioProcess frames) s) = []
  /\ fst (run (map AudioProcess frames ++ [Channel 0 (OnSettled true)]) s)
     = map (fun f => SendRealtimeInput (createBlob f)) frames
  /\ forall later : list (list Q),
       fst (run (map AudioProcess frames ++ [Channel 0 (OnSettled false)]
                 ++ map AudioProcess later) s) = [].
Proof.
  intros s frames.
  apply (capture_while_connecting frames s 0).
  - reflexivity.
  - reflexivity.
  - reflexivity.
Defined.

Lemma step_settled :
  forall fulfilled s,
    step (SessionSettled fulfilled) s
    = match session s with
      | Some Pending =>
          if fulfilled then
            run_reactions (reactions s) (set_session s (Some Fulfilled) [])
          else ([], set_session s (Some Rejected) [])
      | _ => ([], s)
      end.
Proof.
  intros fulfilled s. cbn [step]. unfold callback, settle.
  rewrite promise_state_latest, waiting_latest, !set_promise_latest.
  destruct (session s) as [[| |]|]; reflexivity.
Qed.

(** A [disconnect] called while the session promise is pending does
    nothing yet: it waits at its [await].  When the promise is fulfilled the
    whole teardown runs; when it is rejected nothing is ever released,
    however often [disconnect] is called again. *)
Theorem disconnect_while_connecting :
  forall s : LuminaSession,
    session s = Some Pending -> reactions s = [] ->
    fst (fst (disconnect s)) = []
    /\ snd (disconnect s) = Suspended
    /\ fst (run [Disconnect; SessionSettled true] s) = fst (teardown s)
    /\ sources (snd (run [Disconnect; SessionSettled true] s)) = []
    /\ forall n : nat,
         fst (run (Disconnect :: SessionSettled false :: repeat Disconnect n) s)
         = [].
Proof.
  intros s Hs Hr.
  assert (E : disconnect s = ([], set_session s (Some Pending) [ResumeDisconnect],
                              Suspended)).
  { unfold disconnect. now rewrite Hs, Hr. }
  assert (Ed : step Disconnect s
               = ([], set_session s (Some Pending) [ResumeDisconnect])).
  { cbn [step]. now rewrite E. }
  rewrite E. cbn [fst snd]. repeat split.
  - rewrite !run_cons, Ed, step_settled.
    cbn [run fst snd session set_session reactions run_reactions].
    unfold teardown. cbn [fst snd app]. now rewrite !app_nil_r.
  - rewrite !run_cons, Ed, step_settled.
    cbn [run fst snd session set_session reactions run_reactions].
    reflexivity.
  - intros n. rewrite !run_cons, Ed, step_settled.
    cbn [fst snd session set_session app].
    set (s1 := set_session _ (Some Rejected) []).
    assert (Hn : run (repeat Disconnect n) s1 = ([], s1)).
    { induction n as [|n IH]; [reflexivity|].
      cbn [repeat run step]. unfold disconnect. cbn [session s1 set_session fst].
      now rewrite IH. }
    now rewrite Hn.
Qed.

(** An instance: the session right after [connect], the microphone
    acquired. *)
Lemma disconnect_while_connecting_witness :
  let s := snd (run [Connect (Some [7%nat])] new_session) in
  fst (fst (disconnect s)) = []
  /\ snd (disconnect s) = Suspended
  /\ fst (run [Disconnect; SessionSettled true] s) = fst (teardown s)
  /\ sources (snd (run [Disconnect; SessionSettled true] s)) = []
  /\ forall n : nat,
       fst (run (Disconnect :: SessionSettled false :: repeat Disconnect n) s)
       = [].
Proof.
  intros s. apply (disconnect_while_connecting s); reflexivity.
Defined.

(** [disconnect] neither closes the channel nor forgets the output
    context: an audio message delivered after it, and after the channel's
    close callback, is still decoded and scheduled, from the watermark the
    session had, and becomes the one unit of the active set. *)
Theorem audio_after_disconnect :
  forall (s : LuminaSession) (base64 : string) (now : Q) (buf : AudioBuffer),
    Connected s -> outputContext s <> None ->
    decodeAudioData base64 = Ok buf ->
    let t := Qmax (nextStartTime s) now in
    run [Disconnect; ChannelClose; ChannelMessage (audio_message base64) now] s
    = (fst (teardown s)
       ++ [StatusChange "Disconnected"; SourceStart (nextNode s) t],
       set_playback s (double (t + double (duration buf)))
         [{| node := nextNode s; buffer := buf; startTime := t |}]
         (S (nextNode s))).
Proof.
  intros s base64 now buf Hconn Hctx Hdec t.
  unfold Connected in Hconn.
  set (s1 := set_playback s (nextStartTime s) [] (nextNode s)).
  assert (Ed : step Disconnect s = (fst (teardown s), s1)).
  { cbn [step]. unfold disconnect. now rewrite Hconn. }
  assert (Hconn1 : session s1 = Some Fulfilled) by exact Hconn.
  assert (Hctx1 : outputContext s1 <> None) by exact Hctx.
  assert (Ec : step ChannelClose s1 = ([StatusChange "Disconnected"], s1)).
  { cbn [step]. unfold callback. now rewrite promise_state_latest, Hconn1. }
  rewrite !run_cons, Ed. cbn [fst snd]. rewrite Ec. cbn [fst snd].
  rewrite step_message, Hconn1.
  rewrite (handleMessage_audio base64 (latest s1) now s1 buf); try assumption;
    [|now rewrite promise_state_latest].
  rewrite (playAudio_ok base64 now s1 buf Hctx1 Hdec).
  cbn [run fst snd app]. reflexivity.
Qed.

(** An instance: one unit playing, then teardown, then a late chunk. *)
Lemma audio_after_disconnect_witness :
  let s := playing_session in
  let buf := {| sampleRate := 24000; channelData := [pcm 0] |} in
  let t := Qmax (nextStartTime s) 5 in
  run [Disconnect; ChannelClose; ChannelMessage (audio_message "AAA=") 5] s
  = (fst (teardown s)
     ++ [StatusChange "Disconnected"; SourceStart (nextNode s) t],
     set_playback s (double (t + double (duration buf)))
       [{| node := nextNode s; buffer := buf; startTime := t |}]
       (S (nextNode s))).
Proof.
  apply (audio_after_disconnect playing_session "AAA=" 5
           {| sampleRate := 24000; channelData := [pcm 0] |}).
  - reflexivity.
  - discriminate.
  - reflexivity.
Defined.

Lemma screen_updates_app :
  forall a b, screen_updates (a ++ b) = screen_updates a ++ screen_updates b.
Proof.
  induction a as [|e a IH]; intros b; [reflexivity|].
  destruct e; cbn [app screen_updates]; now rewrite IH.
Qed.

Lemma tool_loop_paired :
  forall fcs,
    List.length (screen_updates (fst (fst (tool_loop fcs))))
    = List.length (snd (fst (tool_loop fcs)))
    /\ tool_responses (fst (fst (tool_loop fcs))) = []
    /\ Forall (fun e => exists t c, e = ScreenUpdate t c) (fst (fst (tool_loop fcs))).
Proof.
  induction fcs as [|fc fcs IH]; [now repeat split|]. cbn [tool_loop].
  destruct (is_update_screen fc); [|exact IH].
  destruct (args fc) as [a|]; [|now repeat split].
  destruct (tool_loop fcs) as [[calls responses] c]. cbn [fst snd] in *.
  destruct IH as (IH1 & IH2 & IH3). repeat split.
  - cbn [screen_updates List.length]. now rewrite IH1.
  - exact IH2.
  - constructor; [now eexists; eexists | assumption].
Qed.

Lemma sent_responses :
  forall ms, screen_updates (map send ms) = [].
Proof.
  induction ms as [|m ms IH]; [reflexivity|]. destruct m; exact IH.
Qed.

Lemma sent_tool_responses :
  forall rs : list Outbound,
    Forall (fun m => exists i n r, m = ToolResponse i n r) rs ->
    List.length (tool_responses (map send rs)) = List.length rs.
Proof.
  induction 1 as [|m rs (i & n & r & ->) _ IH]; [reflexivity|].
  cbn [map send tool_responses List.length]. now rewrite IH.
Qed.

Lemma tool_loop_responses_only :
  forall fcs,
    Forall (fun m => exists i n r, m = ToolResponse i n r)
      (snd (fst (tool_loop fcs))).
Proof.
  induction fcs as [|fc fcs IH]; [constructor|]. cbn [tool_loop].
  destruct (is_update_screen fc); [|exact IH].
  destruct (args fc) as [a|]; [|constructor].
  destruct (tool_loop fcs) as [[calls responses] c]. cbn [fst snd] in *.
  constructor; [now do 3 eexists | assumption].
Qed.

Lemma screen_updates_playAudio :
  forall base64 now s, screen_updates (fst (playAudio base64 now s)) = [].
Proof.
  intros base64 now s. unfold playAudio.
  destruct (outputContext s); [|reflexivity].
  destruct (decodeAudioData base64); reflexivity.
Qed.

(** On a channel whose session promise is fulfilled, screen updates and
    tool responses go in pairs, whatever the message holds and even when
    the handler throws half way through the invocations: the handler never
    answers an invocation without having updated the screen for it, and
    never updates the screen without answering. *)
Theorem screen_updates_paired :
  forall (message : LiveServerMessage) (sessionPromise : nat) (now : Q)
         (s : LuminaSession),
    promise_state sessionPromise s = Some Fulfilled ->
    List.length
      (screen_updates (fst (fst (handleMessage message sessionPromise now s))))
    = List.length
        (tool_responses (fst (fst (handleMessage message sessionPromise now s)))).
Proof.
  intros message k now s Hconn. unfold handleMessage.
  set (played := match inlineData message with
                 | Some base64Audio =>
                     if String.eqb base64Audio "" then ([], s)
                     else match outputContext s with
                          | Some _ => playAudio base64Audio now s
                          | None => ([], s)
                          end
                 | None => ([], s)
                 end).
  assert (Hp : screen_updates (fst played) = []
               /\ tool_responses (fst played) = []
               /\ promise_state k (snd played) = promise_state k s).
  { unfold played. destruct (inlineData message) as [b|]; [|now repeat split].
    destruct (String.eqb b ""); [now repeat split|].
    destruct (outputContext s) eqn:Hctx; [|now repeat split].
    split; [apply screen_updates_playAudio|].
    split; [apply tool_responses_playAudio | apply promise_state_playAudio]. }
  destruct played as [audio s1]. cbn [fst snd] in Hp.
  destruct Hp as (Hp1 & Hp2 & Hp3).
  set (loop := match toolCall message with
               | Some (Some fcs) => tool_loop fcs
               | Some None => ([], [], Thrown TypeError)
               | None => ([], [], Returned)
               end).
  assert (Hl : List.length (screen_updates (fst (fst loop)))
               = List.length (snd (fst loop))
               /\ tool_responses (fst (fst loop)) = []
               /\ Forall (fun m => exists i n r, m = ToolResponse i n r)
                    (snd (fst loop))).
  { unfold loop. destruct (toolCall message) as [[fcs|]|];
      try (repeat split; constructor).
    destruct (tool_loop_paired fcs) as (H1 & H2 & _).
    repeat split; try assumption. apply tool_loop_responses_only. }
  destruct loop as [[calls responses] c]. cbn [fst snd] in Hl.
  destruct Hl as (Hl1 & Hl2 & Hl3).
  unfold then_. rewrite Hp3, Hconn. cbn [fst snd].
  rewrite !screen_updates_app, !tool_responses_app, Hp1, Hp2, Hl2.
  rewrite (sent_responses responses).
  cbn [app]. rewrite app_nil_r.
  now rewrite (sent_tool_responses responses Hl3).
Qed.

(** An instance: three invocations, the last without arguments. *)
Lemma screen_updates_paired_witness :
  let call i a := {| id := Some i; name := Some "update_screen"%string; args := a |} in
  let shown := Some {| title := Some "T"%string; content_markdown := None |} in
  let message :=
    tool_message [call "a"%string shown; call "b"%string shown; call "c"%string None] in
  List.length
    (screen_updates (fst (fst (handleMessage message 0 0 connected_session))))
  = List.length
      (tool_responses (fst (fst (handleMessage message 0 0 connected_session)))).
Proof.
  intros call shown message.
  apply (screen_updates_paired message 0 0 connected_session). reflexivity.
Defined.

End Sequences.

(** ** The research service *)

Section Research.

Import GeminiService.

Lemma append_same_prefix :
  forall q x : string, (q ++ x)%string = q -> x = ""%string.
Proof.
  induction q as [|c q IH]; intros x H; cbn in H; [assumption|].
  injection H as H. now apply IH.
Qed.

Lemma constraints_nil_iff :
  forall o,
    constraints o = []
    <-> truthy (range_start o) = false /\ truthy (range_end o) = false
        /\ (truthy (pubType o) = false \/ pubType o = Some "All"%string)
        /\ truthy (excludeKeywords o) = false
        /\ sortBy o <> Some date.
Proof.
  intros o. unfold constraints.
  destruct (truthy (range_start o)), (truthy (range_end o));
    cbn [orb app]; try (split; [discriminate | intros (? & ? & _); discriminate]).
  destruct (pubType o) as [p|] eqn:Ep; cbn [truthy or_default andb].
  - destruct (String.eqb_spec p ""); cbn [negb andb app].
    + destruct (truthy (excludeKeywords o)); cbn [app];
        [split; [discriminate | intros (_ & _ & _ & ? & _); discriminate]|].
      destruct (sortBy o) as [[|]|]; split; try discriminate; try tauto;
        intros _; repeat split; auto; discriminate.
    + destruct (String.eqb_spec p "All"); cbn [negb app].
      * subst p.
        destruct (truthy (excludeKeywords o)); cbn [app];
          [split; [discriminate | intros (_ & _ & _ & ? & _); discriminate]|].
        destruct (sortBy o) as [[|]|]; split; try discriminate; try tauto;
          intros _; repeat split; auto; discriminate.
      * split; [discriminate|]. intros (_ & _ & [H | H] & _); congruence.
  - destruct (truthy (excludeKeywords o)); cbn [app];
      [split; [discriminate | intros (_ & _ & _ & ? & _); discriminate]|].
    destruct (sortBy o) as [[|]|]; split; try discriminate; try tauto;
      intros _; repeat split; auto; discriminate.
Qed.

Lemma constraints_length : forall o, (List.length (constraints o) <= 4)%nat.
Proof.
  intros o. unfold constraints. rewrite !length_app.
  destruct (truthy (range_start o) || truthy (range_end o));
    destruct (truthy (pubType o)
              && negb (String.eqb (or_default (pubType o) "") "All"));
    destruct (truthy (excludeKeywords o));
    destruct (sortBy o) as [[|]|]; cbn [List.length]; lia.
Qed.

(** The query sent to the model is the user's query followed by a block
    of constraints; it is the query itself exactly when no filter is
    active: no start or end date, no publication type other than [All], no
    excluded keyword, and no sorting by date.  There are at most four
    constraint lines. *)
Theorem augmentedQuery_unchanged_iff :
  forall (query : string) (o : SearchOptions),
    (augmentedQuery query (Some o) = query
     <-> truthy (range_start o) = false /\ truthy (range_end o) = false
         /\ (truthy (pubType o) = false \/ pubType o = Some "All"%string)
         /\ truthy (excludeKeywords o) = false
         /\ sortBy o <> Some date)
    /\ (exists suffix, augmentedQuery query (Some o) = (query ++ suffix)%string)
    /\ (List.length (constraints o) <= 4)%nat.
Proof.
  intros query o. split; [|split].
  - rewrite <- constraints_nil_iff. unfold augmentedQuery.
    destruct (constraints o) as [|c cs]; [tauto|].
    split; [|discriminate]. intros H. apply append_same_prefix in H.
    discriminate.
  - unfold augmentedQuery. destruct (constraints o) as [|c cs].
    + exists ""%string. clear. induction query as [|a q IH]; cbn; congruence.
    + eexists. reflexivity.
  - apply constraints_length.
Qed.

Lemma encode_nonempty :
  forall bytes, bytes <> [] -> String.eqb (encode bytes) "" = false.
Proof.
  intros bytes H. destruct (String.eqb_spec (encode bytes) ""); [|reflexivity].
  exfalso. assert (Hl : String.length (encode bytes) = O) by now rewrite e.
  unfold encode, btoa in Hl.
  rewrite length_string_of_list_ascii, encode_bytes_length_exact, length_map,
    length_list_ascii_of_string, length_string_of_list_ascii, length_map in Hl.
  destruct bytes as [|b bytes]; [contradiction|]. cbn [List.length] in Hl.
  assert ((1 <= (S (List.length bytes) + 2) / 3)%nat).
  { apply Nat.div_le_lower_bound; lia. }
  lia.
Qed.

(** [generateSpeech] gives back the bytes of the audio the model sent:
    for audio that is the base64 encoding of some bytes it returns exactly
    those bytes and logs nothing, except that audio of no byte at all is
    the empty text, which it takes for missing audio and answers with
    [null]. *)
Theorem generateSpeech_encode :
  forall bytes : list Z,
    Forall is_byte bytes ->
    generateSpeech (Ok (Some (encode bytes)))
    = (match bytes with [] => None | _ => Some bytes end, []).
Proof.
  intros bytes H. unfold generateSpeech. cbn [truthy or_default].
  destruct bytes as [|b bytes]; [reflexivity|].
  rewrite encode_nonempty by discriminate. cbn [negb].
  rewrite atob_encode by assumption.
  now rewrite bytes_of_binary.
Qed.

(** An instance: three bytes of audio. *)
Lemma generateSpeech_encode_witness :
  generateSpeech (Ok (Some (encode [82; 73; 70])))
  = (match [82; 73; 70] with [] => None | _ => Some [82; 73; 70] end, []).
Proof.
  apply (generateSpeech_encode [82; 73; 70]).
  unfold is_byte. repeat constructor; lia.
Defined.

End Research.

(** ** Saved searches and citations *)

Section Assistant.

Import ResearchAssistant.

Lemma deleteSearch_absent :
  forall i l, (forall x, In x l -> id x <> i) -> deleteSearch i l = l.
Proof.
  intros i l. unfold deleteSearch. induction l as [|a l IH]; intros H;
    [reflexivity|].
  cbn [filter]. destruct (String.eqb_spec (id a) i) as [E | E].
  - exfalso. apply (H a); [now left | assumption].
  - cbn [negb]. f_equal. apply IH. intros x Hx. apply H. now right.
Qed.

(** Saving a search and deleting it again leaves the saved list as it
    was, provided no search already saved carries the identifier of the
    clock reading; and however many searches were saved at one clock
    reading, one deletion removes them all. *)
Theorem saved_search_roundtrip :
  forall (now : N) (q1 q2 : string) (o1 o2 : GeminiService.SearchOptions)
         (savedSearches : list SavedSearch),
    (forall x, In x savedSearches -> id x <> toString now) ->
    deleteSearch (toString now) (saveSearch now q1 o1 savedSearches)
    = savedSearches
    /\ deleteSearch (toString now)
         (saveSearch now q2 o2 (saveSearch now q1 o1 savedSearches))
       = savedSearches
    /\ (q1 <> ""%string ->
        List.length (saveSearch now q1 o1 savedSearches)
        = S (List.length savedSearches)
        /\ hd_error (saveSearch now q1 o1 savedSearches)
           = Some {| id := toString now; query := q1; options := o1;
                     timestamp := now |}).
Proof.
  intros now q1 q2 o1 o2 l H.
  assert (E : forall q o l', deleteSearch (toString now) (saveSearch now q o l')
                             = deleteSearch (toString now) l').
  { intros q o l'. unfold saveSearch, deleteSearch.
    destruct (String.eqb q ""); [reflexivity|].
    cbn [filter id]. now rewrite String.eqb_refl. }
  repeat split.
  - rewrite E. now apply deleteSearch_absent.
  - rewrite !E. now apply deleteSearch_absent.
  - unfold saveSearch. destruct (String.eqb_spec q1 ""); [contradiction|].
    reflexivity.
  - unfold saveSearch. destruct (String.eqb_spec q1 ""); [contradiction|].
    reflexivity.
Qed.

(** An instance: one search saved earlier, two saved at the same clock
    reading. *)
Lemma saved_search_roundtrip_witness :
  let o := {| GeminiService.dateRange := None;
              GeminiService.pubType := Some "All"%string;
              GeminiService.excludeKeywords := None;
              GeminiService.sortBy := Some GeminiService.relevance |} in
  let old := [{| id := toString 1700000000000; query := "tides"%string;
                 options := o; timestamp := 1700000000000%N |}] in
  deleteSearch (toString 1700000000001)
    (saveSearch 1700000000001 "moons" o old) = old
  /\ deleteSearch (toString 1700000000001)
       (saveSearch 1700000000001 "rings" o
          (saveSearch 1700000000001 "moons" o old)) = old
  /\ ("moons"%string <> ""%string ->
      List.length (saveSearch 1700000000001 "moons" o old)
      = S (List.length old)
      /\ hd_error (saveSearch 1700000000001 "moons" o old)
         = Some {| id := toString 1700000000001; query := "moons"%string;
                   options := o; timestamp := 1700000000001%N |}).
Proof.
  intros o old.
  apply (saved_search_roundtrip 1700000000001 "moons" "rings" o o old).
  intros x [<- | []]. vm_compute. discriminate.
Defined.

Lemma digits_are_word :
  forall d, forallb is_word (code_units (NilEmpty.string_of_uint d)) = true.
Proof.
  induction d as [|d IH|d IH|d IH|d IH|d IH|d IH|d IH|d IH|d IH|d IH];
    try reflexivity; exact IH.
Qed.

Lemma forallb_filter_same :
  forall (f : N -> bool) l, forallb f (filter f l) = true.
Proof.
  intros f l. induction l as [|a l IH]; [reflexivity|].
  cbn [filter]. destruct (f a) eqn:E; [|assumption].
  cbn [forallb]. now rewrite E.
Qed.

Lemma is_space_not_alnum : forall c, is_space c = true -> is_alnum c = false.
Proof.
  intros c. unfold is_space, is_alnum. intros H.
  repeat match goal with
         | H : (_ || _)%bool = true |- _ => apply orb_true_iff in H; destruct H as [H | H]
         | H : (_ && _)%bool = true |- _ => apply andb_true_iff in H; destruct H as [? ?]
         end;
    repeat match goal with
           | H : (_ <=? _)%N = true |- _ => apply N.leb_le in H
           | H : (_ =? _)%N = true |- _ => apply N.eqb_eq in H
           end;
    repeat match goal with
           | |- context [(?a <=? ?b)%N] => destruct (N.leb_spec a b)
           end; cbn; try reflexivity; lia.
Qed.

Lemma alnum_of_replaced :
  forall l b,
    filter is_alnum (filter is_word (replace_space_runs b l)) = filter is_alnum l.
Proof.
  induction l as [|c l IH]; intros b; [reflexivity|].
  cbn [replace_space_runs]. destruct (is_space c) eqn:Es.
  - cbn [filter]. rewrite (is_space_not_alnum c Es).
    destruct b; [apply IH|]. cbn [filter is_word is_alnum]. cbn. apply IH.
  - cbn [filter]. unfold is_word at 1. destruct (is_alnum c) eqn:Ea.
    + cbn [orb filter]. rewrite Ea. f_equal. apply IH.
    + cbn [orb]. destruct (N.eqb_spec c 95).
      * subst c. cbn [filter]. cbn. apply IH.
      * apply IH.
Qed.

Lemma digits_are_alnum :
  forall d,
    filter is_alnum (code_units (NilEmpty.string_of_uint d))
    = code_units (NilEmpty.string_of_uint d).
Proof.
  induction d as [|d IH|d IH|d IH|d IH|d IH|d IH|d IH|d IH|d IH|d IH];
    try reflexivity;
    cbn [NilEmpty.string_of_uint code_units list_ascii_of_string map filter];
    fold (code_units (NilEmpty.string_of_uint d)); cbn; now rewrite IH.
Qed.

(** The identifier of a BibTeX entry is always a legal key: it holds
    letters, digits and underscores only, whatever the title.  It is
    [citation_], the index, an underscore and what is kept of the title (of
    [unknown] when the title is empty), and what is kept holds all the
    letters and digits of the title, in their order: the letters and digits
    of the identifier are those of [citation], the digits of the index and
    the letters and digits of the title. *)
Theorem citation_id_is_word :
  forall (i : nat) (title : list N),
    let t := match title with [] => code_units "unknown" | _ => title end in
    forallb is_word (citation_id i title) = true
    /\ (exists kept : list N,
          citation_id i title
          = code_units "citation_"
            ++ code_units (NilEmpty.string_of_uint (Nat.to_uint i))
            ++ [95%N] ++ kept
          /\ filter is_alnum kept = filter is_alnum t)
    /\ filter is_alnum (citation_id i title)
       = code_units "citation"
         ++ code_units (NilEmpty.string_of_uint (Nat.to_uint i))
         ++ filter is_alnum t.
Proof.
  intros i title t. split; [|split].
  - unfold citation_id. rewrite !forallb_app.
    rewrite digits_are_word, forallb_filter_same. reflexivity.
  - exists (filter is_word (replace_space_runs false t)).
    split; [reflexivity | apply alnum_of_replaced].
  - unfold citation_id. fold t. rewrite !filter_app.
    rewrite digits_are_alnum, alnum_of_replaced. reflexivity.
Qed.

End Assistant.
